(** * BMP image filters: a shallow embedding of [horn_main.cpp]

    The development follows the source file top to bottom: the [Pixel]
    structure, the bitmap reader ([get_int], [read_image]), the bitmap
    writer ([set_bytes], [write_image]), the processing helpers
    ([size_image], [rbg_pixel], [new_pixel], [rotate_90]), the
    processing functions ([process_2] to [process_10]) and the handler
    ([get_image], [respond], [execute]).  [process_1] is left out: its
    result depends on the [pow] of the C library, which the language does
    not define to the last bit.

    Conventions.
    - A C++ [int] is a [Z]; every arithmetic operation that can leave the
      32-bit range is written with its two's complement wrap-around
      ([int_add], [int_sub], [int_mul]), the value compilers give to a
      signed overflow, which the language leaves undefined; [/] and [%]
      truncate toward zero ([Z.quot], [Z.rem]).
    - A [vector<T>] is a [list T]; [v[i]] outside the vector has no defined
      meaning in C++ and is the result [Fault]; a vector constructor called
      with a negative [int] size raises [std::length_error], the result
      [Throws]; a constructor that runs out of memory is not modelled.
    - A [double] is a primitive float, the binary64 format of IEEE 754;
      every operation rounds to nearest on its own.
    - A value a function reads from [cin] in a prompt loop is a parameter
      of its model: the value the loop ends with.
    - A file is a [list byte]; an [fstream] opened for reading is the
      record [istream] (contents, get position, [failbit]), an [fstream]
      opened for writing is the list of bytes written so far. *)

From Stdlib Require Import Floats.PrimFloat Floats.FloatOps Floats.SpecFloat.
From Stdlib Require Import Uint63.
From Stdlib Require Import ZArith Lia List Bool.
From Stdlib.Strings Require Import Byte.
From stdpp Require Import base numbers list.

Local Open Scope Z_scope.

(** ** C++ [int] *)

Module Int.

Definition min_int : Z := -2147483648.
Definition max_int : Z := 2147483647.

(** Reduction of an integer to the 32-bit two's complement range. *)
Definition wrap (z : Z) : Z := (z + 2147483648) mod 4294967296 - 2147483648.

Definition in_range (z : Z) : Prop := min_int <= z <= max_int.

Definition add (a b : Z) : Z := wrap (a + b).
Definition sub (a b : Z) : Z := wrap (a - b).
Definition mul (a b : Z) : Z := wrap (a * b).

(** [int n = v.size()]: narrowing of a [size_t]. *)
Definition of_size (n : nat) : Z := wrap (Z.of_nat n).

End Int.

Abbreviation int_add := Int.add.
Abbreviation int_sub := Int.sub.
Abbreviation int_mul := Int.mul.

(** ** Results of a C++ computation *)

Inductive result (A : Type) : Type :=
| Ok (a : A)
| Fault      (* an index outside a vector or an array *)
| Throws.    (* an exception leaves the function *)

Arguments Ok {A} a.
Arguments Fault {A}.
Arguments Throws {A}.

#[global] Instance result_bind : MBind result :=
  fun (A B : Type) (k : A -> result B) (c : result A) =>
    match c with
    | Ok a => k a
    | Fault => Fault
    | Throws => Throws
    end.

(** ** Vectors *)

(** [vector<T> v(n, x)] with [n] an [int]. *)
Definition vector_n {A : Type} (n : Z) (x : A) : result (list A) :=
  if n <? 0 then Throws else Ok (replicate (Z.to_nat n) x).

(** [v[i]] as a value. *)
Definition vec_at {A : Type} (v : list A) (i : Z) : result A :=
  if i <? 0 then Fault
  else match v !! Z.to_nat i with
       | Some x => Ok x
       | None => Fault
       end.

(** [v[i] = x]. *)
Definition vec_set {A : Type} (v : list A) (i : Z) (x : A) : result (list A) :=
  if (0 <=? i) && (i <? Z.of_nat (length v))
  then Ok (<[Z.to_nat i := x]> v)
  else Fault.

(** [g[i][j]] as a value. *)
Definition at2 {A : Type} (g : list (list A)) (i j : Z) : result A :=
  row ← vec_at g i; vec_at row j.

(** [g[i][j] = x]. *)
Definition set2 {A : Type} (g : list (list A)) (i j : Z) (x : A)
  : result (list (list A)) :=
  row ← vec_at g i;
  row' ← vec_set row j x;
  vec_set g i row'.

(** ** Counting loops *)

(** [n] iterations of [body], the counter starting at [i] and stepping by
    [step]. *)
Fixpoint for_iter {S : Type} (n : nat) (i step : Z)
    (body : Z -> S -> result S) (s : S) : result S :=
  match n with
  | O => Ok s
  | Datatypes.S n' => s' ← body i s; for_iter n' (i + step) step body s'
  end.

(** [for (int i = lo; i < hi; i++) body]. *)
Definition for_up {S : Type} (lo hi : Z) (body : Z -> S -> result S) (s : S)
  : result S :=
  for_iter (Z.to_nat (hi - lo)) lo 1 body s.

(** [for (int i = hi; i >= 0; i--) body]. *)
Definition for_down {S : Type} (hi : Z) (body : Z -> S -> result S) (s : S)
  : result S :=
  for_iter (Z.to_nat (hi + 1)) hi (-1) body s.

(** ** Pixels and images *)

Record Pixel : Type := mkPixel { red : Z; green : Z; blue : Z }.

(** [typedef vector<vector<Pixel>> Image]. *)
Abbreviation Image := (list (list Pixel)).

(** [Pixel()]: the value-initialised pixel a vector constructor fills with. *)
Definition zero_pixel : Pixel := mkPixel 0 0 0.

(** ** Bytes *)

(** The value of an [unsigned char]. *)
Definition uchar_value (b : byte) : Z := Z.of_N (Byte.to_N b).

(** [(unsigned char) v]: the conversion keeps [v] modulo 256. *)
Definition to_uchar (v : Z) : byte :=
  match Byte.of_N (Z.to_N (v mod 256)) with
  | Some b => b
  | None => x00
  end.

(** ** Input streams

    [fstream] opened with [ios::in | ios::binary].  [get] at the end of the
    file returns [EOF] and sets [eofbit] and [failbit] together, and nothing
    in the program clears [failbit], so one flag stands for both: once it is
    set every [seekg] is a no-op and every [get] returns [EOF].  [consumed]
    is a ghost field: the offsets of the bytes [get] has delivered, latest
    first. *)

Record istream : Type := mkIstream {
  contents : list byte;
  gpos : Z;
  failbit : bool;
  consumed : list Z
}.

Definition EOF : Z := -1.

(** [stream.open(filename, ios::in | ios::binary)]: [None] is a file that
    cannot be opened. *)
Definition open_in (file : option (list byte)) : istream :=
  match file with
  | Some data => mkIstream data 0 false []
  | None => mkIstream [] 0 true []
  end.

Definition set_failbit (s : istream) : istream :=
  mkIstream (contents s) (gpos s) true (consumed s).

(** [stream.seekg(pos)]. *)
Definition seekg (s : istream) (pos : Z) : istream :=
  if failbit s then s
  else if pos <? 0 then set_failbit s
  else mkIstream (contents s) pos false (consumed s).

(** [stream.seekg(off, ios::cur)]. *)
Definition seekg_cur (s : istream) (off : Z) : istream :=
  if failbit s then s
  else if gpos s + off <? 0 then set_failbit s
  else mkIstream (contents s) (gpos s + off) false (consumed s).

(** [stream.get()]. *)
Definition get (s : istream) : Z * istream :=
  if failbit s then (EOF, s)
  else match contents s !! Z.to_nat (gpos s) with
       | Some b =>
           (uchar_value b,
            mkIstream (contents s) (gpos s + 1) false (gpos s :: consumed s))
       | None => (EOF, set_failbit s)
       end.

(** ** Reading a bitmap *)

(** The loop of [get_int]: [n] iterations left. *)
Fixpoint get_int_loop (n : nat) (result base : Z) (stream : istream)
  : Z * istream :=
  match n with
  | O => (result, stream)
  | Datatypes.S n' =>
      let '(c, stream) := get stream in
      let result := int_add result (int_mul c base) in
      let base := int_mul base 256 in
      get_int_loop n' result base stream
  end.

Definition get_int (stream : istream) (offset bytes : Z) : Z * istream :=
  let stream := seekg stream offset in
  get_int_loop (Z.to_nat bytes) 0 1 stream.

Definition set_blue (p : Pixel) (v : Z) : Pixel := mkPixel (red p) (green p) v.
Definition set_green (p : Pixel) (v : Z) : Pixel := mkPixel (red p) v (blue p).
Definition set_red (p : Pixel) (v : Z) : Pixel := mkPixel v (green p) (blue p).

(** [read_image] on an opened stream; the stream it leaves is returned
    with the image. *)
Definition read_image_from (stream : istream) : result (Image * istream) :=
  let '(file_size, stream) := get_int stream 2 4 in
  let '(start, stream) := get_int stream 10 4 in
  let '(width, stream) := get_int stream 18 4 in
  let '(height, stream) := get_int stream 22 4 in
  let '(bits_per_pixel, stream) := get_int stream 28 2 in
  let scanline_size := int_mul width (Z.quot bits_per_pixel 8) in
  let padding :=
    if negb (Z.rem scanline_size 4 =? 0)
    then int_sub 4 (Z.rem scanline_size 4)
    else 0 in
  if negb (file_size =?
           int_add start (int_mul (int_add scanline_size padding) height))
  then Ok ([], stream)
  else
    inner ← vector_n width zero_pixel;
    image ← vector_n height inner;
    let pos := start in
    '(image, pos, stream) ←
      for_down (int_sub height 1) (fun i st =>
        '(image, pos, stream) ←
          for_up 0 width (fun j st =>
            let '(image, pos, stream) := st in
            let stream := seekg stream pos in
            let '(c, stream) := get stream in
            p ← at2 image i j;
            image ← set2 image i j (set_blue p c);
            let '(c, stream) := get stream in
            p ← at2 image i j;
            image ← set2 image i j (set_green p c);
            let '(c, stream) := get stream in
            p ← at2 image i j;
            image ← set2 image i j (set_red p c);
            let pos := int_add pos (Z.quot bits_per_pixel 8) in
            Ok (image, pos, stream))
          st;
        let stream := seekg_cur stream padding in
        let pos := int_add pos padding in
        Ok (image, pos, stream))
      (image, pos, stream);
    Ok (image, stream).

Definition read_image (file : option (list byte)) : result Image :=
  '(image, _) ← read_image_from (open_in file); Ok image.

(** ** Writing a bitmap *)

Definition set_bytes (arr : list byte) (offset bytes value : Z)
  : result (list byte) :=
  for_up 0 bytes (fun i arr =>
    vec_set arr (int_add offset i) (to_uchar (Z.shiftr value (int_mul i 8))))
  arr.

(** [stream.write((char* )arr, n)] on an output stream that holds [out]. *)
Definition stream_write (out arr : list byte) (n : Z) : result (list byte) :=
  if (0 <=? n) && (n <=? Z.of_nat (length arr))
  then Ok (out ++ take (Z.to_nat n) arr)
  else Fault.

Definition BMP_HEADER_SIZE : Z := 14.
Definition DIB_HEADER_SIZE : Z := 40.

(** [write_image]: [is_open] tells whether the output file could be opened;
    the bytes written are returned with the boolean. *)
Definition write_image (is_open : bool) (image : Image)
  : result (bool * list byte) :=
  row0 ← vec_at image 0;
  let width_pixels := Int.of_size (length row0) in
  let height_pixels := Int.of_size (length image) in
  let width_bytes := int_mul width_pixels 3 in
  let padding_bytes := Z.rem (int_sub 4 (Z.rem width_bytes 4)) 4 in
  let width_bytes := int_add width_bytes padding_bytes in
  let array_bytes := int_mul width_bytes height_pixels in
  if negb is_open then Ok (false, [])
  else
    let bmp_header := replicate (Z.to_nat BMP_HEADER_SIZE) x00 in
    let dib_header := replicate (Z.to_nat DIB_HEADER_SIZE) x00 in
    bmp_header ← set_bytes bmp_header 0 1 66;
    bmp_header ← set_bytes bmp_header 1 1 77;
    bmp_header ← set_bytes bmp_header 2 4
      (int_add (int_add BMP_HEADER_SIZE DIB_HEADER_SIZE) array_bytes);
    bmp_header ← set_bytes bmp_header 6 2 0;
    bmp_header ← set_bytes bmp_header 8 2 0;
    bmp_header ← set_bytes bmp_header 10 4
      (int_add BMP_HEADER_SIZE DIB_HEADER_SIZE);
    dib_header ← set_bytes dib_header 0 4 DIB_HEADER_SIZE;
    dib_header ← set_bytes dib_header 4 4 width_pixels;
    dib_header ← set_bytes dib_header 8 4 height_pixels;
    dib_header ← set_bytes dib_header 12 2 1;
    dib_header ← set_bytes dib_header 14 2 24;
    dib_header ← set_bytes dib_header 16 4 0;
    dib_header ← set_bytes dib_header 20 4 array_bytes;
    dib_header ← set_bytes dib_header 24 4 2835;
    dib_header ← set_bytes dib_header 28 4 2835;
    dib_header ← set_bytes dib_header 32 4 0;
    dib_header ← set_bytes dib_header 36 4 0;
    stream ← stream_write [] bmp_header BMP_HEADER_SIZE;
    stream ← stream_write stream dib_header DIB_HEADER_SIZE;
    let pixel := replicate 3 x00 in
    let padding := replicate 3 x00 in
    '(pixel, stream) ←
      for_down (int_sub height_pixels 1) (fun h st =>
        '(pixel, stream) ←
          for_up 0 width_pixels (fun w st =>
            let '(pixel, stream) := st in
            p ← at2 image h w;
            pixel ← vec_set pixel 0 (to_uchar (blue p));
            p ← at2 image h w;
            pixel ← vec_set pixel 1 (to_uchar (green p));
            p ← at2 image h w;
            pixel ← vec_set pixel 2 (to_uchar (red p));
            stream ← stream_write stream pixel 3;
            Ok (pixel, stream))
          st;
        stream ← stream_write stream padding padding_bytes;
        Ok (pixel, stream))
      (pixel, stream);
    Ok (true, stream).

(** ** Processing helpers *)

Definition size_image (image : Image) : result (Z * Z) :=
  let rows := Int.of_size (length image) in
  row0 ← vec_at image 0;
  let cols := Int.of_size (length row0) in
  Ok (rows, cols).

Definition rbg_pixel (p : Pixel) : Z * Z * Z := (red p, blue p, green p).

Definition new_pixel (r b g : Z) : Pixel :=
  let new_pixel := zero_pixel in
  let new_pixel := mkPixel r (green new_pixel) (blue new_pixel) in
  let new_pixel := mkPixel (red new_pixel) (green new_pixel) b in
  let new_pixel := mkPixel (red new_pixel) g (blue new_pixel) in
  new_pixel.

Definition rotate_90 (image : Image) (rotations : Z) : result Image :=
  let rotations := Z.rem rotations 4 in
  if rotations =? 0 then Ok image
  else
    '(rows, cols) ← size_image image;
    inner ← vector_n rows zero_pixel;
    new_image ← vector_n cols inner;
    inner_mirror ← vector_n cols zero_pixel;
    new_image_mirror ← vector_n rows inner_mirror;
    new_image ←
      for_up 0 rows (fun row new_image =>
        for_up 0 cols (fun col new_image =>
          p ← at2 image row col;
          set2 new_image (int_sub (int_sub cols 1) col) row p)
        new_image)
      new_image;
    '(new_image, new_image_mirror) ←
      for_up 2 (rotations + 1) (fun i st =>
        for_up 0 rows (fun row st =>
          for_up 0 cols (fun col st =>
            let '(new_image, new_image_mirror) := st in
            if Z.rem i 2 =? 0 then
              p ← at2 new_image col row;
              new_image_mirror ←
                set2 new_image_mirror (int_sub (int_sub rows 1) row) col p;
              Ok (new_image, new_image_mirror)
            else
              p ← at2 new_image_mirror row col;
              new_image ←
                set2 new_image (int_sub (int_sub cols 1) col) row p;
              Ok (new_image, new_image_mirror))
          st)
        st)
      (new_image, new_image_mirror);
    if Z.rem rotations 2 =? 0 then Ok new_image_mirror else Ok new_image.

(** ** Image processing functions *)

(** [(double) n] for an [int] [n]: a [double] is a binary64 float and
    holds every [int] exactly. *)
Definition double_of_int (n : Z) : float :=
  if n <? 0 then PrimFloat.opp (PrimFloat.of_uint63 (Uint63.of_Z (- n)))
  else PrimFloat.of_uint63 (Uint63.of_Z n).

(** [(int) d] for a [double] [d]: the fractional part is dropped.  The
    conversion of a value that is not finite has no defined meaning in
    C++ and gives 0 here; that of a finite value outside the range of
    [int] has none either and gives the truncated value. *)
Definition int_of_double (d : float) : Z :=
  match Prim2SF d with
  | S754_finite s m e =>
      let v := if 0 <=? e then Z.pos m * 2 ^ e
               else Z.quot (Z.pos m) (2 ^ (- e)) in
      if s then - v else v
  | _ => 0
  end.

(** [process_2]: [scale_factor] is the factor [get_scale] returns, the
    first number it reads from [cin] that is greater than 0 and at most
    1; [size_image] is called before the prompt. *)
Definition process_2 (scale_factor : float) (image : Image) : result Image :=
  '(rows, cols) ← size_image image;
  inner ← vector_n cols zero_pixel;
  new_image ← vector_n rows inner;
  for_up 0 rows (fun row new_image =>
    for_up 0 cols (fun col new_image =>
      p ← at2 image row col;
      let '(red, blue, green) := rbg_pixel p in
      let avg := Z.quot (int_add (int_add red blue) green) 3 in
      let '(n_red, n_blue, n_green) :=
        if 170 <=? avg then
          (int_of_double
             (PrimFloat.sub (double_of_int 255)
                (PrimFloat.mul (double_of_int (int_sub 255 red)) scale_factor)),
           int_of_double
             (PrimFloat.sub (double_of_int 255)
                (PrimFloat.mul (double_of_int (int_sub 255 blue)) scale_factor)),
           int_of_double
             (PrimFloat.sub (double_of_int 255)
                (PrimFloat.mul (double_of_int (int_sub 255 green)) scale_factor)))
        else if avg <? 90 then
          (int_of_double (PrimFloat.mul (double_of_int red) scale_factor),
           int_of_double (PrimFloat.mul (double_of_int blue) scale_factor),
           int_of_double (PrimFloat.mul (double_of_int green) scale_factor))
        else (red, blue, green) in
      set2 new_image row col (new_pixel n_red n_blue n_green))
    new_image)
  new_image.

Definition process_3 (image : Image) : result Image :=
  '(rows, cols) ← size_image image;
  inner ← vector_n cols zero_pixel;
  new_image ← vector_n rows inner;
  for_up 0 rows (fun row new_image =>
    for_up 0 cols (fun col new_image =>
      p ← at2 image row col;
      let '(red, blue, green) := rbg_pixel p in
      let avg := Z.quot (int_add (int_add red blue) green) 3 in
      set2 new_image row col (new_pixel avg avg avg))
    new_image)
  new_image.

Definition process_4 (image : Image) : result Image :=
  rotate_90 image 1.

(** [process_5] prompts until [cin] gives it an integer greater than zero
    and rotates by that count: [num] is the count the prompt loop ends
    with. *)
Definition process_5 (num : Z) (image : Image) : result Image :=
  rotate_90 image num.

(** [process_6] reads the size of the image, then prompts for the two
    scales until [cin] gives it integers greater than zero: [x] and [y] are
    the values the two prompt loops end with. *)
Definition process_6 (x y : Z) (image : Image) : result Image :=
  '(rows, cols) ← size_image image;
  inner ← vector_n (int_mul cols x) zero_pixel;
  new_image ← vector_n (int_mul rows y) inner;
  for_up 0 (int_mul y rows) (fun row new_image =>
    for_up 0 (int_mul x cols) (fun col new_image =>
      p ← at2 image (Z.quot row y) (Z.quot col x);
      set2 new_image row col p)
    new_image)
  new_image.

Definition process_7 (image : Image) : result Image :=
  '(rows, cols) ← size_image image;
  inner ← vector_n cols zero_pixel;
  new_image ← vector_n rows inner;
  for_up 0 rows (fun row new_image =>
    for_up 0 cols (fun col new_image =>
      p ← at2 image row col;
      let '(red, blue, green) := rbg_pixel p in
      let avg :=
        PrimFloat.div (double_of_int (int_add (int_add red blue) green))
          3%float in
      let '(n_red, n_blue, n_green) :=
        if PrimFloat.leb 127.5%float avg then (255, 255, 255)
        else (0, 0, 0) in
      set2 new_image row col (new_pixel n_red n_blue n_green))
    new_image)
  new_image.

(** [process_8] and [process_9]: [scale] is the factor [get_scale] returns,
    the first number it reads from [cin] that is greater than 0 and at
    most 1. *)
Definition process_8 (scale : float) (image : Image) : result Image :=
  '(rows, cols) ← size_image image;
  inner ← vector_n cols zero_pixel;
  new_image ← vector_n rows inner;
  for_up 0 rows (fun row new_image =>
    for_up 0 cols (fun col new_image =>
      p ← at2 image row col;
      let '(red, blue, green) := rbg_pixel p in
      let n_red :=
        int_of_double
          (PrimFloat.sub (double_of_int 255)
             (PrimFloat.mul (double_of_int (int_sub 255 red)) scale)) in
      let n_blue :=
        int_of_double
          (PrimFloat.sub (double_of_int 255)
             (PrimFloat.mul (double_of_int (int_sub 255 blue)) scale)) in
      let n_green :=
        int_of_double
          (PrimFloat.sub (double_of_int 255)
             (PrimFloat.mul (double_of_int (int_sub 255 green)) scale)) in
      set2 new_image row col (new_pixel n_red n_blue n_green))
    new_image)
  new_image.

Definition process_9 (scale : float) (image : Image) : result Image :=
  '(rows, cols) ← size_image image;
  inner ← vector_n cols zero_pixel;
  new_image ← vector_n rows inner;
  for_up 0 rows (fun row new_image =>
    for_up 0 cols (fun col new_image =>
      p ← at2 image row col;
      let '(red, blue, green) := rbg_pixel p in
      let n_red := int_of_double (PrimFloat.mul (double_of_int red) scale) in
      let n_blue := int_of_double (PrimFloat.mul (double_of_int blue) scale) in
      let n_green := int_of_double (PrimFloat.mul (double_of_int green) scale) in
      set2 new_image row col (new_pixel n_red n_blue n_green))
    new_image)
  new_image.

Definition process_10 (image : Image) : result Image :=
  '(rows, cols) ← size_image image;
  inner ← vector_n cols zero_pixel;
  new_image ← vector_n rows inner;
  for_up 0 rows (fun row new_image =>
    for_up 0 cols (fun col new_image =>
      p ← at2 image row col;
      let '(red, blue, green) := rbg_pixel p in
      let mx := Z.max red blue in
      let mx := Z.max mx green in
      let sum := int_add (int_add red blue) green in
      let '(n_red, n_blue, n_green) :=
        if 550 <=? sum then (255, 255, 255)
        else if sum <=? 150 then (0, 0, 0)
        else if mx =? red then (255, 0, 0)
        else if mx =? green then (0, 0, 255)
        else (0, 255, 0) in
      set2 new_image row col (new_pixel n_red n_blue n_green))
    new_image)
  new_image.

(** ** Handler

    The files are what the functions of the program see of them: the
    content of the input file, [None] when it cannot be opened, and whether
    the output file can be opened.  What [cout] prints and the names read
    from [cin] are left out. *)

Definition get_image (file : option (list byte)) : result Image :=
  read_image file.

(** [respond] does not look at the boolean [write_image] returns; the
    bytes written are its result here. *)
Definition respond (is_open : bool) (new_image : Image) : result (list byte) :=
  '(_, written) ← write_image is_open new_image; Ok written.

Definition execute (file : option (list byte)) (is_open : bool)
    (process : Image -> result Image) : result (list byte) :=
  image ← get_image file;
  new_image ← process image;
  respond is_open new_image.

(** * Vocabulary of the properties *)

(** The element at an [int] index, when there is one. *)
Definition zlookup {A : Type} (v : list A) (i : Z) : option A :=
  if i <? 0 then None else v !! Z.to_nat i.

(** The element of a grid at ([i], [j]), when there is one. *)
Definition cell {A : Type} (g : list (list A)) (i j : Z) : option A :=
  match zlookup g i with
  | Some row => zlookup row j
  | None => None
  end.

(** [g] has [R] rows of [C] elements each. *)
Definition grid_dims {A : Type} (g : list (list A)) (R C : Z) : Prop :=
  Z.of_nat (length g) = R /\
  Forall (fun row => Z.of_nat (length row) = C) g.

(** The grid after [g[i][j] = x]. *)
Definition grid_upd {A : Type} (g : list (list A)) (i j : Z) (x : A)
  : list (list A) :=
  match zlookup g i with
  | Some row => <[Z.to_nat i := <[Z.to_nat j := x]> row]> g
  | None => g
  end.

(** The state of a pair of nested loops that fill a grid: the cells that
    the passes before ([row], [col]) target hold their values. *)
Definition filled_upto {S X : Type} (grid_of : S -> list (list X))
    (Frame : S -> Prop) (R C A B : Z) (ti tj : Z -> Z -> Z)
    (val : Z -> Z -> X) (row col : Z) (s : S) : Prop :=
  Frame s /\ grid_dims (grid_of s) A B /\
  forall r c, 0 <= r < R -> 0 <= c < C ->
    r < row \/ (r = row /\ c < col) ->
    cell (grid_of s) (ti r c) (tj r c) = Some (val r c).

(** A non-empty rectangular image: [R >= 1] rows of [C >= 1] pixels each,
    both sizes being values of an [int]. *)
Definition rect_image (image : Image) (R C : Z) : Prop :=
  grid_dims image R C /\ 1 <= R <= Int.max_int /\ 1 <= C <= Int.max_int.

(** The pixel of an image at a row and a column. *)
Definition pixel_at (image : Image) (row col : Z) : option Pixel :=
  cell image row col.

(** A channel value that fits a byte. *)
Definition byte_channel (v : Z) : Prop := 0 <= v <= 255.

Definition byte_pixel (p : Pixel) : Prop :=
  byte_channel (red p) /\ byte_channel (green p) /\ byte_channel (blue p).

Definition byte_image (image : Image) : Prop :=
  Forall (Forall byte_pixel) image.

(** The pixel [process_3] computes from a pixel. *)
Definition gray_pixel (p : Pixel) : Pixel :=
  let avg := Z.quot (int_add (int_add (red p) (blue p)) (green p)) 3 in
  new_pixel avg avg avg.

(** The pixel [process_10] computes from a pixel. *)
Definition threshold_pixel (p : Pixel) : Pixel :=
  let mx := Z.max (Z.max (red p) (blue p)) (green p) in
  let sum := int_add (int_add (red p) (blue p)) (green p) in
  if 550 <=? sum then new_pixel 255 255 255
  else if sum <=? 150 then new_pixel 0 0 0
  else if mx =? red p then new_pixel 255 0 0
  else if mx =? green p then new_pixel 0 0 255
  else new_pixel 0 255 0.

(** [out] is the [R] by [C] grid [src] after one turn of [rotate_90]: a
    [C] by [R] grid that holds the element ([row], [col]) of [src] at
    ([C - 1 - col], [row]). *)
Definition quarter_turn (src out : Image) (R C : Z) : Prop :=
  grid_dims out C R /\
  forall row col, 0 <= row < R -> 0 <= col < C ->
    cell out (C - 1 - col) row = cell src row col.

(** [n] successive applications of transform 4. *)
Fixpoint rotate_times (n : nat) (image : Image) : result Image :=
  match n with
  | O => Ok image
  | Datatypes.S n' => out ← rotate_times n' image; process_4 out
  end.

Definition cell_or_zero (g : Image) (i j : Z) : Pixel :=
  match cell g i j with
  | Some p => p
  | None => zero_pixel
  end.

(** What a read of the byte at offset [p] contributes: the value of the
    byte, or [missing] when [p] is past the end of [data]. *)
Definition byte_or (missing : Z) (data : list byte) (p : Z) : Z :=
  match zlookup data p with
  | Some b => uchar_value b
  | None => missing
  end.

(** Little-endian value of the [n] bytes from offset [p] on. *)
Fixpoint le_sum (missing : Z) (data : list byte) (p : Z) (n : nat) : Z :=
  match n with
  | O => 0
  | Datatypes.S n' => byte_or missing data p + 256 * le_sum missing data (p + 1) n'
  end.

(** The stream reads [data], and if it has failed then [data] ends at or
    before offset [p]. *)
Definition reads (s : istream) (data : list byte) (p : Z) : Prop :=
  contents s = data /\ 0 <= gpos s /\
  (failbit s = true -> Z.of_nat (length data) <= p).

(** Byte [i] of [value] as [set_bytes] stores it. *)
Definition le_byte (value i : Z) : byte := to_uchar (Z.shiftr value (int_mul i 8)).

Definition le_bytes_2 (value : Z) : list byte := [le_byte value 0; le_byte value 1].
Definition le_bytes_4 (value : Z) : list byte :=
  [le_byte value 0; le_byte value 1; le_byte value 2; le_byte value 3].

Definition bmp_header_bytes (array_bytes : Z) : list byte :=
  [le_byte 66 0; le_byte 77 0] ++ le_bytes_4 (int_add (int_add 14 40) array_bytes)
  ++ le_bytes_2 0 ++ le_bytes_2 0 ++ le_bytes_4 (int_add 14 40).

Definition dib_header_bytes (width_pixels height_pixels array_bytes : Z) : list byte :=
  le_bytes_4 40 ++ le_bytes_4 width_pixels ++ le_bytes_4 height_pixels
  ++ le_bytes_2 1 ++ le_bytes_2 24 ++ le_bytes_4 0 ++ le_bytes_4 array_bytes
  ++ le_bytes_4 2835 ++ le_bytes_4 2835 ++ le_bytes_4 0 ++ le_bytes_4 0.

(** The bytes of a pixel, of a row and of the pixel array as [write_image]
    lays them out. *)
Definition pixel_bytes (p : Pixel) : list byte :=
  [to_uchar (blue p); to_uchar (green p); to_uchar (red p)].

Definition row_bytes (pad : Z) (row : list Pixel) : list byte :=
  concat (map pixel_bytes row) ++ replicate (Z.to_nat pad) x00.

Definition pixel_array (pad : Z) (image : Image) : list byte :=
  concat (map (row_bytes pad) (reverse image)).

(** Padding of a row of [C] pixels and the length of the padded row. *)
Definition padding_of (C : Z) : Z := Z.rem (4 - Z.rem (C * 3) 4) 4.
Definition stride_of (C : Z) : Z := C * 3 + padding_of C.

(** The file [write_image] produces for an [R] by [C] image. *)
Definition encoding (image : Image) (R C : Z) : list byte :=
  bmp_header_bytes (stride_of C * R)
  ++ dib_header_bytes C R (stride_of C * R)
  ++ pixel_array (padding_of C) image.

(** The value [get_int] reads from a freshly opened file. *)
Definition header_field (file : option (list byte)) (offset bytes : Z) : Z :=
  fst (get_int (open_in file) offset bytes).

Definition file_bytes (file : option (list byte)) : list byte :=
  match file with
  | Some data => data
  | None => []
  end.

(** The offsets of the five header fields [read_image] reads. *)
Definition header_offset (q : Z) : Prop :=
  2 <= q < 6 \/ 10 <= q < 14 \/ 18 <= q < 26 \/ 28 <= q < 30.

(** The length of a padded row as [read_image] computes it from the
    width and the bits per pixel. *)
Definition row_stride (width bits_per_pixel : Z) : Z :=
  let scanline_size := int_mul width (Z.quot bits_per_pixel 8) in
  let padding :=
    if negb (Z.rem scanline_size 4 =? 0)
    then int_sub 4 (Z.rem scanline_size 4)
    else 0 in
  int_add scanline_size padding.

(** The test of [read_image] on the header fields of a file. *)
Definition header_consistent (file : option (list byte)) : bool :=
  header_field file 2 4 =?
  int_add (header_field file 10 4)
    (int_mul (row_stride (header_field file 18 4) (header_field file 28 2))
       (header_field file 22 4)).

(** The stream has not failed, reads [data] and stands at offset [q]. *)
Definition good (s : istream) (data : list byte) (q : Z) : Prop :=
  contents s = data /\ failbit s = false /\ gpos s = q.

(** The two by two image of the format's worked example: red and green
    above blue and white. *)
Definition sample_image : Image :=
  [[mkPixel 255 0 0; mkPixel 0 255 0]; [mkPixel 0 0 255; mkPixel 255 255 255]].

(** A single pixel whose channels do not fit a byte. *)
Definition overflowing_image : Image := [[mkPixel 300 (-1) 256]].

(** The seventy bytes of the two by two bitmap of the worked example. *)
Definition sample_file : list byte :=
  map to_uchar
    [66; 77; 70; 0; 0; 0; 0; 0; 0; 0; 54; 0; 0; 0;
     40; 0; 0; 0; 2; 0; 0; 0; 2; 0; 0; 0; 1; 0; 24; 0; 0; 0; 0; 0;
     16; 0; 0; 0; 19; 11; 0; 0; 19; 11; 0; 0; 0; 0; 0; 0; 0; 0; 0; 0;
     255; 0; 0; 255; 255; 255; 0; 0;
     0; 0; 255; 0; 255; 0; 0; 0].

(** A header that declares one row of no pixels, and nothing after it. *)
Definition zero_width_file : list byte :=
  map to_uchar
    [66; 77; 54; 0; 0; 0; 0; 0; 0; 0; 54; 0; 0; 0;
     40; 0; 0; 0; 0; 0; 0; 0; 1; 0; 0; 0; 1; 0; 24; 0; 0; 0; 0; 0;
     0; 0; 0; 0; 19; 11; 0; 0; 19; 11; 0; 0; 0; 0; 0; 0; 0; 0; 0; 0].

Definition white : Pixel := mkPixel 255 255 255.
Definition black : Pixel := mkPixel 0 0 0.
Definition pure_red : Pixel := mkPixel 255 0 0.
Definition pure_green : Pixel := mkPixel 0 255 0.
Definition pure_blue : Pixel := mkPixel 0 0 255.

(** The sum of the three channels, an [int]. *)
Definition channel_sum (p : Pixel) : Z :=
  Int.wrap (red p + green p + blue p).

(** [v] is the largest of the three channels of [p]. *)
Definition is_maximum (v : Z) (p : Pixel) : bool :=
  (red p <=? v) && (green p <=? v) && (blue p <=? v).

(** The colour threshold rule in words: white from 550 up, black up to
    150, otherwise the pure colour of the largest channel, red before
    green before blue. *)
Definition threshold_rule (p : Pixel) : Pixel :=
  if 550 <=? channel_sum p then white
  else if channel_sum p <=? 150 then black
  else if is_maximum (red p) p then pure_red
  else if is_maximum (green p) p then pure_green
  else pure_blue.

(** The value of the byte at an offset of a file. *)
Definition byte_at (file : list byte) (offset : Z) : option Z :=
  match zlookup file offset with
  | Some b => Some (uchar_value b)
  | None => None
  end.

(** The pixel [process_7] computes from a pixel. *)
Definition contrast_pixel (p : Pixel) : Pixel :=
  let avg :=
    PrimFloat.div
      (double_of_int (int_add (int_add (red p) (blue p)) (green p)))
      3%float in
  if PrimFloat.leb 127.5%float avg then new_pixel 255 255 255
  else new_pixel 0 0 0.

(** The test of [process_7] on the sum of the three channels. *)
Definition contrast_test (sum : Z) : bool :=
  PrimFloat.leb 127.5%float (PrimFloat.div (double_of_int sum) 3%float).

(** The channel [process_8] computes from a channel, and the one
    [process_9] computes. *)
Definition lighten_channel (scale : float) (v : Z) : Z :=
  int_of_double
    (PrimFloat.sub (double_of_int 255)
       (PrimFloat.mul (double_of_int (int_sub 255 v)) scale)).

Definition darken_channel (scale : float) (v : Z) : Z :=
  int_of_double (PrimFloat.mul (double_of_int v) scale).

Definition lighten_pixel (scale : float) (p : Pixel) : Pixel :=
  new_pixel (lighten_channel scale (red p)) (lighten_channel scale (blue p))
    (lighten_channel scale (green p)).

Definition darken_pixel (scale : float) (p : Pixel) : Pixel :=
  new_pixel (darken_channel scale (red p)) (darken_channel scale (blue p))
    (darken_channel scale (green p)).

(** The pixel [process_2] computes from a pixel. *)
Definition clarendon_pixel (scale : float) (p : Pixel) : Pixel :=
  let avg := Z.quot (int_add (int_add (red p) (blue p)) (green p)) 3 in
  if 170 <=? avg then lighten_pixel scale p
  else if avg <? 90 then darken_pixel scale p
  else new_pixel (red p) (blue p) (green p).

(** A transform that keeps the geometry of an image and maps every pixel
    by [f]. *)
Definition pixelwise (T : Image -> result Image) (f : Pixel -> Pixel) : Prop :=
  forall image R C, rect_image image R C ->
    exists out, T image = Ok out /\ grid_dims out R C /\
      forall row col p, cell image row col = Some p ->
        cell out row col = Some (f p).

(** A channel as [read_image] stores it: the value of a byte, or [EOF]
    where the stream had no byte to give. *)
Definition decoded_channel (v : Z) : Prop := -1 <= v <= 255.

Definition decoded_pixel (p : Pixel) : Prop :=
  decoded_channel (red p) /\ decoded_channel (green p) /\
  decoded_channel (blue p).

(** The pixel a file holds at an offset: blue, green, red. *)
Definition pixel_from (data : list byte) (offset : Z) : Pixel :=
  mkPixel (byte_or 0 data (offset + 2)) (byte_or 0 data (offset + 1))
    (byte_or 0 data offset).

(** A pixel and an image with every channel reduced modulo 256. *)
Definition wrap_pixel (p : Pixel) : Pixel :=
  mkPixel (red p mod 256) (green p mod 256) (blue p mod 256).

Definition wrap_image (image : Image) : Image := map (map wrap_pixel) image.

(** A file of [54 + stride * R] bytes whose header declares that length,
    the offset 54, [C] columns, [R] rows and 24 bits per pixel, and passes
    the test of [read_image]. *)
Definition well_formed_bmp (file : list byte) (R C : Z) : Prop :=
  Z.of_nat (length file) = 54 + stride_of C * R /\
  header_field (Some file) 2 4 = Z.of_nat (length file) /\
  header_field (Some file) 10 4 = 54 /\
  header_field (Some file) 18 4 = C /\
  header_field (Some file) 22 4 = R /\
  header_field (Some file) 28 2 = 24 /\
  header_consistent (Some file) = true.

(** Twenty-two bytes of a header: the file ends after the width field, so
    that the height and the bits per pixel are read past the end. *)
Definition short_header_file : list byte :=
  map to_uchar
    [66; 77; 86; 32; 32; 32; 0; 0; 0; 0; 54; 0; 0; 0;
     40; 0; 0; 0; 1; 0; 0; 0].

(** The bitmap of the worked example cut after its fifty-eighth byte. *)
Definition truncated_file : list byte := take 58 sample_file.

(** The next multiple of four from [n] on. *)
Definition round_up_4 (n : Z) : Z := 4 * ((n + 3) / 4).

(** The bytes that hold a row of [width] pixels of [bits_per_pixel] bits
    each. *)
Definition row_byte_width (width bits_per_pixel : Z) : Z :=
  (width * bits_per_pixel + 7) / 8.

(** The invariant of the format on the header fields of a file, over the
    integers: [file_size = offset + row_stride * height], the row stride
    being the row byte width rounded up to the next multiple of four. *)
Definition header_invariant (file : option (list byte)) : Prop :=
  header_field file 2 4
  = header_field file 10 4
    + round_up_4 (row_byte_width (header_field file 18 4)
                    (header_field file 28 2))
      * header_field file 22 4.

(** The invariant as the format description words it for 24 bits per
    pixel: the row byte width is three times the width. *)
Definition header_invariant_24 (file : option (list byte)) : Prop :=
  header_field file 2 4
  = header_field file 10 4
    + round_up_4 (header_field file 18 4 * 3) * header_field file 22 4.

(** The bitmap of the worked example with a file size field of 71. *)
Definition wrong_size_file : list byte := <[2%nat := x47]> sample_file.

(** A header that declares 54 bytes, one row of two pixels of 4 bits, and
    four bytes after it. *)
Definition four_bpp_file : list byte :=
  map to_uchar
    [66; 77; 54; 0; 0; 0; 0; 0; 0; 0; 54; 0; 0; 0;
     40; 0; 0; 0; 2; 0; 0; 0; 1; 0; 0; 0; 1; 0; 4; 0; 0; 0; 0; 0;
     0; 0; 0; 0; 19; 11; 0; 0; 19; 11; 0; 0; 0; 0; 0; 0; 0; 0; 0; 0;
     1; 2; 3; 0].

(** A header that declares 58 bytes and one row of width -1 at 24 bits
    per pixel, and four bytes after it. *)
Definition negative_width_file : list byte :=
  map to_uchar
    [66; 77; 58; 0; 0; 0; 0; 0; 0; 0; 54; 0; 0; 0;
     40; 0; 0; 0; 255; 255; 255; 255; 1; 0; 0; 0; 1; 0; 24; 0; 0; 0; 0; 0;
     0; 0; 0; 0; 19; 11; 0; 0; 19; 11; 0; 0; 0; 0; 0; 0; 0; 0; 0; 0;
     0; 0; 0; 0].

(** * Properties *)

Arguments for_up : simpl never.
Arguments for_down : simpl never.

(** ** Arithmetic of [int] *)

Module IntFacts.
Import Int.

Lemma wrap_small (z : Z) : in_range z -> wrap z = z.
Proof.
  unfold in_range, wrap, min_int, max_int. intros Hz.
  rewrite Z.mod_small by lia. lia.
Qed.

Lemma wrap_in_range (z : Z) : in_range (wrap z).
Proof.
  unfold in_range, wrap, min_int, max_int.
  pose proof (Z.mod_pos_bound (z + 2147483648) 4294967296). lia.
Qed.

Lemma wrap_mod (z : Z) : wrap z mod 4294967296 = z mod 4294967296.
Proof.
  unfold wrap.
  rewrite Zminus_mod, Z.mod_mod, <- Zminus_mod by lia.
  f_equal. lia.
Qed.

Lemma wrap_eq_mod (a b : Z) :
  a mod 4294967296 = b mod 4294967296 -> wrap a = wrap b.
Proof.
  intros H. unfold wrap.
  rewrite (Zplus_mod a), (Zplus_mod b), H. reflexivity.
Qed.

Lemma wrap_add_l (a b : Z) : wrap (wrap a + b) = wrap (a + b).
Proof.
  apply wrap_eq_mod.
  rewrite Zplus_mod, wrap_mod, <- Zplus_mod. reflexivity.
Qed.

Lemma add_small (a b : Z) : in_range (a + b) -> add a b = a + b.
Proof. apply wrap_small. Qed.

Lemma sub_small (a b : Z) : in_range (a - b) -> sub a b = a - b.
Proof. apply wrap_small. Qed.

Lemma mul_small (a b : Z) : in_range (a * b) -> mul a b = a * b.
Proof. apply wrap_small. Qed.

Lemma of_size_small (n : nat) :
  Z.of_nat n <= max_int -> of_size n = Z.of_nat n.
Proof.
  intros H. apply wrap_small. unfold in_range, min_int, max_int in *. lia.
Qed.

End IntFacts.

(** Rewriting away the wrap-around of operations that stay in range. *)
Ltac int_range :=
  unfold Int.in_range, Int.min_int, Int.max_int in *; lia.

Ltac int_small :=
  repeat match goal with
    | |- context [Int.add ?a ?b] => rewrite (IntFacts.add_small a b) by int_range
    | |- context [Int.sub ?a ?b] => rewrite (IntFacts.sub_small a b) by int_range
    | |- context [Int.mul ?a ?b] => rewrite (IntFacts.mul_small a b) by int_range
    end.

(** ** Vectors and grids *)

Section VectorFacts.
Context {A : Type}.
Implicit Types (v : list A) (i j : Z).

Lemma zlookup_Some_range v i x :
  zlookup v i = Some x -> 0 <= i < Z.of_nat (length v).
Proof.
  unfold zlookup. destruct (Z.ltb_spec i 0) as [Hneg | Hpos]; [discriminate |].
  intros Hx%lookup_lt_Some. lia.
Qed.

Lemma zlookup_in_range v i :
  0 <= i < Z.of_nat (length v) -> exists x, zlookup v i = Some x.
Proof.
  intros Hi. unfold zlookup. destruct (Z.ltb_spec i 0); [lia |].
  destruct (lookup_lt_is_Some_2 v (Z.to_nat i)) as [x Hx]; [lia | eauto].
Qed.

Lemma zlookup_None v i :
  ~ (0 <= i < Z.of_nat (length v)) -> zlookup v i = None.
Proof.
  intros Hi. destruct (zlookup v i) eqn:E; [| reflexivity].
  apply zlookup_Some_range in E. contradiction.
Qed.

Lemma zlookup_insert_eq v i x :
  0 <= i < Z.of_nat (length v) -> zlookup (<[Z.to_nat i := x]> v) i = Some x.
Proof.
  intros Hi. unfold zlookup. destruct (Z.ltb_spec i 0); [lia |].
  apply list_lookup_insert_eq. lia.
Qed.

Lemma zlookup_insert_ne v i j x :
  0 <= i -> i <> j -> zlookup (<[Z.to_nat i := x]> v) j = zlookup v j.
Proof.
  intros Hi Hne. unfold zlookup. destruct (Z.ltb_spec j 0); [reflexivity |].
  apply list_lookup_insert_ne. lia.
Qed.

Lemma vec_at_zlookup v i x : zlookup v i = Some x -> vec_at v i = Ok x.
Proof.
  unfold zlookup, vec_at. destruct (i <? 0); [discriminate |].
  intros ->. reflexivity.
Qed.

Lemma vec_set_in_range v i x :
  0 <= i < Z.of_nat (length v) -> vec_set v i x = Ok (<[Z.to_nat i := x]> v).
Proof.
  intros Hi. unfold vec_set.
  destruct (Z.leb_spec 0 i); [| lia].
  destruct (Z.ltb_spec i (Z.of_nat (length v))); [reflexivity | lia].
Qed.

End VectorFacts.

Section GridFacts.
Context {A : Type}.
Implicit Types (g : list (list A)) (i j : Z).

Lemma at2_cell g i j x : cell g i j = Some x -> at2 g i j = Ok x.
Proof.
  unfold cell, at2. destruct (zlookup g i) as [row |] eqn:E; [| discriminate].
  intros H. rewrite (vec_at_zlookup _ _ _ E). simpl.
  apply vec_at_zlookup, H.
Qed.

Lemma grid_dims_row g R C i row :
  grid_dims g R C -> zlookup g i = Some row -> Z.of_nat (length row) = C.
Proof.
  intros [_ Hrows] H. unfold zlookup in H.
  destruct (i <? 0); [discriminate |].
  rewrite Forall_lookup in Hrows. eapply Hrows, H.
Qed.

Lemma cell_in_range g R C i j :
  grid_dims g R C -> 0 <= i < R -> 0 <= j < C ->
  exists x, cell g i j = Some x.
Proof.
  intros Hd Hi Hj. unfold cell.
  destruct (zlookup_in_range g i) as [row Hrow]; [destruct Hd; lia |].
  rewrite Hrow. apply zlookup_in_range.
  rewrite (grid_dims_row _ _ _ _ _ Hd Hrow). lia.
Qed.

Lemma cell_Some_range g R C i j x :
  grid_dims g R C -> cell g i j = Some x -> 0 <= i < R /\ 0 <= j < C.
Proof.
  intros Hd. unfold cell.
  destruct (zlookup g i) as [row |] eqn:Hrow; [| discriminate].
  intros Hx. apply zlookup_Some_range in Hx.
  rewrite (grid_dims_row _ _ _ _ _ Hd Hrow) in Hx.
  apply zlookup_Some_range in Hrow. destruct Hd. lia.
Qed.

Lemma set2_in_range g R C i j x :
  grid_dims g R C -> 0 <= i < R -> 0 <= j < C ->
  set2 g i j x = Ok (grid_upd g i j x).
Proof.
  intros Hd Hi Hj. unfold set2, grid_upd.
  destruct (zlookup_in_range g i) as [row Hrow]; [destruct Hd; lia |].
  rewrite Hrow, (vec_at_zlookup _ _ _ Hrow). simpl.
  rewrite vec_set_in_range
    by (rewrite (grid_dims_row _ _ _ _ _ Hd Hrow); lia).
  simpl. apply vec_set_in_range. destruct Hd. lia.
Qed.

Lemma grid_upd_dims g R C i j x :
  grid_dims g R C -> grid_dims (grid_upd g i j x) R C.
Proof.
  intros Hd. unfold grid_upd.
  destruct (zlookup g i) as [row |] eqn:Hrow; [| exact Hd].
  pose proof (grid_dims_row _ _ _ _ _ Hd Hrow) as Hlen.
  destruct Hd as [HR Hrows]. split.
  - rewrite length_insert. exact HR.
  - apply Forall_insert; [exact Hrows |].
    rewrite length_insert. exact Hlen.
Qed.

Lemma cell_grid_upd_eq g R C i j x :
  grid_dims g R C -> 0 <= i < R -> 0 <= j < C ->
  cell (grid_upd g i j x) i j = Some x.
Proof.
  intros Hd Hi Hj. unfold grid_upd, cell.
  destruct (zlookup_in_range g i) as [row Hrow]; [destruct Hd; lia |].
  rewrite Hrow, zlookup_insert_eq by (destruct Hd; lia).
  apply zlookup_insert_eq.
  rewrite (grid_dims_row _ _ _ _ _ Hd Hrow). lia.
Qed.

Lemma cell_grid_upd_ne g i j i' j' x :
  0 <= j -> (i, j) <> (i', j') ->
  cell (grid_upd g i j x) i' j' = cell g i' j'.
Proof.
  intros Hj Hne. unfold grid_upd.
  destruct (zlookup g i) as [row |] eqn:Hrow; [| reflexivity].
  pose proof (zlookup_Some_range _ _ _ Hrow) as Hi.
  unfold cell. destruct (Z.eq_dec i i') as [<- | Hii].
  - rewrite zlookup_insert_eq, Hrow by lia.
    apply zlookup_insert_ne; [lia | congruence].
  - rewrite zlookup_insert_ne by lia. reflexivity.
Qed.

Lemma grid_ext g1 g2 R C :
  grid_dims g1 R C -> grid_dims g2 R C ->
  (forall i j, 0 <= i < R -> 0 <= j < C -> cell g1 i j = cell g2 i j) ->
  g1 = g2.
Proof.
  intros Hd1 Hd2 Hcell.
  apply list_eq_same_length with (n := length g1);
    [destruct Hd1, Hd2; lia | reflexivity |].
  intros k r1 r2 Hk H1 H2.
  assert (Hz1 : zlookup g1 (Z.of_nat k) = Some r1).
  { unfold zlookup. destruct (Z.ltb_spec (Z.of_nat k) 0); [lia |].
    rewrite Nat2Z.id. exact H1. }
  assert (Hz2 : zlookup g2 (Z.of_nat k) = Some r2).
  { unfold zlookup. destruct (Z.ltb_spec (Z.of_nat k) 0); [lia |].
    rewrite Nat2Z.id. exact H2. }
  pose proof (grid_dims_row _ _ _ _ _ Hd1 Hz1) as L1.
  pose proof (grid_dims_row _ _ _ _ _ Hd2 Hz2) as L2.
  apply list_eq_same_length with (n := length r1); [lia | reflexivity |].
  intros m x y Hm Hx Hy.
  assert (Hc : cell g1 (Z.of_nat k) (Z.of_nat m)
               = cell g2 (Z.of_nat k) (Z.of_nat m)).
  { apply Hcell; [destruct Hd1; lia | lia]. }
  unfold cell in Hc. rewrite Hz1, Hz2 in Hc. unfold zlookup in Hc.
  destruct (Z.ltb_spec (Z.of_nat m) 0); [lia |].
  rewrite Nat2Z.id, Hx, Hy in Hc. congruence.
Qed.

End GridFacts.

(** ** Loops *)

Section LoopFacts.
Context {S : Type}.
Implicit Types (body : Z -> S -> result S).

(** A loop whose body keeps an invariant runs to its end and
    establishes it there. *)
Lemma for_iter_inv (Inv : nat -> S -> Prop) n i step body s0 :
  Inv 0%nat s0 ->
  (forall k s, (k < n)%nat -> Inv k s ->
     exists s', body (i + Z.of_nat k * step) s = Ok s' /\ Inv (Datatypes.S k) s') ->
  exists s', for_iter n i step body s0 = Ok s' /\ Inv n s'.
Proof.
  revert Inv i s0. induction n as [| n IH]; intros Inv i s0 H0 Hstep.
  - simpl. eauto.
  - simpl. destruct (Hstep 0%nat s0) as [s1 [Hb H1]]; [lia | exact H0 |].
    replace (i + Z.of_nat 0 * step) with i in Hb by lia.
    rewrite Hb. simpl.
    apply (IH (fun k => Inv (Datatypes.S k)) (i + step) s1 H1).
    intros k s Hk HI.
    destruct (Hstep (Datatypes.S k) s) as [s' [Hb' HI']]; [lia | exact HI |].
    exists s'. split; [| exact HI'].
    rewrite <- Hb'. f_equal. lia.
Qed.

Lemma for_up_inv (Inv : Z -> S -> Prop) lo hi body s0 :
  lo <= hi -> Inv lo s0 ->
  (forall i s, lo <= i < hi -> Inv i s ->
     exists s', body i s = Ok s' /\ Inv (i + 1) s') ->
  exists s', for_up lo hi body s0 = Ok s' /\ Inv hi s'.
Proof.
  intros Hle H0 Hstep. unfold for_up.
  destruct (for_iter_inv (fun k => Inv (lo + Z.of_nat k))
              (Z.to_nat (hi - lo)) lo 1 body s0) as [s' [Hrun Hend]].
  - replace (lo + Z.of_nat 0) with lo by lia. exact H0.
  - intros k s Hk HI.
    destruct (Hstep (lo + Z.of_nat k) s) as [s' [Hb HI']]; [lia | exact HI |].
    exists s'. split.
    + rewrite <- Hb. f_equal. lia.
    + replace (lo + Z.of_nat (Datatypes.S k)) with (lo + Z.of_nat k + 1) by lia.
      exact HI'.
  - exists s'. split; [exact Hrun |].
    replace hi with (lo + Z.of_nat (Z.to_nat (hi - lo))) at 1 by lia.
    exact Hend.
Qed.

Lemma for_down_inv (Inv : Z -> S -> Prop) hi body s0 :
  -1 <= hi -> Inv hi s0 ->
  (forall i s, 0 <= i <= hi -> Inv i s ->
     exists s', body i s = Ok s' /\ Inv (i - 1) s') ->
  exists s', for_down hi body s0 = Ok s' /\ Inv (-1) s'.
Proof.
  intros Hle H0 Hstep. unfold for_down.
  destruct (for_iter_inv (fun k => Inv (hi - Z.of_nat k))
              (Z.to_nat (hi + 1)) hi (-1) body s0) as [s' [Hrun Hend]].
  - replace (hi - Z.of_nat 0) with hi by lia. exact H0.
  - intros k s Hk HI.
    destruct (Hstep (hi - Z.of_nat k) s) as [s' [Hb HI']]; [lia | exact HI |].
    exists s'. split.
    + rewrite <- Hb. f_equal. lia.
    + replace (hi - Z.of_nat (Datatypes.S k)) with (hi - Z.of_nat k - 1) by lia.
      exact HI'.
  - exists s'. split; [exact Hrun |].
    replace (-1) with (hi - Z.of_nat (Z.to_nat (hi + 1))) at 1 by lia.
    exact Hend.
Qed.

Lemma for_up_step lo hi body s0 :
  lo < hi ->
  for_up lo hi body s0 = s' ← body lo s0; for_up (lo + 1) hi body s'.
Proof.
  intros H. unfold for_up.
  replace (Z.to_nat (hi - lo))
    with (Datatypes.S (Z.to_nat (hi - (lo + 1)))) by lia.
  reflexivity.
Qed.

Lemma for_up_empty lo hi body s0 : hi <= lo -> for_up lo hi body s0 = Ok s0.
Proof.
  intros H. unfold for_up. replace (Z.to_nat (hi - lo)) with 0%nat by lia.
  reflexivity.
Qed.

End LoopFacts.

(** A pair of nested loops that stores [val row col] at the cell
    ([ti row col], [tj row col]) of a grid held in the state, for every
    [row < R] and [col < C], the targets being pairwise distinct. *)
Section Fill.
Context {S X : Type}.
Variables (grid_of : S -> list (list X)) (Frame : S -> Prop).
Variables (R C A B : Z) (ti tj : Z -> Z -> Z) (val : Z -> Z -> X).
Variable body : Z -> Z -> S -> result S.

Hypothesis body_step : forall row col s,
  0 <= row < R -> 0 <= col < C -> Frame s -> grid_dims (grid_of s) A B ->
  exists s', body row col s = Ok s' /\ Frame s' /\
    grid_of s' = grid_upd (grid_of s) (ti row col) (tj row col) (val row col).
Hypothesis target_range : forall row col,
  0 <= row < R -> 0 <= col < C ->
  0 <= ti row col < A /\ 0 <= tj row col < B.
Hypothesis target_inj : forall row col row' col',
  0 <= row < R -> 0 <= col < C -> 0 <= row' < R -> 0 <= col' < C ->
  ti row col = ti row' col' -> tj row col = tj row' col' ->
  row = row' /\ col = col'.

Local Abbreviation filled := (filled_upto grid_of Frame R C A B ti tj val).

Lemma filled_step row col s :
  0 <= row < R -> 0 <= col < C -> filled row col s ->
  exists s', body row col s = Ok s' /\ filled row (col + 1) s'.
Proof.
  intros Hrow Hcol (HF & Hd & Hcells).
  destruct (body_step row col s Hrow Hcol HF Hd) as (s' & Hb & HF' & Hg).
  exists s'. split; [exact Hb |]. split; [exact HF' |].
  destruct (target_range row col Hrow Hcol) as [Hti Htj].
  rewrite Hg. split; [apply grid_upd_dims, Hd |].
  intros r c Hr Hc Hdone.
  destruct (Z.eq_dec r row) as [-> | Hne].
  - destruct (Z.eq_dec c col) as [-> | Hne'].
    + eapply cell_grid_upd_eq; eauto.
    + rewrite cell_grid_upd_ne; [apply Hcells; lia | lia |].
      intros [= E1 E2].
      destruct (target_inj row col row c Hrow Hcol Hr Hc E1 E2). lia.
  - rewrite cell_grid_upd_ne; [apply Hcells; lia | lia |].
    intros [= E1 E2].
    destruct (target_inj row col r c Hrow Hcol Hr Hc E1 E2). lia.
Qed.

Lemma fill_loops s0 :
  0 <= R -> 0 <= C -> Frame s0 -> grid_dims (grid_of s0) A B ->
  exists s',
    for_up 0 R (fun row s => for_up 0 C (fun col s => body row col s) s) s0
    = Ok s' /\
    Frame s' /\ grid_dims (grid_of s') A B /\
    forall r c, 0 <= r < R -> 0 <= c < C ->
      cell (grid_of s') (ti r c) (tj r c) = Some (val r c).
Proof.
  intros HR HC HF Hd.
  destruct (for_up_inv (fun row s => filled row 0 s) 0 R
              (fun row s => for_up 0 C (fun col s => body row col s) s) s0)
    as (s' & Hrun & HF' & Hd' & Hcells).
  - exact HR.
  - split; [exact HF |]. split; [exact Hd |]. intros; lia.
  - intros row s Hrow Hfilled.
    destruct (for_up_inv (fun col s => filled row col s) 0 C
                (fun col s => body row col s) s) as (s' & Hrun & Hend).
    + exact HC.
    + exact Hfilled.
    + intros col s1 Hcol H1. apply filled_step; assumption.
    + exists s'. split; [exact Hrun |].
      destruct Hend as (HF' & Hd' & Hcells).
      split; [exact HF' |]. split; [exact Hd' |].
      intros r c Hr Hc Hdone. apply Hcells; lia.
  - exists s'. split; [exact Hrun |]. split; [exact HF' |].
    split; [exact Hd' |]. intros r c Hr Hc. apply Hcells; lia.
Qed.

End Fill.

(** ** Images *)

Lemma vector_n_nonneg {A : Type} (n : Z) (x : A) :
  0 <= n -> vector_n n x = Ok (replicate (Z.to_nat n) x).
Proof.
  intros Hn. unfold vector_n. destruct (Z.ltb_spec n 0); [lia | reflexivity].
Qed.

Lemma replicate_grid_dims {A : Type} (R C : Z) (x : A) :
  0 <= R -> 0 <= C ->
  grid_dims (replicate (Z.to_nat R) (replicate (Z.to_nat C) x)) R C.
Proof.
  intros HR HC. split.
  - rewrite length_replicate. lia.
  - apply Forall_replicate. rewrite length_replicate. lia.
Qed.

Lemma size_image_rect (image : Image) (R C : Z) :
  rect_image image R C -> size_image image = Ok (R, C).
Proof.
  intros (Hd & HR & HC). unfold size_image.
  destruct (zlookup_in_range image 0) as [row0 Hrow0]; [destruct Hd; lia |].
  rewrite (vec_at_zlookup _ _ _ Hrow0). simpl.
  pose proof (grid_dims_row _ _ _ _ _ Hd Hrow0) as Hlen.
  destruct Hd as [Hlen' _].
  rewrite !IntFacts.of_size_small by lia. congruence.
Qed.

Lemma byte_image_cell (image : Image) (row col : Z) (p : Pixel) :
  byte_image image -> cell image row col = Some p -> byte_pixel p.
Proof.
  unfold byte_image, cell. intros Hall Hp.
  destruct (zlookup image row) as [r |] eqn:Hr; [| discriminate].
  unfold zlookup in Hr, Hp.
  destruct (row <? 0); [discriminate |].
  destruct (col <? 0); [discriminate |].
  rewrite Forall_lookup in Hall.
  specialize (Hall _ _ Hr). rewrite Forall_lookup in Hall.
  exact (Hall _ _ Hp).
Qed.

(** ** Pixel-wise transforms *)

(** The loops shared by the transforms that keep the geometry: every cell
    of the output is [f] of the same cell of the input. *)
Lemma pointwise_loops (f : Pixel -> Pixel) (image new_image : Image)
    (R C : Z) (body : Z -> Z -> Image -> result Image) :
  0 <= R -> 0 <= C ->
  grid_dims image R C -> grid_dims new_image R C ->
  (forall row col p g, cell image row col = Some p ->
     body row col g = set2 g row col (f p)) ->
  exists out,
    for_up 0 R (fun row g => for_up 0 C (fun col g => body row col g) g)
      new_image = Ok out /\
    grid_dims out R C /\
    forall row col p, cell image row col = Some p ->
      cell out row col = Some (f p).
Proof.
  intros HR HC Hd Hd0 Hbody.
  destruct (fill_loops (fun g : Image => g) (fun _ => True) R C R C
              (fun row _ => row) (fun _ col => col)
              (fun row col => match cell image row col with
                              | Some p => f p
                              | None => zero_pixel
                              end)
              body) with (s0 := new_image) as (out & Hrun & _ & Hdo & Hcells).
  - intros row col g Hrow Hcol _ Hg.
    destruct (cell_in_range image R C row col Hd Hrow Hcol) as [p Hp].
    exists (grid_upd g row col (f p)). rewrite Hp. split; [| split; [exact I | reflexivity]].
    rewrite (Hbody _ _ _ _ Hp). eapply set2_in_range; eauto.
  - intros; lia.
  - intros; lia.
  - exact HR.
  - exact HC.
  - exact I.
  - exact Hd0.
  - exists out. split; [exact Hrun |]. split; [exact Hdo |].
    intros row col p Hp.
    destruct (cell_Some_range _ _ _ _ _ _ Hd Hp) as [Hrow Hcol].
    rewrite (Hcells row col Hrow Hcol), Hp. reflexivity.
Qed.

Lemma process_3_pointwise (image : Image) (R C : Z) :
  rect_image image R C ->
  exists out, process_3 image = Ok out /\ grid_dims out R C /\
    forall row col p, cell image row col = Some p ->
      cell out row col = Some (gray_pixel p).
Proof.
  intros Hrect. unfold process_3.
  rewrite (size_image_rect _ _ _ Hrect). destruct Hrect as (Hd & HR & HC).
  simpl. rewrite (vector_n_nonneg C) by lia. simpl.
  rewrite (vector_n_nonneg R) by lia. simpl.
  apply pointwise_loops with (f := gray_pixel);
    [lia | lia | exact Hd | apply replicate_grid_dims; lia |].
  intros row col p g Hp. rewrite (at2_cell _ _ _ _ Hp). reflexivity.
Qed.

Lemma process_10_pointwise (image : Image) (R C : Z) :
  rect_image image R C ->
  exists out, process_10 image = Ok out /\ grid_dims out R C /\
    forall row col p, cell image row col = Some p ->
      cell out row col = Some (threshold_pixel p).
Proof.
  intros Hrect. unfold process_10.
  rewrite (size_image_rect _ _ _ Hrect). destruct Hrect as (Hd & HR & HC).
  simpl. rewrite (vector_n_nonneg C) by lia. simpl.
  rewrite (vector_n_nonneg R) by lia. simpl.
  apply pointwise_loops with (f := threshold_pixel);
    [lia | lia | exact Hd | apply replicate_grid_dims; lia |].
  intros row col p g Hp. rewrite (at2_cell _ _ _ _ Hp).
  unfold threshold_pixel. simpl.
  repeat match goal with |- context [if ?b then _ else _] => destruct b end;
    reflexivity.
Qed.

(** ** Rotation *)

Lemma quarter_turn_unique (src o1 o2 : Image) (R C : Z) :
  quarter_turn src o1 R C -> quarter_turn src o2 R C -> o1 = o2.
Proof.
  intros [D1 H1] [D2 H2]. apply (grid_ext o1 o2 C R D1 D2).
  intros i j Hi Hj.
  specialize (H1 j (C - 1 - i)). specialize (H2 j (C - 1 - i)).
  replace (C - 1 - (C - 1 - i)) with i in H1, H2 by lia.
  rewrite H1, H2 by lia. reflexivity.
Qed.

Lemma quarter_turn_rect (src out : Image) (R C : Z) :
  rect_image src R C -> quarter_turn src out R C -> rect_image out C R.
Proof. intros (_ & HR & HC) [Hd _]. repeat split; try apply Hd; lia. Qed.

(** The first pair of loops of [rotate_90]. *)
Lemma first_turn_loops (src dst : Image) (R C : Z) :
  rect_image src R C -> grid_dims dst C R ->
  exists out,
    for_up 0 R (fun row new_image =>
      for_up 0 C (fun col new_image =>
        p ← at2 src row col;
        set2 new_image (int_sub (int_sub C 1) col) row p)
      new_image)
    dst = Ok out /\
    quarter_turn src out R C.
Proof.
  intros (Hd & HR & HC) Hdst.
  destruct (fill_loops (fun g : Image => g) (fun _ => True) R C C R
              (fun _ col => int_sub (int_sub C 1) col) (fun row _ => row)
              (cell_or_zero src)
              (fun row col new_image =>
                 p ← at2 src row col;
                 set2 new_image (int_sub (int_sub C 1) col) row p))
    with (s0 := dst) as (out & Hrun & _ & Hdo & Hcells).
  - intros row col g Hrow Hcol _ Hg.
    destruct (cell_in_range src R C row col Hd Hrow Hcol) as [p Hp].
    exists (grid_upd g (int_sub (int_sub C 1) col) row p).
    unfold cell_or_zero. rewrite Hp, (at2_cell _ _ _ _ Hp). simpl.
    split; [| split; [exact I | reflexivity]].
    apply (set2_in_range g C R); [exact Hg | int_small; lia | lia].
  - intros row col Hrow Hcol. int_small. lia.
  - intros row col row' col' Hrow Hcol Hrow' Hcol'. int_small. lia.
  - lia.
  - lia.
  - exact I.
  - exact Hdst.
  - exists out. split; [exact Hrun |]. split; [exact Hdo |].
    intros row col Hrow Hcol.
    specialize (Hcells row col Hrow Hcol). revert Hcells. int_small.
    intros ->. unfold cell_or_zero.
    destruct (cell_in_range src R C row col Hd Hrow Hcol) as [p ->].
    reflexivity.
Qed.

(** One pass of the later loops of [rotate_90] for an even [i]: the
    mirror grid receives a turn of [new_image]. *)
Lemma even_turn_loops (i : Z) (ni nm : Image) (R C : Z) :
  Z.rem i 2 = 0 ->
  1 <= R <= Int.max_int -> 1 <= C <= Int.max_int ->
  grid_dims ni C R -> grid_dims nm R C ->
  exists nm',
    for_up 0 R (fun row st =>
      for_up 0 C (fun col st =>
        let '(new_image, new_image_mirror) := st in
        if Z.rem i 2 =? 0 then
          p ← at2 new_image col row;
          new_image_mirror ←
            set2 new_image_mirror (int_sub (int_sub R 1) row) col p;
          Ok (new_image, new_image_mirror)
        else
          p ← at2 new_image_mirror row col;
          new_image ←
            set2 new_image (int_sub (int_sub C 1) col) row p;
          Ok (new_image, new_image_mirror))
      st)
    (ni, nm) = Ok (ni, nm') /\
    quarter_turn ni nm' C R.
Proof.
  intros Hi HR HC Hni Hnm.
  destruct (fill_loops (fun st : Image * Image => snd st)
              (fun st => fst st = ni) R C R C
              (fun row _ => int_sub (int_sub R 1) row) (fun _ col => col)
              (fun row col => cell_or_zero ni col row)
              (fun row col (st : Image * Image) =>
                 let '(new_image, new_image_mirror) := st in
                 if Z.rem i 2 =? 0 then
                   p ← at2 new_image col row;
                   new_image_mirror ←
                     set2 new_image_mirror (int_sub (int_sub R 1) row) col p;
                   Ok (new_image, new_image_mirror)
                 else
                   p ← at2 new_image_mirror row col;
                   new_image ←
                     set2 new_image (int_sub (int_sub C 1) col) row p;
                   Ok (new_image, new_image_mirror)))
    with (s0 := (ni, nm)) as ([ni' nm'] & Hrun & Hfst & Hdo & Hcells).
  - intros row col [a b] Hrow Hcol Hfr Hg. simpl in Hfr, Hg. subst a.
    rewrite Hi. simpl.
    destruct (cell_in_range ni C R col row Hni Hcol Hrow) as [p Hp].
    exists (ni, grid_upd b (int_sub (int_sub R 1) row) col p).
    unfold cell_or_zero. rewrite Hp, (at2_cell _ _ _ _ Hp). simpl.
    rewrite (set2_in_range b R C); [| exact Hg | int_small; lia | lia].
    simpl. auto.
  - intros row col Hrow Hcol. int_small. lia.
  - intros row col row' col' Hrow Hcol Hrow' Hcol'. int_small. lia.
  - lia.
  - lia.
  - reflexivity.
  - exact Hnm.
  - simpl in Hfst, Hdo, Hcells. subst ni'. exists nm'.
    split; [exact Hrun |]. split; [exact Hdo |].
    intros row col Hrow Hcol.
    specialize (Hcells col row Hcol Hrow). revert Hcells. int_small.
    intros ->. unfold cell_or_zero.
    destruct (cell_in_range ni C R row col Hni Hrow Hcol) as [p ->].
    reflexivity.
Qed.

(** One pass for an odd [i]: [new_image] receives a turn of the mirror
    grid. *)
Lemma odd_turn_loops (i : Z) (ni nm : Image) (R C : Z) :
  Z.rem i 2 <> 0 ->
  1 <= R <= Int.max_int -> 1 <= C <= Int.max_int ->
  grid_dims ni C R -> grid_dims nm R C ->
  exists ni',
    for_up 0 R (fun row st =>
      for_up 0 C (fun col st =>
        let '(new_image, new_image_mirror) := st in
        if Z.rem i 2 =? 0 then
          p ← at2 new_image col row;
          new_image_mirror ←
            set2 new_image_mirror (int_sub (int_sub R 1) row) col p;
          Ok (new_image, new_image_mirror)
        else
          p ← at2 new_image_mirror row col;
          new_image ←
            set2 new_image (int_sub (int_sub C 1) col) row p;
          Ok (new_image, new_image_mirror))
      st)
    (ni, nm) = Ok (ni', nm) /\
    quarter_turn nm ni' R C.
Proof.
  intros Hi HR HC Hni Hnm.
  destruct (fill_loops (fun st : Image * Image => fst st)
              (fun st => snd st = nm) R C C R
              (fun _ col => int_sub (int_sub C 1) col) (fun row _ => row)
              (fun row col => cell_or_zero nm row col)
              (fun row col (st : Image * Image) =>
                 let '(new_image, new_image_mirror) := st in
                 if Z.rem i 2 =? 0 then
                   p ← at2 new_image col row;
                   new_image_mirror ←
                     set2 new_image_mirror (int_sub (int_sub R 1) row) col p;
                   Ok (new_image, new_image_mirror)
                 else
                   p ← at2 new_image_mirror row col;
                   new_image ←
                     set2 new_image (int_sub (int_sub C 1) col) row p;
                   Ok (new_image, new_image_mirror)))
    with (s0 := (ni, nm)) as ([ni' nm'] & Hrun & Hsnd & Hdo & Hcells).
  - intros row col [a b] Hrow Hcol Hfr Hg. simpl in Hfr, Hg. subst b.
    destruct (Z.eqb_spec (Z.rem i 2) 0) as [E | _]; [contradiction |].
    destruct (cell_in_range nm R C row col Hnm Hrow Hcol) as [p Hp].
    exists (grid_upd a (int_sub (int_sub C 1) col) row p, nm).
    unfold cell_or_zero. rewrite Hp, (at2_cell _ _ _ _ Hp). simpl.
    rewrite (set2_in_range a C R); [| exact Hg | int_small; lia | lia].
    simpl. auto.
  - intros row col Hrow Hcol. int_small. lia.
  - intros row col row' col' Hrow Hcol Hrow' Hcol'. int_small. lia.
  - lia.
  - lia.
  - reflexivity.
  - exact Hni.
  - simpl in Hsnd, Hdo, Hcells. subst nm'. exists ni'.
    split; [exact Hrun |]. split; [exact Hdo |].
    intros row col Hrow Hcol.
    specialize (Hcells row col Hrow Hcol). revert Hcells. int_small.
    intros ->. unfold cell_or_zero.
    destruct (cell_in_range nm R C row col Hnm Hrow Hcol) as [p ->].
    reflexivity.
Qed.

Ltac run_with H := rewrite H; cbn [mbind result_bind].

Lemma rotate_90_rem (image : Image) (N : Z) :
  rotate_90 image N = rotate_90 image (Z.rem N 4).
Proof. unfold rotate_90. rewrite Z.rem_rem by lia. reflexivity. Qed.

(** What [rotate_90] returns for one, two and three rotations: one, two
    and three quarter turns. *)
Lemma rotate_90_turns (image : Image) (R C : Z) :
  rect_image image R C ->
  exists o1 o2 o3,
    quarter_turn image o1 R C /\ quarter_turn o1 o2 C R /\
    quarter_turn o2 o3 R C /\
    rotate_90 image 1 = Ok o1 /\ rotate_90 image 2 = Ok o2 /\
    rotate_90 image 3 = Ok o3.
Proof.
  intros Hrect. pose proof Hrect as (Hd & HR & HC).
  destruct (first_turn_loops image
              (replicate (Z.to_nat C) (replicate (Z.to_nat R) zero_pixel))
              R C Hrect) as (o1 & Hrun1 & T1).
  { apply replicate_grid_dims; lia. }
  destruct (even_turn_loops 2 o1
              (replicate (Z.to_nat R) (replicate (Z.to_nat C) zero_pixel))
              R C) as (o2 & Hrun2 & T2);
    [reflexivity | lia | lia | apply T1 | apply replicate_grid_dims; lia |].
  destruct (odd_turn_loops 3 o1 o2 R C) as (o3 & Hrun3 & T3);
    [discriminate | lia | lia | apply T1 | apply T2 |].
  exists o1, o2, o3.
  assert (Hprefix : forall k, 1 <= k <= 3 -> rotate_90 image k =
     '(new_image, new_image_mirror) ←
      for_up 2 (k + 1) (fun i st =>
        for_up 0 R (fun row st =>
          for_up 0 C (fun col st =>
            let '(new_image, new_image_mirror) := st in
            if Z.rem i 2 =? 0 then
              p ← at2 new_image col row;
              new_image_mirror ←
                set2 new_image_mirror (int_sub (int_sub R 1) row) col p;
              Ok (new_image, new_image_mirror)
            else
              p ← at2 new_image_mirror row col;
              new_image ←
                set2 new_image (int_sub (int_sub C 1) col) row p;
              Ok (new_image, new_image_mirror))
          st)
        st)
      (o1, replicate (Z.to_nat R) (replicate (Z.to_nat C) zero_pixel));
    if Z.rem k 2 =? 0 then Ok new_image_mirror else Ok new_image).
  { intros k Hk. unfold rotate_90.
    rewrite (Z.rem_small k 4) by lia.
    destruct (Z.eqb_spec k 0); [lia |].
    run_with (size_image_rect _ _ _ Hrect).
    run_with (vector_n_nonneg R zero_pixel (ltac:(lia))).
    rewrite (vector_n_nonneg C (replicate (Z.to_nat R) zero_pixel)) by lia.
    cbn [mbind result_bind].
    run_with (vector_n_nonneg C zero_pixel (ltac:(lia))).
    rewrite (vector_n_nonneg R (replicate (Z.to_nat C) zero_pixel)) by lia.
    cbn [mbind result_bind].
    run_with Hrun1. reflexivity. }
  repeat split; try assumption; try apply T1; try apply T2; try apply T3.
  - rewrite Hprefix by lia. rewrite for_up_empty by lia. reflexivity.
  - rewrite Hprefix by lia. rewrite for_up_step by lia. cbv beta.
    run_with Hrun2. rewrite for_up_empty by lia. reflexivity.
  - rewrite Hprefix by lia. rewrite for_up_step by lia. cbv beta.
    run_with Hrun2. rewrite for_up_step by lia. cbv beta.
    change (2 + 1) with 3. run_with Hrun3.
    rewrite for_up_empty by lia. reflexivity.
Qed.

Lemma process_4_turn (image out : Image) (R C : Z) :
  rect_image image R C -> quarter_turn image out R C ->
  process_4 image = Ok out.
Proof.
  intros Hrect Hturn.
  destruct (rotate_90_turns image R C Hrect) as (o1 & _ & _ & T1 & _ & _ & H1 & _).
  unfold process_4. rewrite H1. f_equal.
  exact (quarter_turn_unique image o1 out R C T1 Hturn).
Qed.

(** Four quarter turns bring every pixel back. *)
Lemma four_turns (image o1 o2 o3 o4 : Image) (R C : Z) :
  grid_dims image R C ->
  quarter_turn image o1 R C -> quarter_turn o1 o2 C R ->
  quarter_turn o2 o3 R C -> quarter_turn o3 o4 C R ->
  o4 = image.
Proof.
  intros Hd [_ T1] [_ T2] [_ T3] [D4 T4].
  apply (grid_ext o4 image R C D4 Hd). intros i j Hi Hj.
  specialize (T4 j (R - 1 - i)). specialize (T3 (R - 1 - i) (C - 1 - j)).
  specialize (T2 (C - 1 - j) i). specialize (T1 i j).
  replace (R - 1 - (R - 1 - i)) with i in T4 by lia.
  replace (C - 1 - (C - 1 - j)) with j in T3 by lia.
  rewrite T4, T3, T2, T1 by lia. reflexivity.
Qed.

Lemma rotate_times_upto_4 (image : Image) (R C : Z) :
  rect_image image R C ->
  rotate_times 1 image = rotate_90 image 1 /\
  rotate_times 2 image = rotate_90 image 2 /\
  rotate_times 3 image = rotate_90 image 3 /\
  rotate_times 4 image = Ok image.
Proof.
  intros Hrect.
  destruct (rotate_90_turns image R C Hrect)
    as (o1 & o2 & o3 & T1 & T2 & T3 & H1 & H2 & H3).
  pose proof (quarter_turn_rect _ _ _ _ Hrect T1) as Hrect1.
  pose proof (quarter_turn_rect _ _ _ _ Hrect1 T2) as Hrect2.
  pose proof (quarter_turn_rect _ _ _ _ Hrect2 T3) as Hrect3.
  destruct (rotate_90_turns o3 C R Hrect3) as (o4 & _ & _ & T4 & _ & _ & H4 & _).
  assert (E1 : rotate_times 1 image = Ok o1) by exact H1.
  assert (E2 : rotate_times 2 image = Ok o2).
  { change (rotate_times 2 image) with (out ← rotate_times 1 image; process_4 out).
    run_with E1. exact (process_4_turn _ _ _ _ Hrect1 T2). }
  assert (E3 : rotate_times 3 image = Ok o3).
  { change (rotate_times 3 image) with (out ← rotate_times 2 image; process_4 out).
    run_with E2. exact (process_4_turn _ _ _ _ Hrect2 T3). }
  rewrite E1, E2, E3, H1, H2, H3. repeat split.
  change (rotate_times 4 image) with (out ← rotate_times 3 image; process_4 out).
  run_with E3. unfold process_4. rewrite H4. f_equal.
  destruct Hrect as (Hd & _).
  exact (four_turns image o1 o2 o3 o4 R C Hd T1 T2 T3 T4).
Qed.

Lemma rotate_times_rect (n : nat) (image : Image) (R C : Z) :
  rect_image image R C ->
  exists out R' C', rotate_times n image = Ok out /\ rect_image out R' C'.
Proof.
  intros Hrect. induction n as [| n (out & R' & C' & Hrun & Hout)].
  - exists image, R, C. split; [reflexivity | exact Hrect].
  - destruct (rotate_90_turns out R' C' Hout) as (o1 & _ & _ & T1 & _ & _ & H1 & _).
    exists o1, C', R'. split.
    + simpl. run_with Hrun. exact H1.
    + exact (quarter_turn_rect _ _ _ _ Hout T1).
Qed.

Lemma rotate_times_period (q r : nat) (image : Image) (R C : Z) :
  rect_image image R C ->
  rotate_times (4 * q + r) image = rotate_times r image.
Proof.
  intros Hrect. induction q as [| q IH].
  - reflexivity.
  - replace (4 * Datatypes.S q + r)%nat with (4 + (4 * q + r))%nat by lia.
    destruct (rotate_times_rect (4 * q + r) image R C Hrect)
      as (out & R' & C' & Hrun & Hout).
    rewrite <- IH, Hrun.
    change (rotate_times (4 + (4 * q + r)) image)
      with (o3 ← (o2 ← (o1 ← (o0 ← rotate_times (4 * q + r) image;
                                process_4 o0); process_4 o1); process_4 o2);
            process_4 o3).
    run_with Hrun.
    destruct (rotate_times_upto_4 out R' C' Hout) as (_ & _ & _ & E4).
    exact E4.
Qed.

(** ** The byte reader *)

Lemma wrap_decomp (x : Z) : exists k, Int.wrap x = x + k * 4294967296.
Proof.
  exists (- ((x + 2147483648) / 4294967296)). unfold Int.wrap.
  rewrite Z.mod_eq by lia. lia.
Qed.

Lemma wrap_shift (x k : Z) : Int.wrap (x + k * 4294967296) = Int.wrap x.
Proof.
  unfold Int.wrap.
  replace (x + k * 4294967296 + 2147483648)
    with (x + 2147483648 + k * 4294967296) by lia.
  rewrite Z.mod_add by lia. reflexivity.
Qed.

Lemma uchar_value_range (b : byte) : 0 <= uchar_value b <= 255.
Proof.
  unfold uchar_value. pose proof (Byte.to_N_bounded b). lia.
Qed.

Lemma open_in_reads (file : option (list byte)) (p : Z) :
  0 <= p ->
  reads (open_in file) (match file with Some d => d | None => [] end) p.
Proof.
  intros Hp. destruct file as [d |]; unfold reads; simpl.
  - repeat split; [lia | discriminate].
  - repeat split; [lia | intros _; lia].
Qed.

Lemma get_reads (s : istream) (data : list byte) (p : Z) :
  reads s data p -> (failbit s = false -> gpos s = p) -> 0 <= p ->
  fst (get s) = byte_or EOF data p /\
  reads (snd (get s)) data (p + 1) /\
  (failbit (snd (get s)) = false -> gpos (snd (get s)) = p + 1) /\
  forall q, In q (consumed (snd (get s))) -> In q (consumed s) \/ q = p.
Proof.
  intros (Hc & Hg & Hf) Hpos Hp. unfold get, byte_or.
  destruct (failbit s) eqn:Ef.
  - rewrite zlookup_None by (specialize (Hf eq_refl); lia). simpl.
    rewrite Ef. repeat split; try assumption; try discriminate.
    + intros Hx. pose proof (Hf eq_refl). lia.
    + auto.
  - specialize (Hpos eq_refl). rewrite Hpos, Hc. unfold zlookup.
    destruct (Z.ltb_spec p 0); [lia |].
    destruct (data !! Z.to_nat p) as [b |] eqn:Eb; simpl.
    + repeat split; simpl; try assumption; try lia; try discriminate.
      intros q [<- | Hq]; auto.
    + apply lookup_ge_None in Eb.
      repeat split; simpl; try assumption; try lia; try discriminate. auto.
Qed.

Lemma get_int_loop_value (data : list byte) (n : nat) :
  forall (result base p : Z) (s : istream),
    reads s data p -> (failbit s = false -> gpos s = p) -> 0 <= p ->
    Int.in_range result ->
    fst (get_int_loop n result base s)
    = Int.wrap (result + base * le_sum EOF data p n) /\
    reads (snd (get_int_loop n result base s)) data (p + Z.of_nat n) /\
    forall q, In q (consumed (snd (get_int_loop n result base s))) ->
      In q (consumed s) \/ p <= q < p + Z.of_nat n.
Proof.
  induction n as [| n IH]; intros result base p s Hreads Hpos Hp Hres.
  - simpl. rewrite Z.mul_0_r, Z.add_0_r, IntFacts.wrap_small by exact Hres.
    replace (p + Z.of_nat 0) with p by lia. auto.
  - destruct (get_reads s data p Hreads Hpos Hp) as (Hc & Hreads' & Hpos' & Hcons).
    simpl. destruct (get s) as [c s']. simpl in Hc, Hreads', Hpos', Hcons.
    destruct (IH (int_add result (int_mul c base)) (int_mul base 256) (p + 1) s'
                Hreads' Hpos' ltac:(lia) (IntFacts.wrap_in_range _))
      as (Hv & Hr & Hq).
    split; [| split].
    + rewrite Hv, Hc. unfold Int.add, Int.mul.
      destruct (wrap_decomp (byte_or EOF data p * base)) as [k2 ->].
      destruct (wrap_decomp (result + (byte_or EOF data p * base + k2 * 4294967296)))
        as [k1 ->].
      destruct (wrap_decomp (base * 256)) as [k3 ->].
      rewrite <- (wrap_shift
                    (result + base * (byte_or EOF data p
                                      + 256 * le_sum EOF data (p + 1) n))
                    (k1 + k2 + k3 * le_sum EOF data (p + 1) n)).
      f_equal. ring.
    + replace (p + Z.of_nat (Datatypes.S n)) with (p + 1 + Z.of_nat n) by lia.
      exact Hr.
    + intros q Hin. destruct (Hq q Hin) as [H | H]; [| lia].
      destruct (Hcons q H) as [H' | ->]; [auto | lia].
Qed.

(** What [get_int] returns, and the stream it leaves. *)
Lemma get_int_value (s : istream) (data : list byte) (p offset bytes : Z) :
  reads s data p -> p <= offset -> 0 <= offset ->
  fst (get_int s offset bytes)
  = Int.wrap (le_sum EOF data offset (Z.to_nat bytes)) /\
  reads (snd (get_int s offset bytes)) data (offset + Z.of_nat (Z.to_nat bytes)) /\
  forall q, In q (consumed (snd (get_int s offset bytes))) ->
    In q (consumed s) \/ offset <= q < offset + Z.of_nat (Z.to_nat bytes).
Proof.
  intros (Hc & Hg & Hf) Hle Hoff. unfold get_int.
  assert (Hseek : reads (seekg s offset) data offset /\
                  (failbit (seekg s offset) = false -> gpos (seekg s offset) = offset) /\
                  consumed (seekg s offset) = consumed s).
  { unfold seekg. destruct (failbit s) eqn:Ef.
    - repeat split; try assumption; try congruence.
      intros Hx. pose proof (Hf eq_refl). lia.
    - destruct (Z.ltb_spec offset 0); [lia |]. simpl.
      repeat split; try assumption; try discriminate. }
  destruct Hseek as (Hreads & Hpos & Hcons).
  destruct (get_int_loop_value data (Z.to_nat bytes) 0 1 offset (seekg s offset)
              Hreads Hpos Hoff) as (Hv & Hr & Hq).
  { unfold Int.in_range, Int.min_int, Int.max_int. lia. }
  split; [| split].
  - rewrite Hv. f_equal. lia.
  - exact Hr.
  - intros q Hin. rewrite <- Hcons. exact (Hq q Hin).
Qed.

(** ** The bitmap writer *)

#[local] Arguments to_uchar : simpl never.
#[local] Arguments Z.shiftr : simpl never.

Lemma bmp_header_run {A} (array_bytes : Z) (k : list byte -> result A) :
  (bmp_header ← set_bytes (replicate (Z.to_nat BMP_HEADER_SIZE) x00) 0 1 66;
   bmp_header ← set_bytes bmp_header 1 1 77;
   bmp_header ← set_bytes bmp_header 2 4
      (int_add (int_add BMP_HEADER_SIZE DIB_HEADER_SIZE) array_bytes);
   bmp_header ← set_bytes bmp_header 6 2 0;
   bmp_header ← set_bytes bmp_header 8 2 0;
   bmp_header ← set_bytes bmp_header 10 4
      (int_add BMP_HEADER_SIZE DIB_HEADER_SIZE);
   k bmp_header) = k (bmp_header_bytes array_bytes).
Proof. unfold set_bytes, for_up. simpl. reflexivity. Qed.

Lemma dib_header_run {A} (width_pixels height_pixels array_bytes : Z) (k : list byte -> result A) :
  (dib_header ← set_bytes (replicate (Z.to_nat DIB_HEADER_SIZE) x00) 0 4 DIB_HEADER_SIZE;
    dib_header ← set_bytes dib_header 4 4 width_pixels;
    dib_header ← set_bytes dib_header 8 4 height_pixels;
    dib_header ← set_bytes dib_header 12 2 1;
    dib_header ← set_bytes dib_header 14 2 24;
    dib_header ← set_bytes dib_header 16 4 0;
    dib_header ← set_bytes dib_header 20 4 array_bytes;
    dib_header ← set_bytes dib_header 24 4 2835;
    dib_header ← set_bytes dib_header 28 4 2835;
    dib_header ← set_bytes dib_header 32 4 0;
    dib_header ← set_bytes dib_header 36 4 0;
   k dib_header) = k (dib_header_bytes width_pixels height_pixels array_bytes).
Proof. unfold set_bytes, for_up. simpl. reflexivity. Qed.

Lemma padding_of_range (C : Z) : 0 <= C -> 0 <= padding_of C <= 3.
Proof.
  intros HC. unfold padding_of.
  pose proof (Z.rem_bound_pos (C * 3) 4 ltac:(lia) ltac:(lia)).
  pose proof (Z.rem_bound_pos (4 - Z.rem (C * 3) 4) 4 ltac:(lia) ltac:(lia)).
  lia.
Qed.

Lemma stream_write_all (out arr : list byte) (n : Z) :
  Z.of_nat (length arr) = n -> stream_write out arr n = Ok (out ++ arr).
Proof.
  intros H. unfold stream_write.
  destruct (Z.leb_spec 0 n); [| lia].
  destruct (Z.leb_spec n (Z.of_nat (length arr))); [| lia].
  simpl. rewrite take_ge by lia. reflexivity.
Qed.

Lemma zlookup_nat {A : Type} (v : list A) (i : Z) (x : A) :
  zlookup v i = Some x -> v !! Z.to_nat i = Some x.
Proof. unfold zlookup. destruct (i <? 0); [discriminate | auto]. Qed.

(** The pixel loops of [write_image] append the pixel array. *)
Lemma write_pixels_run (image : Image) (R C pad : Z) (out0 : list byte) :
  rect_image image R C -> 0 <= pad <= 3 ->
  exists pixel,
    for_down (int_sub R 1) (fun h st =>
      '(pixel, stream) ←
        for_up 0 C (fun w st =>
          let '(pixel, stream) := st in
          p ← at2 image h w;
          pixel ← vec_set pixel 0 (to_uchar (blue p));
          p ← at2 image h w;
          pixel ← vec_set pixel 1 (to_uchar (green p));
          p ← at2 image h w;
          pixel ← vec_set pixel 2 (to_uchar (red p));
          stream ← stream_write stream pixel 3;
          Ok (pixel, stream))
        st;
      stream ← stream_write stream (replicate 3 x00) pad;
      Ok (pixel, stream))
    (replicate 3 x00, out0)
    = Ok (pixel, out0 ++ pixel_array pad image).
Proof.
  intros (Hd & HR & HC) Hpad.
  set (done_rows := fun h : Z =>
         concat (map (row_bytes pad) (reverse (drop (Z.to_nat (h + 1)) image)))).
  match goal with |- exists pixel, for_down _ ?body ?s0 = _ =>
    destruct (for_down_inv
                (fun h (st : list byte * list byte) =>
                   length (fst st) = 3%nat /\ snd st = out0 ++ done_rows h)
                (int_sub R 1) body s0) as ([pixel out] & Hrun & Hlen & Hout)
  end.
  - int_small. lia.
  - split; [reflexivity |]. simpl. unfold done_rows. int_small.
    rewrite drop_ge by (destruct Hd; lia). rewrite app_nil_r. reflexivity.
  - intros h [pixel out] Hh [Hlen Hout]. simpl in Hlen, Hout.
    revert Hh. int_small. intros Hh.
    destruct (zlookup_in_range image h) as [row Hrow]; [destruct Hd; lia |].
    pose proof (grid_dims_row _ _ _ _ _ Hd Hrow) as Hrowlen.
    match goal with |- exists s', (?inner ≫= _) = _ /\ _ =>
      match inner with for_up _ _ ?ibody _ =>
        destruct (for_up_inv
                    (fun w (st : list byte * list byte) =>
                       length (fst st) = 3%nat /\
                       snd st = out ++ concat (map pixel_bytes
                                                 (take (Z.to_nat w) row)))
                    0 C ibody (pixel, out))
          as ([pixel' out'] & Hrun' & Hlen' & Hout')
      end
    end.
    + lia.
    + split; [exact Hlen |]. simpl. rewrite app_nil_r. reflexivity.
    + intros w [px st] Hw [Hl Hs]. simpl in Hl, Hs.
      destruct (zlookup_in_range row w) as [p Hp]; [lia |].
      assert (Hcell : cell image h w = Some p)
        by (unfold cell; rewrite Hrow; exact Hp).
      rewrite (at2_cell _ _ _ _ Hcell). cbn [mbind result_bind].
      destruct px as [| a [| b [| c [| d px]]]]; try discriminate Hl.
      cbn [mbind result_bind vec_set length Z.of_nat Z.leb Z.ltb andb
           Z.compare Pos.of_succ_nat Pos.succ Pos.compare Pos.compare_cont
           Z.to_nat Pos.to_nat Pos.iter_op Nat.add].
      simpl. exists ([to_uchar (blue p); to_uchar (green p); to_uchar (red p)],
              st ++ pixel_bytes p).
      split; [reflexivity |]. split; [reflexivity |]. simpl.
      replace (Z.to_nat (w + 1)) with (Datatypes.S (Z.to_nat w)) by lia.
      rewrite (take_S_r _ _ _ (zlookup_nat _ _ _ Hp)).
      rewrite map_app, concat_app, Hs. simpl.
      rewrite <- app_assoc. reflexivity.
    + run_with Hrun'. simpl in Hlen', Hout'.
      unfold stream_write.
      destruct (Z.leb_spec 0 pad); [| lia].
      destruct (Z.leb_spec pad (Z.of_nat (length (replicate 3 x00)))) as [_ | Hbad];
        [| simpl in Hbad; lia].
      cbn [andb mbind result_bind].
      exists (pixel', out' ++ take (Z.to_nat pad) (replicate 3 x00)).
      split; [reflexivity |]. split; [exact Hlen' |]. simpl fst. simpl snd.
      rewrite Hout', Hout. unfold done_rows.
      replace (Z.to_nat (h - 1 + 1)) with (Z.to_nat h) by lia.
      rewrite (drop_S image row (Z.to_nat h) (zlookup_nat _ _ _ Hrow)).
      replace (Datatypes.S (Z.to_nat h)) with (Z.to_nat (h + 1)) by lia.
      rewrite reverse_cons, map_app, concat_app. simpl.
      rewrite app_nil_r. unfold row_bytes at 3.
      rewrite (take_ge row) by lia.
      change [x00; x00; x00] with (replicate 3 x00).
      rewrite take_replicate. 
      replace (Z.to_nat pad `min` 3)%nat with (Z.to_nat pad) by lia.
      rewrite !app_assoc. reflexivity.
  - exists pixel. rewrite Hrun. simpl in Hout. rewrite Hout.
    unfold done_rows, pixel_array. replace (Z.to_nat (-1 + 1)) with 0%nat by lia.
    reflexivity.
Qed.

Lemma write_image_encoding (image : Image) (R C : Z) :
  rect_image image R C -> 54 + stride_of C * R <= Int.max_int ->
  write_image true image = Ok (true, encoding image R C).
Proof.
  intros Hrect Hsize. pose proof Hrect as (Hd & HR & HC).
  pose proof (padding_of_range C ltac:(lia)) as Hpad.
  assert (Hstride0 : C * 3 <= stride_of C) by (unfold stride_of; lia).
  assert (Hstride : stride_of C <= stride_of C * R) by nia.
  unfold write_image.
  destruct (zlookup_in_range image 0) as [row0 Hrow0]; [destruct Hd; lia |].
  rewrite (vec_at_zlookup _ _ _ Hrow0). cbn [mbind result_bind].
  pose proof (grid_dims_row _ _ _ _ _ Hd Hrow0) as Hlen.
  destruct Hd as [Hlen' Hrows].
  rewrite !IntFacts.of_size_small by lia. rewrite Hlen, Hlen'.
  cbn [negb].
  rewrite bmp_header_run, dib_header_run.
  rewrite (IntFacts.mul_small C 3) by int_range.
  rewrite (IntFacts.sub_small 4 (Z.rem (C * 3) 4))
    by (pose proof (Z.rem_bound_pos (C * 3) 4 ltac:(lia) ltac:(lia)); int_range).
  fold (padding_of C).
  rewrite (IntFacts.add_small (C * 3) (padding_of C)) by int_range.
  fold (stride_of C).
  rewrite (IntFacts.mul_small (stride_of C) R) by int_range.
  rewrite stream_write_all by reflexivity. cbn [mbind result_bind].
  rewrite stream_write_all by reflexivity. cbn [mbind result_bind].
  destruct (write_pixels_run image R C (padding_of C)
              (([] ++ bmp_header_bytes (stride_of C * R))
                  ++ dib_header_bytes C R (stride_of C * R)))
    as (pixel & Hrun); [exact Hrect | exact Hpad |].
  run_with Hrun. unfold encoding. rewrite app_nil_l, <- app_assoc.
  reflexivity.
Qed.

(** ** Bytes of the encoding *)

Lemma uchar_value_to_uchar (v : Z) : uchar_value (to_uchar v) = v mod 256.
Proof.
  unfold uchar_value, to_uchar.
  pose proof (Z.mod_pos_bound v 256 ltac:(lia)) as Hb.
  destruct (Byte.of_N (Z.to_N (v mod 256))) as [b |] eqn:E.
  - apply Byte.to_of_N in E. rewrite E. lia.
  - apply Byte.of_N_None_iff in E. lia.
Qed.

Lemma lookup_concat_uniform {A : Type} (ls : list (list A)) (n : nat) :
  Forall (fun l => length l = n) ls ->
  forall i j l, ls !! i = Some l -> (j < n)%nat ->
    concat ls !! (i * n + j)%nat = l !! j.
Proof.
  induction 1 as [| l0 ls Hl0 Hls IH]; intros i j l Hi Hj.
  - discriminate.
  - destruct i as [| i]; simpl in Hi.
    + injection Hi as <-. simpl. apply lookup_app_l. lia.
    + simpl concat. rewrite lookup_app_r by lia.
      replace (Datatypes.S i * n + j - length l0)%nat with (i * n + j)%nat by lia.
      exact (IH i j l Hi Hj).
Qed.

Lemma length_concat_uniform {A : Type} (ls : list (list A)) (n : nat) :
  Forall (fun l => length l = n) ls ->
  length (concat ls) = (length ls * n)%nat.
Proof.
  induction 1 as [| l0 ls Hl0 Hls IH]; simpl; [reflexivity |].
  rewrite length_app, IH, Hl0. reflexivity.
Qed.

Lemma pixel_bytes_concat_length (row : list Pixel) :
  length (concat (map pixel_bytes row)) = (length row * 3)%nat.
Proof.
  rewrite (length_concat_uniform _ 3%nat), length_map; [reflexivity |].
  change (map pixel_bytes row) with (pixel_bytes <$> row).
  apply Forall_fmap, Forall_true. intros p. reflexivity.
Qed.

Lemma row_bytes_length (pad : Z) (row : list Pixel) (C : Z) :
  Z.of_nat (length row) = C -> 0 <= pad ->
  Z.of_nat (length (row_bytes pad row)) = C * 3 + pad.
Proof.
  intros Hrow Hpad. unfold row_bytes.
  rewrite length_app, pixel_bytes_concat_length, length_replicate. lia.
Qed.

Lemma pixel_array_rows (image : Image) (R C : Z) :
  grid_dims image R C -> 0 <= C ->
  Forall (fun l => length l = Z.to_nat (stride_of C))
    (map (row_bytes (padding_of C)) (reverse image)).
Proof.
  intros [_ Hrows] HC.
  pose proof (padding_of_range C HC) as Hpad.
  change (map (row_bytes (padding_of C)) (reverse image))
    with (row_bytes (padding_of C) <$> reverse image).
  apply Forall_fmap, Forall_reverse.
  apply (Forall_impl _ _ _ Hrows). intros row Hlen. simpl.
  pose proof (row_bytes_length (padding_of C) row C Hlen ltac:(lia)).
  unfold stride_of. lia.
Qed.

Lemma pixel_array_length (image : Image) (R C : Z) :
  grid_dims image R C -> 0 <= C ->
  Z.of_nat (length (pixel_array (padding_of C) image)) = stride_of C * R.
Proof.
  intros Hd HC. unfold pixel_array.
  rewrite (length_concat_uniform _ _ (pixel_array_rows image R C Hd HC)).
  rewrite length_map, length_reverse.
  pose proof (padding_of_range C HC). destruct Hd as [<- _].
  rewrite Nat2Z.inj_mul, Z2Nat.id by (unfold stride_of; lia). lia.
Qed.

(** The byte of channel [k] of the pixel ([h], [w]) in the pixel array. *)
Lemma pixel_array_byte (image : Image) (R C h w k : Z) (p : Pixel) :
  grid_dims image R C ->
  cell image h w = Some p -> 0 <= k < 3 ->
  zlookup (pixel_array (padding_of C) image)
    ((R - 1 - h) * stride_of C + 3 * w + k)
  = zlookup (pixel_bytes p) k.
Proof.
  intros Hd Hp Hk.
  destruct (cell_Some_range _ _ _ _ _ _ Hd Hp) as [Hh Hw].
  pose proof (padding_of_range C ltac:(lia)) as Hpad.
  unfold cell in Hp. destruct (zlookup image h) as [row |] eqn:Hrow; [| discriminate].
  pose proof (grid_dims_row _ _ _ _ _ Hd Hrow) as Hrowlen.
  apply zlookup_nat in Hrow. pose proof (zlookup_nat _ _ _ Hp) as Hp'.
  assert (Hstride : 0 <= stride_of C) by (unfold stride_of; lia).
  assert (Hidx : 0 <= (R - 1 - h) * stride_of C) by nia.
  unfold zlookup.
  destruct (Z.ltb_spec ((R - 1 - h) * stride_of C + 3 * w + k) 0); [lia |].
  destruct (Z.ltb_spec k 0); [lia |].
  unfold pixel_array.
  replace (Z.to_nat ((R - 1 - h) * stride_of C + 3 * w + k))
    with (Z.to_nat (R - 1 - h) * Z.to_nat (stride_of C)
          + (Z.to_nat w * 3 + Z.to_nat k))%nat by nia.
  rewrite (lookup_concat_uniform _ _ (pixel_array_rows image R C Hd ltac:(lia))
             _ _ (row_bytes (padding_of C) row)).
  - unfold row_bytes. rewrite lookup_app_l
      by (rewrite pixel_bytes_concat_length; lia).
    apply (lookup_concat_uniform _ 3%nat).
    + change (map pixel_bytes row) with (pixel_bytes <$> row).
      apply Forall_fmap, Forall_true. intros q. reflexivity.
    + change (map pixel_bytes row) with (pixel_bytes <$> row).
      rewrite list_lookup_fmap, Hp'. reflexivity.
    + lia.
  - change (map (row_bytes (padding_of C)) (reverse image))
      with (row_bytes (padding_of C) <$> reverse image).
    rewrite list_lookup_fmap, reverse_lookup by (destruct Hd; lia).
    replace (length image - Datatypes.S (Z.to_nat (R - 1 - h)))%nat
      with (Z.to_nat h) by (destruct Hd; lia).
    rewrite Hrow. reflexivity.
  - unfold stride_of. lia.
Qed.

Lemma encoding_pixel_byte (image : Image) (R C h w k : Z) (p : Pixel) :
  grid_dims image R C ->
  cell image h w = Some p -> 0 <= k < 3 ->
  zlookup (encoding image R C) (54 + (R - 1 - h) * stride_of C + 3 * w + k)
  = zlookup (pixel_bytes p) k.
Proof.
  intros Hd Hp Hk.
  destruct (cell_Some_range _ _ _ _ _ _ Hd Hp) as [Hh Hw].
  pose proof (padding_of_range C ltac:(lia)) as Hpad.
  assert (Hstride : 0 <= stride_of C) by (unfold stride_of; lia).
  assert (Hidx : 0 <= (R - 1 - h) * stride_of C) by nia.
  rewrite <- (pixel_array_byte image R C h w k p Hd Hp Hk).
  unfold encoding, zlookup.
  destruct (Z.ltb_spec (54 + (R - 1 - h) * stride_of C + 3 * w + k) 0); [lia |].
  destruct (Z.ltb_spec ((R - 1 - h) * stride_of C + 3 * w + k) 0); [lia |].
  rewrite app_assoc, lookup_app_r by (rewrite length_app; simpl; lia).
  f_equal. rewrite length_app. simpl. lia.
Qed.

Lemma encoding_length (image : Image) (R C : Z) :
  grid_dims image R C -> 0 <= C ->
  Z.of_nat (length (encoding image R C)) = 54 + stride_of C * R.
Proof.
  intros Hd HC. unfold encoding. rewrite !length_app.
  pose proof (pixel_array_length image R C Hd HC). simpl length at 1 2. lia.
Qed.

Lemma le_byte_value (v i : Z) :
  0 <= i <= 3 -> uchar_value (le_byte v i) = (v / 2 ^ (i * 8)) mod 256.
Proof.
  intros Hi. unfold le_byte. rewrite uchar_value_to_uchar.
  rewrite (IntFacts.mul_small i 8) by int_range.
  rewrite Z.shiftr_div_pow2 by lia. reflexivity.
Qed.

Lemma le_bytes_4_value (v : Z) :
  0 <= v <= Int.max_int ->
  uchar_value (le_byte v 0) + 256 * (uchar_value (le_byte v 1) + 256 *
    (uchar_value (le_byte v 2) + 256 * (uchar_value (le_byte v 3) + 256 * 0)))
  = v.
Proof.
  intros Hv. rewrite !le_byte_value by lia.
  change (2 ^ (0 * 8)) with 1. change (2 ^ (1 * 8)) with 256.
  change (2 ^ (2 * 8)) with (256 * 256).
  change (2 ^ (3 * 8)) with (256 * 256 * 256).
  rewrite <- !Z.div_div, Z.div_1_r by lia.
  unfold Int.max_int in Hv.
  pose proof (Z.div_mod v 256 ltac:(lia)).
  pose proof (Z.div_mod (v / 256) 256 ltac:(lia)).
  pose proof (Z.div_mod (v / 256 / 256) 256 ltac:(lia)).
  pose proof (Z.div_mod (v / 256 / 256 / 256) 256 ltac:(lia)).
  pose proof (Z.mod_pos_bound v 256 ltac:(lia)).
  pose proof (Z.mod_pos_bound (v / 256) 256 ltac:(lia)).
  pose proof (Z.mod_pos_bound (v / 256 / 256) 256 ltac:(lia)).
  pose proof (Z.mod_pos_bound (v / 256 / 256 / 256) 256 ltac:(lia)).
  assert (v / 256 / 256 / 256 / 256 = 0)
    by (rewrite !Z.div_div by lia; apply Z.div_small; lia).
  lia.
Qed.

Lemma le_bytes_2_value (v : Z) :
  0 <= v < 65536 ->
  uchar_value (le_byte v 0) + 256 * (uchar_value (le_byte v 1) + 256 * 0) = v.
Proof.
  intros Hv. rewrite !le_byte_value by lia.
  change (2 ^ (0 * 8)) with 1. change (2 ^ (1 * 8)) with 256.
  rewrite Z.div_1_r.
  pose proof (Z.div_mod v 256 ltac:(lia)).
  pose proof (Z.div_mod (v / 256) 256 ltac:(lia)).
  pose proof (Z.mod_pos_bound v 256 ltac:(lia)).
  pose proof (Z.mod_pos_bound (v / 256) 256 ltac:(lia)).
  assert (v / 256 / 256 = 0)
    by (rewrite !Z.div_div by lia; apply Z.div_small; lia).
  lia.
Qed.

Lemma header_field_value (file : option (list byte)) (offset bytes : Z) :
  0 <= offset ->
  header_field file offset bytes
  = Int.wrap (le_sum EOF (file_bytes file) offset (Z.to_nat bytes)).
Proof.
  intros Hoff. unfold header_field.
  destruct (get_int_value (open_in file) (file_bytes file) 0 offset bytes
              (open_in_reads file 0 ltac:(lia)) Hoff Hoff) as (Hv & _).
  exact Hv.
Qed.

Lemma encoding_header (image : Image) (R C : Z) :
  rect_image image R C -> 54 + stride_of C * R <= Int.max_int ->
  header_field (Some (encoding image R C)) 2 4 = 54 + stride_of C * R /\
  header_field (Some (encoding image R C)) 10 4 = 54 /\
  header_field (Some (encoding image R C)) 18 4 = C /\
  header_field (Some (encoding image R C)) 22 4 = R /\
  header_field (Some (encoding image R C)) 28 2 = 24.
Proof.
  intros (Hd & HR & HC) Hsize.
  pose proof (padding_of_range C ltac:(lia)) as Hpad.
  assert (Hstride0 : C * 3 <= stride_of C) by (unfold stride_of; lia).
  assert (Hstride : stride_of C <= stride_of C * R) by nia.
  rewrite !header_field_value by lia.
  unfold file_bytes, encoding, bmp_header_bytes, dib_header_bytes, le_sum,
    byte_or, zlookup.
  simpl. change (int_add 14 40) with 54.
  rewrite (IntFacts.add_small 54 (stride_of C * R)) by int_range.
  rewrite !le_bytes_4_value by int_range.
  rewrite ?le_bytes_2_value by lia.
  rewrite !IntFacts.wrap_small by int_range. auto.
Qed.

(** ** The bitmap reader *)

Lemma header_chain (file : option (list byte)) :
  let r1 := get_int (open_in file) 2 4 in
  let r2 := get_int (snd r1) 10 4 in
  let r3 := get_int (snd r2) 18 4 in
  let r4 := get_int (snd r3) 22 4 in
  let r5 := get_int (snd r4) 28 2 in
  fst r1 = header_field file 2 4 /\ fst r2 = header_field file 10 4 /\
  fst r3 = header_field file 18 4 /\ fst r4 = header_field file 22 4 /\
  fst r5 = header_field file 28 2 /\
  reads (snd r5) (file_bytes file) 30 /\
  forall q, In q (consumed (snd r5)) -> header_offset q.
Proof.
  intros r1 r2 r3 r4 r5. rewrite !header_field_value by lia.
  pose proof (open_in_reads file 0 ltac:(lia)) as H0.
  fold (file_bytes file) in H0.
  destruct (get_int_value _ _ 0 2 4 H0 ltac:(lia) ltac:(lia)) as (V1 & H1 & Q1).
  fold r1 in V1, H1, Q1.
  destruct (get_int_value _ _ _ 10 4 H1 ltac:(simpl; lia) ltac:(lia)) as (V2 & H2 & Q2).
  fold r2 in V2, H2, Q2.
  destruct (get_int_value _ _ _ 18 4 H2 ltac:(simpl; lia) ltac:(lia)) as (V3 & H3 & Q3).
  fold r3 in V3, H3, Q3.
  destruct (get_int_value _ _ _ 22 4 H3 ltac:(simpl; lia) ltac:(lia)) as (V4 & H4 & Q4).
  fold r4 in V4, H4, Q4.
  destruct (get_int_value _ _ _ 28 2 H4 ltac:(simpl; lia) ltac:(lia)) as (V5 & H5 & Q5).
  fold r5 in V5, H5, Q5.
  split; [exact V1 |]. split; [exact V2 |]. split; [exact V3 |].
  split; [exact V4 |]. split; [exact V5 |]. split; [exact H5 |].
  intros q Hq. unfold header_offset.
  destruct (Q5 q Hq) as [Hq4 | ?]; [| simpl in *; lia].
  destruct (Q4 q Hq4) as [Hq3 | ?]; [| simpl in *; lia].
  destruct (Q3 q Hq3) as [Hq2 | ?]; [| simpl in *; lia].
  destruct (Q2 q Hq2) as [Hq1 | ?]; [| simpl in *; lia].
  destruct (Q1 q Hq1) as [Hq0 | ?]; [| simpl in *; lia].
  destruct file; simpl in Hq0; contradiction.
Qed.

Lemma header_field_in_range (file : option (list byte)) (offset bytes : Z) :
  0 <= offset -> Int.in_range (header_field file offset bytes).
Proof.
  intros H. rewrite header_field_value by exact H. apply IntFacts.wrap_in_range.
Qed.

Lemma grid_upd_twice {A : Type} (g : list (list A)) (i j : Z) (x y : A) :
  grid_upd (grid_upd g i j x) i j y = grid_upd g i j y.
Proof.
  unfold grid_upd. destruct (zlookup g i) as [row |] eqn:E.
  - pose proof (zlookup_Some_range _ _ _ E) as Hi.
    rewrite zlookup_insert_eq by lia.
    rewrite !list_insert_insert_eq. reflexivity.
  - rewrite E. reflexivity.
Qed.

(** One pass of the body of the pixel loop of [read_image]. *)
Lemma read_pixel_step (image : Image) (H W i j pos bits_per_pixel : Z)
    (stream : istream) :
  grid_dims image H W -> 0 <= i < H -> 0 <= j < W ->
  (let stream := seekg stream pos in
   let '(c, stream) := get stream in
   p ← at2 image i j;
   image ← set2 image i j (set_blue p c);
   let '(c, stream) := get stream in
   p ← at2 image i j;
   image ← set2 image i j (set_green p c);
   let '(c, stream) := get stream in
   p ← at2 image i j;
   image ← set2 image i j (set_red p c);
   let pos := int_add pos (Z.quot bits_per_pixel 8) in
   Ok (image, pos, stream))
  = let r1 := get (seekg stream pos) in
    let r2 := get (snd r1) in
    let r3 := get (snd r2) in
    Ok (grid_upd image i j (mkPixel (fst r3) (fst r2) (fst r1)),
        int_add pos (Z.quot bits_per_pixel 8), snd r3).
Proof.
  intros Hd Hi Hj. cbv zeta.
  destruct (get (seekg stream pos)) as [c1 s1]. cbn [fst snd].
  destruct (get s1) as [c2 s2]. cbn [fst snd].
  destruct (get s2) as [c3 s3]. cbn [fst snd].
  destruct (cell_in_range image H W i j Hd Hi Hj) as [p Hp].
  rewrite (at2_cell _ _ _ _ Hp). cbn [mbind result_bind].
  rewrite (set2_in_range image H W) by assumption. cbn [mbind result_bind].
  pose proof (grid_upd_dims image H W i j (set_blue p c1) Hd) as Hd1.
  rewrite (at2_cell _ _ _ _ (cell_grid_upd_eq image H W i j _ Hd Hi Hj)).
  cbn [mbind result_bind].
  rewrite (set2_in_range _ H W) by assumption. cbn [mbind result_bind].
  rewrite grid_upd_twice.
  pose proof (grid_upd_dims image H W i j (set_green (set_blue p c1) c2) Hd) as Hd2.
  rewrite (at2_cell _ _ _ _ (cell_grid_upd_eq image H W i j _ Hd Hi Hj)).
  cbn [mbind result_bind].
  rewrite (set2_in_range _ H W) by assumption. cbn [mbind result_bind].
  rewrite grid_upd_twice. reflexivity.
Qed.

(** The pixel loops of [read_image] run to the end and keep the
    dimensions of the image, whatever the file holds. *)
Lemma read_pixels_dims (image0 : Image) (H W pos0 bits_per_pixel padding : Z)
    (stream0 : istream) :
  0 <= H <= Int.max_int -> 0 <= W -> grid_dims image0 H W ->
  exists image pos stream,
    for_down (int_sub H 1) (fun i st =>
      '(image, pos, stream) ←
        for_up 0 W (fun j st =>
          let '(image, pos, stream) := st in
          let stream := seekg stream pos in
          let '(c, stream) := get stream in
          p ← at2 image i j;
          image ← set2 image i j (set_blue p c);
          let '(c, stream) := get stream in
          p ← at2 image i j;
          image ← set2 image i j (set_green p c);
          let '(c, stream) := get stream in
          p ← at2 image i j;
          image ← set2 image i j (set_red p c);
          let pos := int_add pos (Z.quot bits_per_pixel 8) in
          Ok (image, pos, stream))
        st;
      let stream := seekg_cur stream padding in
      let pos := int_add pos padding in
      Ok (image, pos, stream))
    (image0, pos0, stream0) = Ok (image, pos, stream) /\
    grid_dims image H W.
Proof.
  intros HH HW Hd0.
  match goal with |- exists image pos stream, for_down _ ?body ?s0 = _ /\ _ =>
    destruct (for_down_inv
                (fun (_ : Z) (st : Image * Z * istream) =>
                   grid_dims (fst (fst st)) H W)
                (int_sub H 1) body s0) as ([[image pos] stream] & Hrun & Hd)
  end.
  - int_small. lia.
  - exact Hd0.
  - intros i [[image pos] stream] Hi Hd. simpl in Hd.
    revert Hi. int_small. intros Hi.
    match goal with |- exists s', (?inner ≫= _) = _ /\ _ =>
      match inner with for_up _ _ ?ibody _ =>
        destruct (for_up_inv
                    (fun (_ : Z) (st : Image * Z * istream) =>
                       grid_dims (fst (fst st)) H W)
                    0 W ibody (image, pos, stream))
          as ([[image' pos'] stream'] & Hrun' & Hd')
      end
    end.
    + exact HW.
    + exact Hd.
    + intros j [[img ps] st] Hj Hdj. simpl in Hdj.
      rewrite (read_pixel_step img H W i j ps bits_per_pixel st Hdj) by lia.
      cbv zeta. eexists. split; [reflexivity |]. simpl.
      apply grid_upd_dims, Hdj.
    + run_with Hrun'. eexists. split; [reflexivity |]. exact Hd'.
  - exists image, pos, stream. split; [exact Hrun | exact Hd].
Qed.

(** For a row width that is not negative the stride is the width rounded
    up to the next multiple of four. *)
Lemma row_stride_rounds_up (width bits_per_pixel : Z) :
  0 <= width * Z.quot bits_per_pixel 8 <= Int.max_int - 3 ->
  row_stride width bits_per_pixel
  = 4 * ((width * Z.quot bits_per_pixel 8 + 3) / 4).
Proof.
  intros Hw. unfold row_stride.
  rewrite (IntFacts.mul_small width) by int_range.
  generalize dependent (width * Z.quot bits_per_pixel 8). intros n Hw.
  pose proof (Z.rem_bound_pos n 4 ltac:(lia) ltac:(lia)) as Hr.
  rewrite Z.rem_mod_nonneg in * by lia.
  destruct (Z.eqb_spec (n mod 4) 0) as [E | E]; simpl.
  - rewrite IntFacts.add_small by int_range.
    Z.to_euclidean_division_equations. lia.
  - rewrite IntFacts.sub_small by int_range.
    rewrite IntFacts.add_small by int_range.
    Z.to_euclidean_division_equations. lia.
Qed.

(** When the row width is not negative and nothing overflows, the test of
    [read_image] is the equation
    [file_size = start + stride * height] over the integers, the stride
    being the row width rounded up to a multiple of four. *)
Lemma header_consistent_rounds_up (file : option (list byte)) :
  let file_size := header_field file 2 4 in
  let start := header_field file 10 4 in
  let width := header_field file 18 4 in
  let height := header_field file 22 4 in
  let bits_per_pixel := header_field file 28 2 in
  let stride := 4 * ((width * Z.quot bits_per_pixel 8 + 3) / 4) in
  0 <= width * Z.quot bits_per_pixel 8 <= Int.max_int - 3 ->
  Int.in_range (stride * height) ->
  Int.in_range (start + stride * height) ->
  header_consistent file = true <-> file_size = start + stride * height.
Proof.
  intros file_size start width height bits_per_pixel stride Hw Hmul Hadd.
  unfold header_consistent.
  fold file_size start width height bits_per_pixel.
  rewrite (row_stride_rounds_up width bits_per_pixel Hw). fold stride.
  rewrite (IntFacts.mul_small stride height) by exact Hmul.
  rewrite (IntFacts.add_small start (stride * height)) by exact Hadd.
  apply Z.eqb_eq.
Qed.

Ltac read_header file Hcontents Hconsumed :=
  let Hc := fresh "Hc" in
  pose proof (header_chain file) as Hc; cbv zeta in Hc;
  unfold read_image_from;
  destruct (get_int (open_in file) 2 4) as [?file_size ?s1]; cbn [fst snd] in Hc;
  destruct (get_int _ 10 4) as [?start ?s2]; cbn [fst snd] in Hc;
  destruct (get_int _ 18 4) as [?width ?s3]; cbn [fst snd] in Hc;
  destruct (get_int _ 22 4) as [?height ?s4]; cbn [fst snd] in Hc;
  destruct (get_int _ 28 2) as [?bits_per_pixel ?s5]; cbn [fst snd] in Hc;
  destruct Hc as (-> & -> & -> & -> & -> & Hcontents & Hconsumed).

Lemma le_sum_inside (missing : Z) (data : list byte) (n : nat) :
  forall p, 0 <= p -> p + Z.of_nat n <= Z.of_nat (length data) ->
    le_sum missing data p n = le_sum 0 data p n.
Proof.
  induction n as [| n IH]; intros p Hp Hn; [reflexivity |].
  simpl. rewrite IH by lia. f_equal. unfold byte_or.
  destruct (zlookup_in_range data p ltac:(lia)) as [b ->]. reflexivity.
Qed.

Lemma byte_or_zero_range (data : list byte) (p : Z) :
  0 <= byte_or 0 data p <= 255.
Proof.
  unfold byte_or. destruct (zlookup data p) as [b |]; [| lia].
  apply uchar_value_range.
Qed.

Lemma le_sum_zero_range (data : list byte) (n : nat) :
  forall p, 0 <= le_sum 0 data p n < 256 ^ Z.of_nat n.
Proof.
  induction n as [| n IH]; intros p; [simpl; lia |].
  replace (Z.of_nat (Datatypes.S n)) with (Z.of_nat n + 1) by lia.
  rewrite Z.pow_add_r, Z.pow_1_r by lia. simpl le_sum.
  pose proof (byte_or_zero_range data p). specialize (IH (p + 1)). lia.
Qed.

(** ** Reading back what was written *)

Lemma seekg_good (s : istream) (data : list byte) (p q : Z) :
  good s data p -> 0 <= q -> good (seekg s q) data q.
Proof.
  intros (Hc & Hf & _) Hq. unfold seekg. rewrite Hf.
  destruct (Z.ltb_spec q 0); [lia |]. repeat split; assumption.
Qed.

Lemma seekg_cur_good (s : istream) (data : list byte) (q off : Z) :
  good s data q -> 0 <= q + off -> good (seekg_cur s off) data (q + off).
Proof.
  intros (Hc & Hf & Hg) Hq. unfold seekg_cur. rewrite Hf, Hg.
  destruct (Z.ltb_spec (q + off) 0); [lia |]. repeat split; assumption.
Qed.

Lemma get_good (s : istream) (data : list byte) (q : Z) (b : byte) :
  good s data q -> zlookup data q = Some b ->
  fst (get s) = uchar_value b /\ good (snd (get s)) data (q + 1).
Proof.
  intros (Hc & Hf & Hg) Hb. unfold get. rewrite Hf, Hc, Hg.
  rewrite (zlookup_nat _ _ _ Hb). simpl. repeat split.
Qed.

Lemma byte_channel_to_uchar (v : Z) :
  byte_channel v -> uchar_value (to_uchar v) = v.
Proof.
  unfold byte_channel. intros Hv. rewrite uchar_value_to_uchar.
  apply Z.mod_small. lia.
Qed.

(** The padding [read_image] computes for a row of [C] pixels of three
    bytes is the padding [write_image] wrote. *)
Lemma read_padding (C : Z) :
  0 <= C * 3 <= Int.max_int ->
  (if negb (Z.rem (int_mul C (Z.quot 24 8)) 4 =? 0)
   then int_sub 4 (Z.rem (int_mul C (Z.quot 24 8)) 4)
   else 0) = padding_of C.
Proof.
  intros HC. change (Z.quot 24 8) with 3.
  rewrite IntFacts.mul_small by int_range. unfold padding_of.
  pose proof (Z.rem_bound_pos (C * 3) 4 ltac:(lia) ltac:(lia)) as Hr.
  destruct (Z.eqb_spec (Z.rem (C * 3) 4) 0) as [E | E]; simpl.
  - rewrite E. reflexivity.
  - rewrite IntFacts.sub_small by int_range.
    symmetry. apply Z.rem_small. lia.
Qed.

(** On the file [write_image] wrote, the pixel loops of [read_image]
    rebuild the image. *)
Lemma read_pixels_exact (image image0 : Image) (R C : Z) (stream0 : istream) :
  rect_image image R C -> byte_image image ->
  54 + stride_of C * R <= Int.max_int ->
  grid_dims image0 R C ->
  contents stream0 = encoding image R C -> failbit stream0 = false ->
  exists pos stream,
    for_down (int_sub R 1) (fun i st =>
      '(image, pos, stream) ←
        for_up 0 C (fun j st =>
          let '(image, pos, stream) := st in
          let stream := seekg stream pos in
          let '(c, stream) := get stream in
          p ← at2 image i j;
          image ← set2 image i j (set_blue p c);
          let '(c, stream) := get stream in
          p ← at2 image i j;
          image ← set2 image i j (set_green p c);
          let '(c, stream) := get stream in
          p ← at2 image i j;
          image ← set2 image i j (set_red p c);
          let pos := int_add pos (Z.quot 24 8) in
          Ok (image, pos, stream))
        st;
      let stream := seekg_cur stream (padding_of C) in
      let pos := int_add pos (padding_of C) in
      Ok (image, pos, stream))
    (image0, 54, stream0) = Ok (image, pos, stream).
Proof.
  intros Hrect Hbytes Hsize Hd0 Hdata0 Hfail0.
  pose proof Hrect as (Hd & HR & HC).
  pose proof (padding_of_range C ltac:(lia)) as Hpad.
  assert (Hstride0 : stride_of C = C * 3 + padding_of C) by reflexivity.
  set (data := encoding image R C) in *.
  set (Inv := fun (i j : Z) (st : Image * Z * istream) =>
         grid_dims (fst (fst st)) R C /\
         snd (fst st) = 54 + (R - 1 - i) * stride_of C + 3 * j /\
         contents (snd st) = data /\ failbit (snd st) = false /\
         (0 < j -> gpos (snd st) = snd (fst st)) /\
         forall r c, 0 <= r < R -> 0 <= c < C ->
           i < r \/ (r = i /\ c < j) ->
           cell (fst (fst st)) r c = cell image r c).
  match goal with |- exists pos stream, for_down _ ?body ?s0 = _ =>
    destruct (for_down_inv (fun i st => Inv i 0 st) (int_sub R 1) body s0)
      as ([[img pos] stream] & Hrun & Hdi & _ & _ & _ & _ & Hcells)
  end.
  - int_small. lia.
  - unfold Inv. simpl. int_small. repeat split;
      try apply Hd0; try assumption; try lia.
  - intros i [[img pos] stream] Hi HInv. revert Hi. int_small. intros Hi.
    match goal with |- exists s', (?inner ≫= _) = _ /\ _ =>
      match inner with for_up _ _ ?ibody _ =>
        destruct (for_up_inv (fun j st => Inv i j st) 0 C ibody (img, pos, stream))
          as ([[img' pos'] stream'] & Hrun' & HInv')
      end
    end.
    + lia.
    + exact HInv.
    + intros j [[im ps] st] Hj (Hdj & Hps & Hcj & Hfj & _ & Hcellsj).
      simpl in Hdj, Hps, Hcj, Hfj, Hcellsj.
      rewrite (read_pixel_step im R C i j ps 24 st Hdj) by lia. cbv zeta.
      destruct (cell_in_range image R C i j Hd ltac:(lia) ltac:(lia)) as [p Hp].
      destruct (byte_image_cell image i j p Hbytes Hp) as (Hpr & Hpg & Hpb).
      assert (Hps0 : 0 <= ps) by nia.
      assert (Hg0 : good (seekg st ps) data ps)
        by (apply (seekg_good st data (gpos st)); [repeat split; assumption | lia]).
      pose proof (encoding_pixel_byte image R C i j 0 p Hd Hp ltac:(lia)) as B0.
      pose proof (encoding_pixel_byte image R C i j 1 p Hd Hp ltac:(lia)) as B1.
      pose proof (encoding_pixel_byte image R C i j 2 p Hd Hp ltac:(lia)) as B2.
      fold data in B0, B1, B2. rewrite <- Hps in B0, B1, B2.
      rewrite Z.add_0_r in B0.
      change (zlookup (pixel_bytes p) 0) with (Some (to_uchar (blue p))) in B0.
      change (zlookup (pixel_bytes p) 1) with (Some (to_uchar (green p))) in B1.
      change (zlookup (pixel_bytes p) 2) with (Some (to_uchar (red p))) in B2.
      destruct (get_good _ _ _ _ Hg0 B0) as (V1 & Hg1).
      destruct (get_good _ _ _ _ Hg1 B1) as (V2 & Hg2).
      replace (ps + 1 + 1) with (ps + 2) in Hg2 by lia.
      destruct (get_good _ _ _ _ Hg2 B2) as (V3 & Hg3).
      rewrite V1, V2, V3, !byte_channel_to_uchar by assumption.
      replace (mkPixel (red p) (green p) (blue p)) with p by (destruct p; reflexivity).
      change (Z.quot 24 8) with 3.
      assert (Hps3 : ps + 3 <= 54 + stride_of C * R) by nia.
      rewrite IntFacts.add_small by int_range.
      eexists. split; [reflexivity |].
      unfold Inv. cbn [fst snd]. destruct Hg3 as (Hc3 & Hf3 & Hp3).
      split; [apply grid_upd_dims, Hdj |]. split; [lia |].
      split; [exact Hc3 |]. split; [exact Hf3 |]. split; [intros _; lia |].
      intros r c Hr Hc Hdone.
      destruct (Z.eq_dec r i) as [-> | Hri].
      * destruct (Z.eq_dec c j) as [-> | Hcj'].
        -- rewrite Hp. eapply cell_grid_upd_eq; eauto; lia.
        -- rewrite cell_grid_upd_ne; [apply Hcellsj; lia | lia | congruence].
      * rewrite cell_grid_upd_ne; [apply Hcellsj; lia | lia | congruence].
    + run_with Hrun'. cbv zeta.
      destruct HInv' as (Hd' & Hp' & Hc' & Hf' & Hg' & Hcells').
      cbn [fst snd] in Hd', Hp', Hc', Hf', Hg', Hcells'.
      specialize (Hg' ltac:(lia)).
      assert (Hpos' : 0 <= pos') by nia.
      assert (Hend : pos' + padding_of C <= 54 + stride_of C * R) by nia.
      destruct (seekg_cur_good stream' data pos' (padding_of C))
        as (Hc2 & Hf2 & _); [repeat split; assumption | lia |].
      rewrite IntFacts.add_small by int_range.
      eexists. split; [reflexivity |].
      unfold Inv. cbn [fst snd].
      split; [exact Hd' |]. split; [lia |].
      split; [exact Hc2 |]. split; [exact Hf2 |]. split; [lia |].
      intros r c Hr Hc Hdone. apply Hcells'; lia.
  - exists pos, stream. rewrite Hrun. repeat f_equal.
    simpl in Hdi, Hcells. apply (grid_ext img image R C Hdi Hd).
    intros r c Hr Hc. apply Hcells; lia.
Qed.

(** ** Compositions of rotations *)

Lemma result_bind_assoc {A B D : Type} (c : result A) (f : A -> result B)
    (g : B -> result D) :
  (b ← (a ← c; f a); g b) = (a ← c; b ← f a; g b).
Proof. destruct c; reflexivity. Qed.

Lemma rotate_times_add (a b : nat) (image : Image) :
  rotate_times (a + b) image = out ← rotate_times a image; rotate_times b out.
Proof.
  induction b as [| b IH].
  - rewrite Nat.add_0_r. simpl. destruct (rotate_times a image); reflexivity.
  - replace (a + Datatypes.S b)%nat with (Datatypes.S (a + b)) by lia.
    simpl. rewrite IH. apply result_bind_assoc.
Qed.

(** For a count that is not negative, [rotate_90] is as many applications
    of transform 4 as the count leaves modulo four. *)
Lemma rotate_90_times (image : Image) (R C N : Z) :
  rect_image image R C -> 0 <= N ->
  rotate_90 image N = rotate_times (Z.to_nat (N mod 4)) image.
Proof.
  intros Hrect HN.
  assert (Hmod : 0 <= N mod 4 < 4) by (apply Z.mod_pos_bound; lia).
  rewrite rotate_90_rem, Z.rem_mod_nonneg by lia.
  destruct (rotate_times_upto_4 image R C Hrect) as (E1 & E2 & E3 & _).
  assert (Hcases : N mod 4 = 0 \/ N mod 4 = 1 \/ N mod 4 = 2 \/ N mod 4 = 3)
    by lia.
  destruct Hcases as [-> | [-> | [-> | ->]]];
    [reflexivity | symmetry; exact E1 | symmetry; exact E2
    | symmetry; exact E3].
Qed.

(** ** Transforms that work pixel by pixel *)

Lemma process_7_pointwise (image : Image) (R C : Z) :
  rect_image image R C ->
  exists out, process_7 image = Ok out /\ grid_dims out R C /\
    forall row col p, cell image row col = Some p ->
      cell out row col = Some (contrast_pixel p).
Proof.
  intros Hrect. unfold process_7.
  rewrite (size_image_rect _ _ _ Hrect). destruct Hrect as (Hd & HR & HC).
  simpl. rewrite (vector_n_nonneg C) by lia. simpl.
  rewrite (vector_n_nonneg R) by lia. simpl.
  apply pointwise_loops with (f := contrast_pixel);
    [lia | lia | exact Hd | apply replicate_grid_dims; lia |].
  intros row col p g Hp. rewrite (at2_cell _ _ _ _ Hp).
  unfold contrast_pixel. simpl.
  match goal with |- context [if ?b then _ else _] => destruct b end;
    reflexivity.
Qed.

(** The test [sum / 3.0 >= 127.5] of [process_7], evaluated on every sum
    of three channels in -1..255. *)
Lemma contrast_test_threshold (sum : Z) :
  -3 <= sum <= 765 -> contrast_test sum = (383 <=? sum).
Proof.
  intros Hs.
  assert (Hall : forallb (fun k => Bool.eqb (contrast_test (Z.of_nat k - 3))
                                     (383 <=? Z.of_nat k - 3))
                   (seq 0 769) = true) by (vm_compute; reflexivity).
  rewrite forallb_forall in Hall.
  specialize (Hall (Z.to_nat (sum + 3))).
  replace (Z.of_nat (Z.to_nat (sum + 3)) - 3) with sum in Hall by lia.
  apply eqb_prop, Hall, in_seq. lia.
Qed.

Section Pixelwise.
Variables (T : Image -> result Image) (f : Pixel -> Pixel).
Hypothesis T_pixelwise : pixelwise T f.

Lemma pixelwise_rect (image out : Image) (R C : Z) :
  rect_image image R C -> T image = Ok out -> rect_image out R C.
Proof.
  intros Hrect Hout.
  destruct (T_pixelwise image R C Hrect) as (out' & Hrun & Hd & _).
  rewrite Hout in Hrun. injection Hrun as <-.
  destruct Hrect as (_ & HR & HC). split; [exact Hd | split; assumption].
Qed.

Lemma pixelwise_idempotent (image : Image) (R C : Z) :
  (forall p, f (f p) = f p) -> rect_image image R C ->
  exists out, T image = Ok out /\ T out = Ok out.
Proof.
  intros Hf Hrect.
  destruct (T_pixelwise image R C Hrect) as (out & Hrun & Hd & Hcells).
  pose proof (pixelwise_rect image out R C Hrect Hrun) as Hrect'.
  destruct (T_pixelwise out R C Hrect') as (out' & Hrun' & Hd' & Hcells').
  exists out. split; [exact Hrun |]. rewrite Hrun'. f_equal.
  apply (grid_ext out' out R C Hd' Hd). intros i j Hi Hj.
  destruct Hrect as (Hdi & _).
  destruct (cell_in_range image R C i j Hdi Hi Hj) as [p Hp].
  rewrite (Hcells' i j (f p) (Hcells i j p Hp)), Hf.
  symmetry. exact (Hcells i j p Hp).
Qed.

Lemma pixelwise_turn_commute (image : Image) (R C : Z) :
  rect_image image R C ->
  (g ← T image; process_4 g) = (o ← process_4 image; T o).
Proof.
  intros Hrect.
  destruct (T_pixelwise image R C Hrect) as (g & Hg & Dg & Cg).
  pose proof (pixelwise_rect image g R C Hrect Hg) as Hrectg.
  destruct (rotate_90_turns g R C Hrectg) as (o & _ & _ & [Do To] & _ & _ & Ho & _).
  destruct (rotate_90_turns image R C Hrect)
    as (o1 & _ & _ & T1 & _ & _ & Ho1 & _).
  pose proof (quarter_turn_rect _ _ _ _ Hrect T1) as Hrect1.
  destruct T1 as [D1 T1].
  destruct (T_pixelwise o1 C R Hrect1) as (g1 & Hg1 & Dg1 & Cg1).
  unfold process_4. run_with Hg. run_with Ho1. rewrite Ho, Hg1. f_equal.
  apply (grid_ext o g1 C R Do Dg1). intros i j Hi Hj.
  destruct Hrect as (Hd & _).
  destruct (cell_in_range image R C j (C - 1 - i) Hd ltac:(lia) ltac:(lia))
    as [p Hp].
  specialize (To j (C - 1 - i)). specialize (T1 j (C - 1 - i)).
  replace (C - 1 - (C - 1 - i)) with i in To, T1 by lia.
  rewrite To, (Cg _ _ _ Hp) by lia.
  symmetry. apply Cg1. rewrite T1 by lia. exact Hp.
Qed.

Lemma pixelwise_rotate_times_commute (n : nat) (image : Image) (R C : Z) :
  rect_image image R C ->
  (g ← T image; rotate_times n g) = (o ← rotate_times n image; T o).
Proof.
  intros Hrect. induction n as [| n IH].
  - simpl. destruct (T image); reflexivity.
  - simpl. rewrite <- result_bind_assoc, IH, !result_bind_assoc.
    destruct (rotate_times_rect n image R C Hrect)
      as (out & R' & C' & Hrun & Hout).
    run_with Hrun. exact (pixelwise_turn_commute out R' C' Hout).
Qed.

Lemma pixelwise_rotate_90_commute (image : Image) (R C N : Z) :
  rect_image image R C -> 0 <= N ->
  (g ← T image; rotate_90 g N) = (o ← rotate_90 image N; T o).
Proof.
  intros Hrect HN.
  rewrite (rotate_90_times image R C N Hrect HN).
  rewrite <- pixelwise_rotate_times_commute with (R := R) (C := C)
    by exact Hrect.
  destruct (T_pixelwise image R C Hrect) as (g & Hg & Dg & Cg).
  run_with Hg.
  exact (rotate_90_times g R C N (pixelwise_rect image g R C Hrect Hg) HN).
Qed.

End Pixelwise.

Lemma process_3_pixelwise : pixelwise process_3 gray_pixel.
Proof. intros image R C. apply process_3_pointwise. Qed.

Lemma process_7_pixelwise : pixelwise process_7 contrast_pixel.
Proof. intros image R C. apply process_7_pointwise. Qed.

Lemma process_10_pixelwise : pixelwise process_10 threshold_pixel.
Proof. intros image R C. apply process_10_pointwise. Qed.

Lemma process_2_pixelwise (scale : float) :
  pixelwise (process_2 scale) (clarendon_pixel scale).
Proof.
  intros image R C Hrect. unfold process_2.
  rewrite (size_image_rect _ _ _ Hrect). destruct Hrect as (Hd & HR & HC).
  simpl. rewrite (vector_n_nonneg C) by lia. simpl.
  rewrite (vector_n_nonneg R) by lia. simpl.
  apply pointwise_loops with (f := clarendon_pixel scale);
    [lia | lia | exact Hd | apply replicate_grid_dims; lia |].
  intros row col p g Hp. rewrite (at2_cell _ _ _ _ Hp).
  unfold clarendon_pixel. simpl.
  repeat match goal with |- context [if ?b then _ else _] => destruct b end;
    reflexivity.
Qed.

Lemma process_8_pixelwise (scale : float) :
  pixelwise (process_8 scale) (lighten_pixel scale).
Proof.
  intros image R C Hrect. unfold process_8.
  rewrite (size_image_rect _ _ _ Hrect). destruct Hrect as (Hd & HR & HC).
  simpl. rewrite (vector_n_nonneg C) by lia. simpl.
  rewrite (vector_n_nonneg R) by lia. simpl.
  apply pointwise_loops with (f := lighten_pixel scale);
    [lia | lia | exact Hd | apply replicate_grid_dims; lia |].
  intros row col p g Hp. rewrite (at2_cell _ _ _ _ Hp). reflexivity.
Qed.

Lemma process_9_pixelwise (scale : float) :
  pixelwise (process_9 scale) (darken_pixel scale).
Proof.
  intros image R C Hrect. unfold process_9.
  rewrite (size_image_rect _ _ _ Hrect). destruct Hrect as (Hd & HR & HC).
  simpl. rewrite (vector_n_nonneg C) by lia. simpl.
  rewrite (vector_n_nonneg R) by lia. simpl.
  apply pointwise_loops with (f := darken_pixel scale);
    [lia | lia | exact Hd | apply replicate_grid_dims; lia |].
  intros row col p g Hp. rewrite (at2_cell _ _ _ _ Hp). reflexivity.
Qed.

(** The transforms of the model that work pixel by pixel. *)
Lemma pixel_transforms_pixelwise (scale : float) (T : Image -> result Image) :
  In T [process_2 scale; process_3; process_7; process_8 scale;
        process_9 scale; process_10] ->
  exists f, pixelwise T f.
Proof.
  simpl. intros [<- | [<- | [<- | [<- | [<- | [<- | []]]]]]].
  - exists (clarendon_pixel scale). apply process_2_pixelwise.
  - exists gray_pixel. apply process_3_pixelwise.
  - exists contrast_pixel. apply process_7_pixelwise.
  - exists (lighten_pixel scale). apply process_8_pixelwise.
  - exists (darken_pixel scale). apply process_9_pixelwise.
  - exists threshold_pixel. apply process_10_pixelwise.
Qed.

Lemma pixelwise_identity (T : Image -> result Image) (f : Pixel -> Pixel)
    (image : Image) (R C : Z) :
  pixelwise T f -> rect_image image R C ->
  (forall row col p, cell image row col = Some p -> f p = p) ->
  T image = Ok image.
Proof.
  intros HT Hrect Hf.
  destruct (HT image R C Hrect) as (out & Hrun & Hd & Hcells).
  rewrite Hrun. f_equal. destruct Hrect as (Hdi & _).
  apply (grid_ext out image R C Hd Hdi). intros i j Hi Hj.
  destruct (cell_in_range image R C i j Hdi Hi Hj) as [p Hp].
  rewrite (Hcells i j p Hp), (Hf i j p Hp). symmetry. exact Hp.
Qed.

(** With the factor 1 both channel computations return the channel,
    evaluated on every channel in 0..255. *)
Lemma scale_one_channel (v : Z) :
  0 <= v <= 255 ->
  lighten_channel 1%float v = v /\ darken_channel 1%float v = v.
Proof.
  intros Hv.
  assert (Hall : forallb (fun k =>
                    (lighten_channel 1%float (Z.of_nat k) =? Z.of_nat k)
                    && (darken_channel 1%float (Z.of_nat k) =? Z.of_nat k))
                   (seq 0 256) = true) by (vm_compute; reflexivity).
  rewrite forallb_forall in Hall.
  specialize (Hall (Z.to_nat v)). rewrite Z2Nat.id in Hall by lia.
  apply andb_prop in Hall; [| apply in_seq; lia].
  destruct Hall as [H1 H2]. split; apply Z.eqb_eq; assumption.
Qed.

Lemma scale_one_pixel (p : Pixel) :
  byte_pixel p ->
  clarendon_pixel 1%float p = p /\ lighten_pixel 1%float p = p /\
  darken_pixel 1%float p = p.
Proof.
  intros (Hr & Hg & Hb). unfold byte_channel in *.
  destruct (scale_one_channel (red p) Hr) as [Lr Dr].
  destruct (scale_one_channel (green p) Hg) as [Lg Dg].
  destruct (scale_one_channel (blue p) Hb) as [Lb Db].
  assert (HL : lighten_pixel 1%float p = p).
  { unfold lighten_pixel. rewrite Lr, Lg, Lb. destruct p; reflexivity. }
  assert (HD : darken_pixel 1%float p = p).
  { unfold darken_pixel. rewrite Dr, Dg, Db. destruct p; reflexivity. }
  split; [| split; assumption].
  unfold clarendon_pixel. cbv zeta.
  repeat match goal with |- context [if ?b then _ else _] => destruct b end;
    try assumption.
  destruct p; reflexivity.
Qed.

Lemma gray_pixel_idempotent (p : Pixel) : gray_pixel (gray_pixel p) = gray_pixel p.
Proof.
  unfold gray_pixel, new_pixel. simpl.
  set (s := int_add (int_add (red p) (blue p)) (green p)).
  assert (Hs : Int.in_range s) by apply IntFacts.wrap_in_range.
  assert (Ha : Z.abs (3 * Z.quot s 3) <= Z.abs s).
  { pose proof (Z.quot_rem' s 3). pose proof (Z.rem_bound_abs s 3 ltac:(lia)).
    pose proof (Z.rem_sign_nz s 3). 
    Z.to_euclidean_division_equations. lia. }
  assert (E : int_add (int_add (Z.quot s 3) (Z.quot s 3)) (Z.quot s 3)
              = 3 * Z.quot s 3).
  { unfold Int.in_range, Int.min_int, Int.max_int in Hs.
    rewrite (IntFacts.add_small (Z.quot s 3) (Z.quot s 3)) by int_range.
    rewrite IntFacts.add_small by int_range. lia. }
  rewrite E. replace (3 * Z.quot s 3) with (Z.quot s 3 * 3) by lia.
  rewrite Z.quot_mul by lia. reflexivity.
Qed.

Lemma threshold_pixel_idempotent (p : Pixel) :
  threshold_pixel (threshold_pixel p) = threshold_pixel p.
Proof.
  assert (Hcases : threshold_pixel p = white \/ threshold_pixel p = black \/
            threshold_pixel p = pure_red \/ threshold_pixel p = pure_green \/
            threshold_pixel p = pure_blue).
  { unfold threshold_pixel.
    repeat match goal with |- context [if ?b then _ else _] => destruct b end;
      vm_compute; auto. }
  destruct Hcases as [E | [E | [E | [E | E]]]]; rewrite E; reflexivity.
Qed.

Lemma contrast_pixel_idempotent (p : Pixel) :
  contrast_pixel (contrast_pixel p) = contrast_pixel p.
Proof.
  assert (Hcases : contrast_pixel p = white \/ contrast_pixel p = black).
  { unfold contrast_pixel.
    match goal with |- context [if ?b then _ else _] => destruct b end;
      vm_compute; auto. }
  destruct Hcases as [E | E]; rewrite E; vm_compute; reflexivity.
Qed.

(** ** Enlargement *)

(** Every cell of the enlarged image is the cell of the source its
    indices divided by the scales address. *)
Lemma process_6_cells (x y : Z) (image : Image) (R C : Z) :
  rect_image image R C -> 1 <= x -> 1 <= y ->
  R * y <= Int.max_int -> C * x <= Int.max_int ->
  exists out,
    process_6 x y image = Ok out /\ grid_dims out (R * y) (C * x) /\
    forall row col, 0 <= row < R * y -> 0 <= col < C * x ->
      cell out row col = cell image (row / y) (col / x).
Proof.
  intros Hrect Hx Hy HRy HCx. pose proof Hrect as (Hd & HR & HC).
  unfold process_6. run_with (size_image_rect _ _ _ Hrect).
  assert (HRy0 : 0 <= R * y) by nia. assert (HCx0 : 0 <= C * x) by nia.
  rewrite (IntFacts.mul_small C x), (IntFacts.mul_small R y),
    (IntFacts.mul_small y R), (IntFacts.mul_small x C) by int_range.
  run_with (vector_n_nonneg (C * x) zero_pixel HCx0).
  rewrite (vector_n_nonneg (R * y)) by exact HRy0. cbn [mbind result_bind].
  replace (y * R) with (R * y) by lia. replace (x * C) with (C * x) by lia.
  assert (Hin : forall row col, 0 <= row < R * y -> 0 <= col < C * x ->
            Z.quot row y = row / y /\ Z.quot col x = col / x /\
            0 <= row / y < R /\ 0 <= col / x < C).
  { intros row col Hrow Hcol. rewrite !Z.quot_div_nonneg by lia.
    split; [reflexivity |]. split; [reflexivity |].
    split; (split; [apply Z.div_pos; lia | apply Z.div_lt_upper_bound; lia]). }
  destruct (fill_loops (fun g : Image => g) (fun _ => True) (R * y) (C * x)
              (R * y) (C * x) (fun row _ => row) (fun _ col => col)
              (fun row col => cell_or_zero image (row / y) (col / x))
              (fun row col new_image =>
                 p ← at2 image (Z.quot row y) (Z.quot col x);
                 set2 new_image row col p))
    with (s0 := replicate (Z.to_nat (R * y))
                  (replicate (Z.to_nat (C * x)) zero_pixel))
    as (out & Hrun & _ & Hdo & Hcells).
  - intros row col g Hrow Hcol _ Hg.
    destruct (Hin row col Hrow Hcol) as (-> & -> & Hr & Hc).
    destruct (cell_in_range image R C _ _ Hd Hr Hc) as [p Hp].
    exists (grid_upd g row col p).
    unfold cell_or_zero. rewrite Hp, (at2_cell _ _ _ _ Hp). simpl.
    split; [| split; [exact I | reflexivity]].
    apply (set2_in_range g (R * y) (C * x)); assumption.
  - intros; lia.
  - intros; lia.
  - lia.
  - lia.
  - exact I.
  - apply replicate_grid_dims; lia.
  - exists out. split; [exact Hrun |]. split; [exact Hdo |].
    intros row col Hrow Hcol. rewrite (Hcells row col Hrow Hcol).
    destruct (Hin row col Hrow Hcol) as (_ & _ & Hr & Hc).
    unfold cell_or_zero.
    destruct (cell_in_range image R C _ _ Hd Hr Hc) as [p ->]. reflexivity.
Qed.

Section PixelwiseEnlarge.
Variables (T : Image -> result Image) (f : Pixel -> Pixel).
Hypothesis T_pixelwise : pixelwise T f.

Lemma pixelwise_enlarge_commute (x y : Z) (image : Image) (R C : Z) :
  rect_image image R C -> 1 <= x -> 1 <= y ->
  R * y <= Int.max_int -> C * x <= Int.max_int ->
  (g ← T image; process_6 x y g) = (o ← process_6 x y image; T o).
Proof.
  intros Hrect Hx Hy HRy HCx. pose proof Hrect as (Hd & HR & HC).
  destruct (T_pixelwise image R C Hrect) as (g & Hg & Dg & Cg).
  pose proof (pixelwise_rect T f T_pixelwise image g R C Hrect Hg) as Hrectg.
  destruct (process_6_cells x y g R C Hrectg Hx Hy HRy HCx)
    as (eg & Heg & Deg & Ceg).
  destruct (process_6_cells x y image R C Hrect Hx Hy HRy HCx)
    as (e & He & De & Ce).
  assert (Hrecte : rect_image e (R * y) (C * x)).
  { split; [exact De |]. split; nia. }
  destruct (T_pixelwise e _ _ Hrecte) as (ge & Hge & Dge & Cge).
  run_with Hg. run_with He. rewrite Heg, Hge. f_equal.
  apply (grid_ext eg ge _ _ Deg Dge). intros i j Hi Hj.
  assert (Hr : 0 <= i / y < R)
    by (split; [apply Z.div_pos; lia | apply Z.div_lt_upper_bound; lia]).
  assert (Hc : 0 <= j / x < C)
    by (split; [apply Z.div_pos; lia | apply Z.div_lt_upper_bound; lia]).
  destruct (cell_in_range image R C _ _ Hd Hr Hc) as [p Hp].
  rewrite Ceg, (Cg _ _ _ Hp) by assumption.
  symmetry. apply Cge. rewrite Ce by assumption. exact Hp.
Qed.

End PixelwiseEnlarge.

Lemma div_mirror (n k i : Z) :
  1 <= k -> 0 <= i < n * k -> (n * k - 1 - i) / k = n - 1 - i / k.
Proof.
  intros Hk Hi. symmetry.
  apply (Z.div_unique_pos _ _ _ (k - 1 - i mod k)).
  - pose proof (Z.mod_pos_bound i k ltac:(lia)). lia.
  - pose proof (Z.div_mod i k ltac:(lia)). nia.
Qed.

(** ** The outcomes of the reader *)

Lemma get_range (s : istream) : decoded_channel (fst (get s)).
Proof.
  unfold get, decoded_channel, EOF. destruct (failbit s); simpl; [lia |].
  destruct (contents s !! Z.to_nat (gpos s)) as [b |]; simpl; [| lia].
  pose proof (uchar_value_range b). lia.
Qed.

Lemma grid_upd_Forall {A : Type} (P : A -> Prop) (g : list (list A))
    (i j : Z) (x : A) :
  Forall (Forall P) g -> P x -> Forall (Forall P) (grid_upd g i j x).
Proof.
  intros Hg Hx. unfold grid_upd.
  destruct (zlookup g i) as [row |] eqn:Hrow; [| exact Hg].
  apply Forall_insert; [exact Hg |].
  apply Forall_insert; [| exact Hx].
  rewrite Forall_lookup in Hg. exact (Hg _ _ (zlookup_nat _ _ _ Hrow)).
Qed.

(** The pixel loops of [read_image] run to the end whatever the file
    holds: they keep the dimensions of the image and store channels that
    are byte values or [EOF]. *)
Lemma read_pixels_range (image0 : Image) (H W pos0 bits_per_pixel padding : Z)
    (stream0 : istream) :
  0 <= H <= Int.max_int -> 0 <= W -> grid_dims image0 H W ->
  Forall (Forall decoded_pixel) image0 ->
  exists image pos stream,
    for_down (int_sub H 1) (fun i st =>
      '(image, pos, stream) ←
        for_up 0 W (fun j st =>
          let '(image, pos, stream) := st in
          let stream := seekg stream pos in
          let '(c, stream) := get stream in
          p ← at2 image i j;
          image ← set2 image i j (set_blue p c);
          let '(c, stream) := get stream in
          p ← at2 image i j;
          image ← set2 image i j (set_green p c);
          let '(c, stream) := get stream in
          p ← at2 image i j;
          image ← set2 image i j (set_red p c);
          let pos := int_add pos (Z.quot bits_per_pixel 8) in
          Ok (image, pos, stream))
        st;
      let stream := seekg_cur stream padding in
      let pos := int_add pos padding in
      Ok (image, pos, stream))
    (image0, pos0, stream0) = Ok (image, pos, stream) /\
    grid_dims image H W /\ Forall (Forall decoded_pixel) image.
Proof.
  intros HH HW Hd0 Hr0.
  match goal with |- exists image pos stream, for_down _ ?body ?s0 = _ /\ _ =>
    destruct (for_down_inv
                (fun (_ : Z) (st : Image * Z * istream) =>
                   grid_dims (fst (fst st)) H W /\
                   Forall (Forall decoded_pixel) (fst (fst st)))
                (int_sub H 1) body s0) as ([[image pos] stream] & Hrun & Hd)
  end.
  - int_small. lia.
  - split; [exact Hd0 | exact Hr0].
  - intros i [[image pos] stream] Hi Hd. simpl in Hd.
    revert Hi. int_small. intros Hi.
    match goal with |- exists s', (?inner ≫= _) = _ /\ _ =>
      match inner with for_up _ _ ?ibody _ =>
        destruct (for_up_inv
                    (fun (_ : Z) (st : Image * Z * istream) =>
                       grid_dims (fst (fst st)) H W /\
                       Forall (Forall decoded_pixel) (fst (fst st)))
                    0 W ibody (image, pos, stream))
          as ([[image' pos'] stream'] & Hrun' & Hd')
      end
    end.
    + exact HW.
    + exact Hd.
    + intros j [[img ps] st] Hj [Hdj Hrj]. simpl in Hdj, Hrj.
      rewrite (read_pixel_step img H W i j ps bits_per_pixel st Hdj) by lia.
      cbv zeta. eexists. split; [reflexivity |]. simpl.
      split; [apply grid_upd_dims, Hdj |].
      apply grid_upd_Forall; [exact Hrj |].
      split; [| split]; simpl; apply get_range.
    + run_with Hrun'. eexists. split; [reflexivity |]. exact Hd'.
  - exists image, pos, stream. split; [exact Hrun | exact Hd].
Qed.

(** The three outcomes of [read_image]. *)
Lemma read_image_cases (file : option (list byte)) :
  let H := header_field file 22 4 in
  let W := header_field file 18 4 in
  (header_consistent file = false /\ read_image file = Ok []) \/
  (header_consistent file = true /\ (W < 0 \/ H < 0) /\
   read_image file = Throws) \/
  (header_consistent file = true /\ 0 <= W /\ 0 <= H /\
   exists image, read_image file = Ok image /\ grid_dims image H W /\
     Forall (Forall decoded_pixel) image).
Proof.
  intros H W.
  pose proof (header_field_in_range file 22 4 ltac:(lia)) as HH.
  fold H in HH.
  assert (Htest : header_consistent file =
     (header_field file 2 4 =?
      int_add (header_field file 10 4)
        (int_mul
           (int_add (int_mul W (Z.quot (header_field file 28 2) 8))
              (if negb (Z.rem (int_mul W (Z.quot (header_field file 28 2) 8)) 4 =? 0)
               then int_sub 4 (Z.rem (int_mul W (Z.quot (header_field file 28 2) 8)) 4)
               else 0))
           H))) by reflexivity.
  unfold read_image. read_header file Hcontents Hconsumed.
  fold H W. cbv zeta. rewrite <- Htest.
  destruct (header_consistent file); cbn [negb];
    [| left; split; reflexivity].
  right. unfold vector_n.
  destruct (Z.ltb_spec W 0) as [HW | HW].
  { left. cbn [mbind result_bind]. repeat split. left. exact HW. }
  cbn [mbind result_bind].
  destruct (Z.ltb_spec H 0) as [HH' | HH'].
  { left. cbn [mbind result_bind]. repeat split. right. exact HH'. }
  cbn [mbind result_bind]. right.
  split; [reflexivity |]. split; [exact HW |]. split; [exact HH' |].
  match goal with |- context [for_down _ _ (?img0, ?p0, ?s0)] =>
    match goal with |- context [seekg_cur _ ?pad] =>
      destruct (read_pixels_range img0 H W p0 (header_field file 28 2) pad s0)
        as (img & pos & stream & Hrun & Hd & Hr)
    end
  end.
  - unfold Int.in_range, Int.max_int in *. lia.
  - exact HW.
  - apply replicate_grid_dims; lia.
  - apply Forall_replicate, Forall_replicate.
    unfold decoded_pixel, decoded_channel. simpl. lia.
  - cbv zeta in Hrun. run_with Hrun. exists img. auto.
Qed.

Lemma get_good_value (s : istream) (data : list byte) (q : Z) :
  good s data q -> 0 <= q < Z.of_nat (length data) ->
  fst (get s) = byte_or 0 data q /\ good (snd (get s)) data (q + 1).
Proof.
  intros Hg Hq. destruct (zlookup_in_range data q Hq) as [b Hb].
  unfold byte_or. rewrite Hb. exact (get_good s data q b Hg Hb).
Qed.

(** On a file that holds every byte of the pixel array, the pixel loops
    of [read_image] store at ([i], [j]) the three bytes at
    [start + (H - 1 - i) * stride + j * step]. *)
Lemma read_pixels_located (data : list byte) (image0 : Image)
    (H W start bits_per_pixel padding : Z) (stream0 : istream) :
  let step := Z.quot bits_per_pixel 8 in
  let stride := W * step + padding in
  1 <= H <= Int.max_int -> 0 <= W -> 3 <= step -> 0 <= padding ->
  0 <= start ->
  start + stride * H <= Z.of_nat (length data) <= Int.max_int ->
  grid_dims image0 H W ->
  contents stream0 = data -> failbit stream0 = false -> 0 <= gpos stream0 ->
  exists image pos stream,
    for_down (int_sub H 1) (fun i st =>
      '(image, pos, stream) ←
        for_up 0 W (fun j st =>
          let '(image, pos, stream) := st in
          let stream := seekg stream pos in
          let '(c, stream) := get stream in
          p ← at2 image i j;
          image ← set2 image i j (set_blue p c);
          let '(c, stream) := get stream in
          p ← at2 image i j;
          image ← set2 image i j (set_green p c);
          let '(c, stream) := get stream in
          p ← at2 image i j;
          image ← set2 image i j (set_red p c);
          let pos := int_add pos (Z.quot bits_per_pixel 8) in
          Ok (image, pos, stream))
        st;
      let stream := seekg_cur stream padding in
      let pos := int_add pos padding in
      Ok (image, pos, stream))
    (image0, start, stream0) = Ok (image, pos, stream) /\
    grid_dims image H W /\
    forall i j, 0 <= i < H -> 0 <= j < W ->
      cell image i j
      = Some (pixel_from data (start + (H - 1 - i) * stride + j * step)).
Proof.
  intros step stride HH HW Hstep Hpad Hstart Hlen Hd0 Hdata0 Hfail0 Hpos0.
  assert (Hstride : W * step <= stride) by (unfold stride; lia).
  assert (Hstride0 : 0 <= stride) by nia.
  set (Inv := fun (i j : Z) (st : Image * Z * istream) =>
         grid_dims (fst (fst st)) H W /\
         snd (fst st) = start + (H - 1 - i) * stride + j * step /\
         contents (snd st) = data /\ failbit (snd st) = false /\
         0 <= gpos (snd st) /\
         forall r c, 0 <= r < H -> 0 <= c < W ->
           i < r \/ (r = i /\ c < j) ->
           cell (fst (fst st)) r c
           = Some (pixel_from data (start + (H - 1 - r) * stride + c * step))).
  match goal with |- exists image pos stream, for_down _ ?body ?s0 = _ /\ _ =>
    destruct (for_down_inv (fun i st => Inv i 0 st) (int_sub H 1) body s0)
      as ([[img pos] stream] & Hrun & Hdi & _ & _ & _ & _ & Hcells)
  end.
  - int_small. lia.
  - unfold Inv. simpl. int_small. repeat split;
      try apply Hd0; try assumption; try lia.
  - intros i [[img pos] stream] Hi HInv. revert Hi. int_small. intros Hi.
    match goal with |- exists s', (?inner ≫= _) = _ /\ _ =>
      match inner with for_up _ _ ?ibody _ =>
        destruct (for_up_inv (fun j st => Inv i j st) 0 W ibody (img, pos, stream))
          as ([[img' pos'] stream'] & Hrun' & HInv')
      end
    end.
    + lia.
    + exact HInv.
    + intros j [[im ps] st] Hj (Hdj & Hps & Hcj & Hfj & Hgj & Hcellsj).
      simpl in Hdj, Hps, Hcj, Hfj, Hgj, Hcellsj.
      rewrite (read_pixel_step im H W i j ps bits_per_pixel st Hdj) by lia.
      cbv zeta. fold step.
      assert (Hrow : 0 <= (H - 1 - i) * stride
                     /\ (H - 1 - i) * stride + stride <= stride * H) by nia.
      assert (Hcol : 0 <= j * step /\ j * step + step <= W * step) by nia.
      assert (Hps0 : 0 <= ps) by lia.
      assert (Hps3 : ps + step <= start + stride * H) by lia.
      assert (Hg0 : good (seekg st ps) data ps)
        by (apply (seekg_good st data (gpos st)); [repeat split; assumption | lia]).
      destruct (get_good_value _ _ _ Hg0 ltac:(lia)) as (V1 & Hg1).
      destruct (get_good_value _ _ _ Hg1 ltac:(lia)) as (V2 & Hg2).
      replace (ps + 1 + 1) with (ps + 2) in Hg2 by lia.
      destruct (get_good_value _ _ _ Hg2 ltac:(lia)) as (V3 & Hg3).
      rewrite V1, V2, V3.
      rewrite IntFacts.add_small by int_range.
      eexists. split; [reflexivity |].
      unfold Inv. cbn [fst snd]. destruct Hg3 as (Hc3 & Hf3 & Hp3).
      split; [apply grid_upd_dims, Hdj |]. split; [lia |].
      split; [exact Hc3 |]. split; [exact Hf3 |]. split; [lia |].
      intros r c Hr Hc Hdone.
      destruct (Z.eq_dec r i) as [-> | Hri].
      * destruct (Z.eq_dec c j) as [-> | Hcj'].
        -- rewrite <- Hps. eapply cell_grid_upd_eq; eauto; lia.
        -- rewrite cell_grid_upd_ne; [apply Hcellsj; lia | lia | congruence].
      * rewrite cell_grid_upd_ne; [apply Hcellsj; lia | lia | congruence].
    + run_with Hrun'. cbv zeta.
      destruct HInv' as (Hd' & Hp' & Hc' & Hf' & Hg' & Hcells').
      cbn [fst snd] in Hd', Hp', Hc', Hf', Hg', Hcells'.
      assert (Hrow : 0 <= (H - 1 - i) * stride
                     /\ (H - 1 - i) * stride + stride <= stride * H) by nia.
      rewrite IntFacts.add_small by (unfold stride in *; int_range).
      eexists. split; [reflexivity |].
      unfold Inv. cbn [fst snd].
      split; [exact Hd' |]. split; [unfold stride in *; lia |].
      unfold seekg_cur. rewrite Hf'.
      destruct (Z.ltb_spec (gpos stream' + padding) 0); [lia |]. cbn [contents failbit gpos].
      split; [exact Hc' |]. split; [reflexivity |]. split; [lia |].
      intros r c Hr Hc Hdone. apply Hcells'; lia.
  - exists img, pos, stream. split; [exact Hrun |]. split; [exact Hdi |].
    intros i j Hi Hj. apply Hcells; lia.
Qed.

(** The padding [read_image] computes for a row of [w] bytes fills the
    row up to the next multiple of four. *)
Lemma read_padding_value (w : Z) :
  0 <= w <= Int.max_int - 3 ->
  let padding := if negb (Z.rem w 4 =? 0) then int_sub 4 (Z.rem w 4) else 0 in
  0 <= padding <= 3 /\ w + padding = 4 * ((w + 3) / 4).
Proof.
  intros Hw. cbv zeta.
  pose proof (Z.rem_bound_pos w 4 ltac:(lia) ltac:(lia)) as Hr.
  rewrite Z.rem_mod_nonneg in * by lia.
  destruct (Z.eqb_spec (w mod 4) 0) as [E | E]; simpl.
  - Z.to_euclidean_division_equations. lia.
  - rewrite IntFacts.sub_small by int_range.
    Z.to_euclidean_division_equations. lia.
Qed.

(** ** The header bytes and the file of the writer *)

(** What [set_bytes] does to an array that holds the addressed bytes. *)
Lemma set_bytes_run (arr : list byte) (offset bytes value : Z) :
  0 <= offset -> 0 <= bytes ->
  offset + bytes <= Z.of_nat (length arr) <= Int.max_int ->
  exists arr',
    set_bytes arr offset bytes value = Ok arr' /\
    length arr' = length arr /\
    (forall k, 0 <= k < bytes ->
       zlookup arr' (offset + k) = Some (le_byte value k)) /\
    (forall q, ~ (offset <= q < offset + bytes) ->
       zlookup arr' q = zlookup arr q).
Proof.
  intros Hoff Hbytes Hlen. unfold set_bytes.
  destruct (for_up_inv
              (fun i (a : list byte) =>
                 length a = length arr /\
                 (forall k, 0 <= k < i ->
                    zlookup a (offset + k) = Some (le_byte value k)) /\
                 (forall q, ~ (offset <= q < offset + i) ->
                    zlookup a q = zlookup arr q))
              0 bytes
              (fun i arr =>
                 vec_set arr (int_add offset i)
                   (to_uchar (Z.shiftr value (int_mul i 8))))
              arr) as (arr' & Hrun & Hinv).
  - exact Hbytes.
  - split; [reflexivity |]. split; [intros; lia | reflexivity].
  - intros i a Hi (Hl & Hset & Hkeep).
    rewrite (IntFacts.add_small offset i) by int_range.
    rewrite vec_set_in_range by lia.
    eexists. split; [reflexivity |]. split; [rewrite length_insert; exact Hl |].
    split.
    + intros k Hk. destruct (Z.eq_dec k i) as [-> | Hne].
      * apply zlookup_insert_eq. lia.
      * rewrite zlookup_insert_ne by lia. apply Hset. lia.
    + intros q Hq. rewrite zlookup_insert_ne by lia. apply Hkeep. lia.
  - exists arr'. split; [exact Hrun | exact Hinv].
Qed.

(** The little-endian sum of bytes that are the base 256 digits of [v]. *)
Lemma le_sum_digits (data : list byte) (v : Z) (n : nat) :
  forall p k, 0 <= k ->
    (forall j, 0 <= j < Z.of_nat n ->
       byte_or 0 data (p + j) = (v / 256 ^ (k + j)) mod 256) ->
    le_sum 0 data p n = (v / 256 ^ k) mod 256 ^ Z.of_nat n.
Proof.
  induction n as [| n IH]; intros p k Hk Hdigits.
  - simpl. rewrite Z.mod_1_r. reflexivity.
  - replace (Z.of_nat (Datatypes.S n)) with (1 + Z.of_nat n) by lia.
    rewrite Z.pow_add_r, Z.pow_1_r by lia.
    rewrite Z.rem_mul_r by lia.
    simpl le_sum. rewrite (IH (p + 1) (k + 1)); [| lia |].
    + specialize (Hdigits 0 ltac:(lia)). rewrite !Z.add_0_r in Hdigits.
      rewrite Hdigits. rewrite Z.div_div by lia.
      rewrite Z.pow_add_r, Z.pow_1_r by lia. reflexivity.
    + intros j Hj. specialize (Hdigits (1 + j) ltac:(lia)).
      replace (p + 1 + j) with (p + (1 + j)) by lia.
      replace (k + 1 + j) with (k + (1 + j)) by lia. exact Hdigits.
Qed.

(** [read_image] on the file [write_image] produces for an image with
    channels in 0..255. *)
Lemma read_image_encoding (image : Image) (R C : Z) :
  rect_image image R C -> byte_image image ->
  54 + stride_of C * R <= Int.max_int ->
  read_image (Some (encoding image R C)) = Ok image.
Proof.
  intros Hrect Hbytes Hsize.
  pose proof Hrect as (Hd & HR & HC).
  pose proof (padding_of_range C ltac:(lia)) as Hpad.
  assert (Hstride0 : stride_of C = C * 3 + padding_of C) by reflexivity.
  assert (Hstride : stride_of C <= stride_of C * R) by nia.
  destruct (encoding_header image R C Hrect Hsize) as (F1 & F2 & F3 & F4 & F5).
  unfold read_image. read_header (Some (encoding image R C)) Hreads Hconsumed.
  rewrite F1, F2, F3, F4, F5. cbv zeta.
  rewrite read_padding by int_range.
  change (Z.quot 24 8) with 3.
  rewrite (IntFacts.mul_small C 3) by int_range.
  rewrite (IntFacts.add_small (C * 3)) by int_range.
  rewrite <- Hstride0.
  rewrite (IntFacts.mul_small (stride_of C) R) by int_range.
  rewrite (IntFacts.add_small 54) by int_range.
  rewrite Z.eqb_refl. cbn [negb].
  rewrite (vector_n_nonneg C) by lia. cbn [mbind result_bind].
  rewrite (vector_n_nonneg R) by lia. cbn [mbind result_bind].
  destruct Hreads as (Hcontents & _ & Hfail).
  unfold file_bytes in Hcontents, Hfail.
  assert (Hnofail : failbit s5 = false).
  { destruct (failbit s5); [| reflexivity].
    specialize (Hfail eq_refl).
    rewrite (encoding_length image R C Hd ltac:(lia)) in Hfail. nia. }
  destruct (read_pixels_exact image
              (replicate (Z.to_nat R) (replicate (Z.to_nat C) zero_pixel))
              R C s5 Hrect Hbytes Hsize) as (pos & stream & Hrun);
    [apply replicate_grid_dims; lia | exact Hcontents | exact Hnofail |].
  cbv zeta in Hrun. change (Z.quot 24 8) with 3 in Hrun.
  run_with Hrun. reflexivity.
Qed.

Lemma to_uchar_mod (v : Z) : to_uchar (v mod 256) = to_uchar v.
Proof. unfold to_uchar. rewrite Z.mod_mod by lia. reflexivity. Qed.

Lemma pixel_bytes_wrap (p : Pixel) : pixel_bytes (wrap_pixel p) = pixel_bytes p.
Proof. unfold pixel_bytes, wrap_pixel. simpl. rewrite !to_uchar_mod. reflexivity. Qed.

Lemma row_bytes_wrap (pad : Z) (row : list Pixel) :
  row_bytes pad (map wrap_pixel row) = row_bytes pad row.
Proof.
  unfold row_bytes. f_equal. f_equal. rewrite map_map.
  apply map_ext. exact pixel_bytes_wrap.
Qed.

Lemma pixel_array_wrap (pad : Z) (image : Image) :
  pixel_array pad (wrap_image image) = pixel_array pad image.
Proof.
  unfold pixel_array, wrap_image. induction image as [| row image IH].
  - reflexivity.
  - simpl map at 2. rewrite !reverse_cons, !map_app, !concat_app, IH.
    simpl. rewrite row_bytes_wrap. reflexivity.
Qed.

Lemma encoding_wrap (image : Image) (R C : Z) :
  encoding (wrap_image image) R C = encoding image R C.
Proof. unfold encoding. rewrite pixel_array_wrap. reflexivity. Qed.

Lemma wrap_image_rect (image : Image) (R C : Z) :
  rect_image image R C -> rect_image (wrap_image image) R C.
Proof.
  intros ([Hlen Hrows] & HR & HC). split; [| split; assumption].
  unfold wrap_image. split.
  - rewrite length_map. exact Hlen.
  - change (map (map wrap_pixel) image) with (map wrap_pixel <$> image).
    apply Forall_fmap. apply (Forall_impl _ _ _ Hrows).
    intros row Hrow. simpl. rewrite length_map. exact Hrow.
Qed.

Lemma wrap_image_bytes (image : Image) : byte_image (wrap_image image).
Proof.
  unfold byte_image, wrap_image.
  change (map (map wrap_pixel) image) with (map wrap_pixel <$> image).
  apply Forall_fmap, Forall_true. intros row. simpl.
  change (map wrap_pixel row) with (wrap_pixel <$> row).
  apply Forall_fmap, Forall_true. intros p.
  unfold byte_pixel, byte_channel, wrap_pixel. simpl.
  pose proof (Z.mod_pos_bound (red p) 256 ltac:(lia)).
  pose proof (Z.mod_pos_bound (green p) 256 ltac:(lia)).
  pose proof (Z.mod_pos_bound (blue p) 256 ltac:(lia)). lia.
Qed.

Lemma stride_of_rows (C : Z) : 0 <= C -> stride_of C mod 4 = 0.
Proof.
  intros HC. unfold stride_of, padding_of.
  pose proof (Z.rem_bound_pos (C * 3) 4 ltac:(lia) ltac:(lia)) as Hr.
  rewrite (Z.rem_mod_nonneg (C * 3)) in * by lia.
  assert (Hc : (C * 3) mod 4 = 0 \/ 1 <= (C * 3) mod 4 <= 3) by lia.
  destruct Hc as [E | E].
  - rewrite E. change (Z.rem (4 - 0) 4) with 0. rewrite Z.add_0_r. exact E.
  - rewrite Z.rem_small by lia.
    Z.to_euclidean_division_equations. lia.
Qed.

Lemma row_stride_24 (C : Z) :
  0 <= C * 3 <= Int.max_int - 3 -> row_stride C 24 = stride_of C.
Proof.
  intros HC. unfold row_stride. cbv zeta.
  rewrite read_padding by int_range.
  pose proof (padding_of_range C ltac:(lia)) as Hpad.
  change (Z.quot 24 8) with 3.
  rewrite (IntFacts.mul_small C 3) by int_range.
  rewrite IntFacts.add_small by int_range. reflexivity.
Qed.

Lemma encoding_consistent (image : Image) (R C : Z) :
  rect_image image R C -> 54 + stride_of C * R <= Int.max_int ->
  header_consistent (Some (encoding image R C)) = true.
Proof.
  intros Hrect Hsize. pose proof Hrect as (Hd & HR & HC).
  pose proof (padding_of_range C ltac:(lia)) as Hpad.
  assert (Hstride0 : stride_of C = C * 3 + padding_of C) by reflexivity.
  assert (Hstride : stride_of C <= stride_of C * R) by nia.
  destruct (encoding_header image R C Hrect Hsize) as (F1 & F2 & F3 & F4 & F5).
  unfold header_consistent. rewrite F1, F2, F3, F4, F5.
  rewrite row_stride_24 by int_range.
  rewrite (IntFacts.mul_small (stride_of C) R) by int_range.
  rewrite (IntFacts.add_small 54) by int_range.
  apply Z.eqb_refl.
Qed.

Lemma encoding_well_formed (image : Image) (R C : Z) :
  rect_image image R C -> 54 + stride_of C * R <= Int.max_int ->
  well_formed_bmp (encoding image R C) R C.
Proof.
  intros Hrect Hsize. pose proof Hrect as (Hd & HR & HC).
  pose proof (encoding_length image R C Hd ltac:(lia)) as Hlen.
  destruct (encoding_header image R C Hrect Hsize) as (F1 & F2 & F3 & F4 & F5).
  split; [exact Hlen |].
  split; [rewrite F1, Hlen; reflexivity |].
  split; [exact F2 |]. split; [exact F3 |]. split; [exact F4 |].
  split; [exact F5 |].
  exact (encoding_consistent image R C Hrect Hsize).
Qed.

(** ** The handler *)

(** On the empty image every transform of the model indexes [image[0]]
    or returns the empty image. *)
Lemma empty_image_faults (scale : float) (num x y : Z)
    (process : Image -> result Image) :
  In process [process_2 scale; process_3; process_4; process_5 num;
              process_6 x y; process_7; process_8 scale; process_9 scale;
              process_10] ->
  process [] = Fault \/ process [] = Ok [].
Proof.
  simpl.
  intros [<- | [<- | [<- | [<- | [<- | [<- | [<- | [<- | [<- | []]]]]]]]]];
    try (left; reflexivity).
  unfold process_5, rotate_90. destruct (Z.rem num 4 =? 0); auto.
Qed.

(** ** The test of the reader and the invariant of the format *)

(** When the header fields fail the test of [read_image], the function
    returns the empty image and has read header bytes only. *)
Lemma read_image_from_rejects (file : option (list byte)) :
  header_consistent file = false ->
  exists stream,
    read_image_from (open_in file) = Ok ([], stream) /\
    (forall q, In q (consumed stream) -> header_offset q) /\
    read_image file = Ok [].
Proof.
  intros Hbad. unfold read_image. read_header file Hcontents Hconsumed.
  unfold header_consistent, row_stride in Hbad. cbv zeta in Hbad.
  rewrite Hbad. simpl. eauto.
Qed.

(** For whole bytes per pixel the row byte width is the product the
    decoder computes. *)
Lemma row_byte_width_whole (width bits_per_pixel : Z) :
  0 <= bits_per_pixel -> bits_per_pixel mod 8 = 0 ->
  row_byte_width width bits_per_pixel = width * Z.quot bits_per_pixel 8.
Proof.
  intros Hb Hm. unfold row_byte_width.
  rewrite Z.quot_div_nonneg by lia.
  Z.to_euclidean_division_equations. nia.
Qed.

(** * Main results *)

Ltac concrete_rect :=
  unfold rect_image, grid_dims, Int.max_int; simpl;
  repeat split; try lia; repeat constructor.

Ltac concrete_bytes :=
  unfold byte_image, byte_pixel, byte_channel; repeat constructor; simpl; lia.

(** ** Rotation *)

(** C2, as the code has it: one application of transform 4 to an [R] by
    [C] image returns a [C] by [R] image that holds the source pixel
    ([row], [col]) at ([C - 1 - col], [row]); the turn is
    counter-clockwise. *)
Theorem process_4_quarter_turn (image : Image) (R C : Z) :
  rect_image image R C ->
  exists out,
    process_4 image = Ok out /\ grid_dims out C R /\
    forall row col p,
      pixel_at image row col = Some p ->
      pixel_at out (C - 1 - col) row = Some p.
Proof.
  intros Hrect.
  destruct (rotate_90_turns image R C Hrect)
    as (o1 & _ & _ & [D1 T1] & _ & _ & H1 & _).
  exists o1. split; [exact H1 |]. split; [exact D1 |].
  intros row col p Hp. unfold pixel_at in *.
  destruct Hrect as (Hd & _).
  destruct (cell_Some_range _ _ _ _ _ _ Hd Hp) as [Hrow Hcol].
  rewrite T1 by lia. exact Hp.
Qed.

Lemma process_4_quarter_turn_witness :
  rect_image sample_image 2 2 /\
  exists out,
    process_4 sample_image = Ok out /\ grid_dims out 2 2 /\
    forall row col p,
      pixel_at sample_image row col = Some p ->
      pixel_at out (2 - 1 - col) row = Some p.
Proof.
  split; [concrete_rect |].
  apply (process_4_quarter_turn sample_image 2 2). concrete_rect.
Defined.

(** C2, as stated, fails on a one by two image: the pixel of row 0 and
    column 1 is not at (1, 0) after the turn. *)
Lemma process_4_not_clockwise :
  let image := [[mkPixel 1 1 1; mkPixel 2 2 2]] in
  rect_image image 1 2 /\
  exists out,
    process_4 image = Ok out /\
    ~ (forall row col p,
         pixel_at image row col = Some p ->
         pixel_at out col (1 - 1 - row) = Some p).
Proof.
  split; [concrete_rect |].
  exists [[mkPixel 2 2 2]; [mkPixel 1 1 1]]. split; [reflexivity |].
  intros H. specialize (H 0 1 (mkPixel 2 2 2) eq_refl). discriminate H.
Qed.

(** C5: for a positive [N], [rotate_90 image N] is [N] successive
    applications of transform 4, which is [N mod 4] applications; when
    [N mod 4 = 0] the image is returned as it is. *)
Theorem rotate_90_successive (image : Image) (R C : Z) (N : Z) :
  rect_image image R C -> 1 <= N ->
  rotate_90 image N = rotate_times (Z.to_nat N) image /\
  rotate_times (Z.to_nat N) image = rotate_times (Z.to_nat (N mod 4)) image /\
  (N mod 4 = 0 -> rotate_90 image N = Ok image).
Proof.
  intros Hrect HN.
  assert (Hmod : 0 <= N mod 4 < 4) by (apply Z.mod_pos_bound; lia).
  assert (Hperiod : rotate_times (Z.to_nat N) image
                    = rotate_times (Z.to_nat (N mod 4)) image).
  { replace (Z.to_nat N)
      with (4 * Z.to_nat (N / 4) + Z.to_nat (N mod 4))%nat
      by (pose proof (Z.div_mod N 4);
          pose proof (Z.div_pos N 4); lia).
    exact (rotate_times_period _ _ image R C Hrect). }
  assert (Hcode : rotate_90 image N = rotate_times (Z.to_nat (N mod 4)) image).
  { rewrite rotate_90_rem, Z.rem_mod_nonneg by lia.
    destruct (rotate_times_upto_4 image R C Hrect) as (E1 & E2 & E3 & _).
    assert (Hcases : N mod 4 = 0 \/ N mod 4 = 1 \/ N mod 4 = 2 \/ N mod 4 = 3)
      by lia.
    destruct Hcases as [-> | [-> | [-> | ->]]];
      [reflexivity | symmetry; exact E1 | symmetry; exact E2
      | symmetry; exact E3]. }
  split; [rewrite Hperiod; exact Hcode |]. split; [exact Hperiod |].
  intros H0. rewrite Hcode, H0. reflexivity.
Qed.

Lemma rotate_90_successive_witness :
  rect_image sample_image 2 2 /\ 1 <= 6 /\
  rotate_90 sample_image 6 = rotate_times (Z.to_nat 6) sample_image /\
  rotate_times (Z.to_nat 6) sample_image
  = rotate_times (Z.to_nat (6 mod 4)) sample_image /\
  (6 mod 4 = 0 -> rotate_90 sample_image 6 = Ok sample_image).
Proof.
  split; [concrete_rect |]. split; [lia |].
  apply (rotate_90_successive sample_image 2 2 6); [concrete_rect | lia].
Defined.

(** C6: four successive applications of transform 4 return the image
    they started from. *)
Theorem four_rotations_identity (image : Image) (R C : Z) :
  rect_image image R C -> rotate_times 4 image = Ok image.
Proof.
  intros Hrect.
  destruct (rotate_times_upto_4 image R C Hrect) as (_ & _ & _ & E4).
  exact E4.
Qed.

Lemma four_rotations_identity_witness :
  rect_image sample_image 2 2 /\ rotate_times 4 sample_image = Ok sample_image.
Proof.
  split; [concrete_rect |].
  apply (four_rotations_identity sample_image 2 2). concrete_rect.
Defined.

(** ** Pixel-wise transforms *)

(** C7: on an image with channels in 0..255, [process_3] keeps the
    dimensions and gives every pixel three equal channels, the floor of
    the average of the three channels it had. *)
Theorem process_3_grayscale (image : Image) (R C : Z) :
  rect_image image R C -> byte_image image ->
  exists out,
    process_3 image = Ok out /\ grid_dims out R C /\
    forall row col p,
      pixel_at image row col = Some p ->
      exists q,
        pixel_at out row col = Some q /\
        red q = green q /\ green q = blue q /\
        blue q = (red p + green p + blue p) / 3.
Proof.
  intros Hrect Hbytes.
  destruct (process_3_pointwise image R C Hrect) as (out & Hrun & Hd & Hcells).
  exists out. split; [exact Hrun |]. split; [exact Hd |].
  intros row col p Hp. exists (gray_pixel p).
  split; [exact (Hcells row col p Hp) |].
  destruct (byte_image_cell image row col p Hbytes Hp) as (Hr & Hg & Hb).
  unfold byte_channel in *. unfold gray_pixel, new_pixel. simpl.
  repeat split. int_small.
  rewrite Z.quot_div_nonneg by lia. f_equal. lia.
Qed.

Lemma process_3_grayscale_witness :
  rect_image sample_image 2 2 /\ byte_image sample_image /\
  exists out,
    process_3 sample_image = Ok out /\ grid_dims out 2 2 /\
    forall row col p,
      pixel_at sample_image row col = Some p ->
      exists q,
        pixel_at out row col = Some q /\
        red q = green q /\ green q = blue q /\
        blue q = (red p + green p + blue p) / 3.
Proof.
  split; [concrete_rect |]. split; [concrete_bytes |].
  apply (process_3_grayscale sample_image 2 2);
    [concrete_rect | concrete_bytes].
Defined.

Lemma channel_sum_exact (p : Pixel) :
  Int.in_range (red p + green p + blue p) ->
  channel_sum p = red p + green p + blue p.
Proof. apply IntFacts.wrap_small. Qed.

Lemma threshold_pixel_rule (p : Pixel) : threshold_pixel p = threshold_rule p.
Proof.
  unfold threshold_pixel, threshold_rule, channel_sum, is_maximum.
  unfold Int.add. rewrite IntFacts.wrap_add_l.
  replace (red p + blue p + green p) with (red p + green p + blue p) by lia.
  destruct (550 <=? Int.wrap (red p + green p + blue p)); [reflexivity |].
  destruct (Int.wrap (red p + green p + blue p) <=? 150); [reflexivity |].
  destruct (Z.eqb_spec (Z.max (Z.max (red p) (blue p)) (green p)) (red p)),
    (Z.eqb_spec (Z.max (Z.max (red p) (blue p)) (green p)) (green p)),
    (Z.leb_spec (red p) (red p)), (Z.leb_spec (green p) (red p)),
    (Z.leb_spec (blue p) (red p)), (Z.leb_spec (red p) (green p)),
    (Z.leb_spec (green p) (green p)), (Z.leb_spec (blue p) (green p));
    simpl; try reflexivity; lia.
Qed.

(** C8: [process_10] keeps the dimensions and maps every pixel by the
    threshold rule, the channel sum being the [int] the program
    computes. *)
Theorem process_10_threshold (image : Image) (R C : Z) :
  rect_image image R C ->
  exists out,
    process_10 image = Ok out /\ grid_dims out R C /\
    forall row col p,
      pixel_at image row col = Some p ->
      pixel_at out row col = Some (threshold_rule p).
Proof.
  intros Hrect.
  destruct (process_10_pointwise image R C Hrect) as (out & Hrun & Hd & Hcells).
  exists out. split; [exact Hrun |]. split; [exact Hd |].
  intros row col p Hp. rewrite <- threshold_pixel_rule.
  exact (Hcells row col p Hp).
Qed.

Lemma process_10_threshold_witness :
  rect_image sample_image 2 2 /\
  exists out,
    process_10 sample_image = Ok out /\ grid_dims out 2 2 /\
    forall row col p,
      pixel_at sample_image row col = Some p ->
      pixel_at out row col = Some (threshold_rule p).
Proof.
  split; [concrete_rect |].
  apply (process_10_threshold sample_image 2 2). concrete_rect.
Defined.

(** ** The bitmap codec *)

(** C3, as the code has it: [get_int] returns the little-endian sum of
    the addressed bytes reduced to an [int], in which a position past the
    end of the sequence counts as [EOF], that is -1, and not as zero; when
    all the addressed bytes are inside the sequence and there are at most
    three of them, or their value is an [int], the result is their
    unsigned little-endian value. *)
Theorem get_int_little_endian (data : list byte) (offset bytes : Z) :
  0 <= offset -> 1 <= bytes <= 4 ->
  fst (get_int (open_in (Some data)) offset bytes)
  = Int.wrap (le_sum EOF data offset (Z.to_nat bytes)) /\
  (offset + bytes <= Z.of_nat (length data) ->
   bytes <= 3 \/ le_sum 0 data offset (Z.to_nat bytes) <= Int.max_int ->
   fst (get_int (open_in (Some data)) offset bytes)
   = le_sum 0 data offset (Z.to_nat bytes)).
Proof.
  intros Hoff Hbytes.
  destruct (get_int_value (open_in (Some data)) data 0 offset bytes
              (open_in_reads (Some data) 0 ltac:(lia)) Hoff Hoff) as (Hv & _).
  split; [exact Hv |]. intros Hin Hsmall. rewrite Hv.
  rewrite le_sum_inside by lia.
  pose proof (le_sum_zero_range data (Z.to_nat bytes) offset) as Hrange.
  apply IntFacts.wrap_small. unfold Int.in_range, Int.min_int, Int.max_int in *.
  destruct Hsmall as [H3 | Hint]; [| lia].
  assert (256 ^ Z.of_nat (Z.to_nat bytes) <= 256 ^ 3)
    by (apply Z.pow_le_mono_r; lia).
  change (256 ^ 3) with 16777216 in *. lia.
Qed.

Lemma get_int_little_endian_witness :
  0 <= 10 /\ 1 <= 4 <= 4 /\
  fst (get_int (open_in (Some sample_file)) 10 4)
  = Int.wrap (le_sum EOF sample_file 10 (Z.to_nat 4)) /\
  (10 + 4 <= Z.of_nat (length sample_file) ->
   4 <= 3 \/ le_sum 0 sample_file 10 (Z.to_nat 4) <= Int.max_int ->
   fst (get_int (open_in (Some sample_file)) 10 4)
   = le_sum 0 sample_file 10 (Z.to_nat 4)).
Proof.
  split; [lia |]. split; [lia |].
  apply (get_int_little_endian sample_file 10 4); lia.
Defined.

(** C3, as stated, fails when a byte is missing: two bytes read from a
    sequence that holds the single byte 5 give 5 - 256, not 5. *)
Lemma get_int_past_end :
  fst (get_int (open_in (Some [x05])) 0 2) = -251 /\
  le_sum 0 [x05] 0 (Z.to_nat 2) = 5 /\
  fst (get_int (open_in (Some [x05])) 0 2) <> le_sum 0 [x05] 0 (Z.to_nat 2).
Proof.
  split; [reflexivity |]. split; [reflexivity |]. discriminate.
Qed.

(** C4, as the code has it: [read_image] tests the header in its own
    arithmetic, with the bytes of a pixel [bits_per_pixel / 8] rounded
    down, the padding [4 - scanline_size % 4] and 32-bit integers.  Where
    this is the invariant of the format, a width that is not negative,
    whole bytes per pixel and no overflow, a file that violates
    [file_size = offset + row_stride * height] is rejected: [read_image]
    returns the empty image, has read header bytes only, and no exception
    leaves it. *)
Theorem read_image_rejects (file : option (list byte)) :
  let start := header_field file 10 4 in
  let width := header_field file 18 4 in
  let height := header_field file 22 4 in
  let bits_per_pixel := header_field file 28 2 in
  let row_stride := round_up_4 (row_byte_width width bits_per_pixel) in
  0 <= width -> 0 <= bits_per_pixel -> bits_per_pixel mod 8 = 0 ->
  row_byte_width width bits_per_pixel <= Int.max_int - 3 ->
  Int.in_range (row_stride * height) ->
  Int.in_range (start + row_stride * height) ->
  ~ header_invariant file ->
  exists stream,
    read_image_from (open_in file) = Ok ([], stream) /\
    (forall q, In q (consumed stream) -> header_offset q) /\
    read_image file = Ok [].
Proof.
  intros start width height bits_per_pixel row_stride
    Hw Hb Hm Hrow Hmul Hadd Hbad.
  set (file_size := header_field file 2 4).
  apply read_image_from_rejects.
  pose proof (row_byte_width_whole width bits_per_pixel Hb Hm) as Hwhole.
  destruct (header_consistent file) eqn:Hok; [| reflexivity].
  exfalso. apply Hbad. unfold header_invariant.
  fold file_size start width height bits_per_pixel row_stride.
  pose proof (header_consistent_rounds_up file) as Hiff. cbv zeta in Hiff.
  fold file_size start width height bits_per_pixel in Hiff.
  rewrite <- Hwhole in Hiff. fold (round_up_4 (row_byte_width width bits_per_pixel)) in Hiff.
  fold row_stride in Hiff.
  apply Hiff; try assumption; try reflexivity.
  split; [| exact Hrow]. rewrite Hwhole.
  apply Z.mul_nonneg_nonneg; [exact Hw | apply Z.quot_pos; lia].
Qed.

Lemma read_image_rejects_witness :
  0 <= header_field (Some wrong_size_file) 18 4 /\
  0 <= header_field (Some wrong_size_file) 28 2 /\
  header_field (Some wrong_size_file) 28 2 mod 8 = 0 /\
  row_byte_width (header_field (Some wrong_size_file) 18 4)
    (header_field (Some wrong_size_file) 28 2) <= Int.max_int - 3 /\
  Int.in_range
    (round_up_4 (row_byte_width (header_field (Some wrong_size_file) 18 4)
                   (header_field (Some wrong_size_file) 28 2))
     * header_field (Some wrong_size_file) 22 4) /\
  Int.in_range
    (header_field (Some wrong_size_file) 10 4
     + round_up_4 (row_byte_width (header_field (Some wrong_size_file) 18 4)
                     (header_field (Some wrong_size_file) 28 2))
       * header_field (Some wrong_size_file) 22 4) /\
  ~ header_invariant (Some wrong_size_file) /\
  exists stream,
    read_image_from (open_in (Some wrong_size_file)) = Ok ([], stream) /\
    (forall q, In q (consumed stream) -> header_offset q) /\
    read_image (Some wrong_size_file) = Ok [].
Proof.
  split; [vm_compute; discriminate |]. split; [vm_compute; discriminate |].
  split; [vm_compute; reflexivity |]. split; [vm_compute; discriminate |].
  split; [vm_compute; split; discriminate |].
  split; [vm_compute; split; discriminate |].
  split; [vm_compute; discriminate |].
  apply (read_image_rejects (Some wrong_size_file));
    try (vm_compute; discriminate); try (vm_compute; reflexivity);
    vm_compute; split; discriminate.
Defined.

(** C4, as stated, fails where the test of the decoder is not the
    invariant.  A header of two pixels of 4 bits in one row that declares
    54 bytes violates the invariant, with the row byte width of the format
    and with three bytes per pixel alike; the decoder computes a row of
    no bytes, accepts the file, returns an image and reads the byte at
    offset 54.  A header of width -1 that declares 58 bytes violates it
    too; the decoder computes a stride of 4, accepts the file, and the
    constructor of the image throws. *)
Lemma read_image_accepts_violation :
  (~ header_invariant (Some four_bpp_file) /\
   ~ header_invariant_24 (Some four_bpp_file) /\
   exists image stream,
     read_image_from (open_in (Some four_bpp_file)) = Ok (image, stream) /\
     image <> [] /\ In 54 (consumed stream) /\ ~ header_offset 54) /\
  (~ header_invariant (Some negative_width_file) /\
   ~ header_invariant_24 (Some negative_width_file) /\
   read_image (Some negative_width_file) = Throws).
Proof.
  split.
  - split; [vm_compute; discriminate |]. split; [vm_compute; discriminate |].
    eexists. eexists. split; [vm_compute; reflexivity |].
    split; [discriminate |]. split; [simpl; auto |].
    unfold header_offset. lia.
  - split; [vm_compute; discriminate |]. split; [vm_compute; discriminate |].
    vm_compute. reflexivity.
Qed.

(** C9, as the code has it: an image [read_image] returns that is not
    empty has as many rows as the height field of the header says, at
    least one, and every row has as many pixels as the width field says,
    which can be none. *)
Theorem read_image_dimensions (file : option (list byte)) (image : Image) :
  read_image file = Ok image -> image <> [] ->
  grid_dims image (header_field file 22 4) (header_field file 18 4) /\
  1 <= header_field file 22 4 /\ 0 <= header_field file 18 4.
Proof.
  unfold read_image. read_header file Hcontents Hconsumed.
  pose proof (header_field_in_range file 22 4 ltac:(lia)) as HH.
  set (H := header_field file 22 4) in *.
  set (W := header_field file 18 4) in *.
  match goal with |- context [if ?b then _ else _] => destruct b end.
  { simpl. intros [= <-] Hne. contradiction. }
  unfold vector_n.
  destruct (Z.ltb_spec W 0) as [HW | HW];
    [cbn [mbind result_bind]; discriminate |].
  cbn [mbind result_bind].
  destruct (Z.ltb_spec H 0) as [HH' | HH'];
    [cbn [mbind result_bind]; discriminate |].
  cbn [mbind result_bind].
  match goal with |- context [for_down _ _ (?img0, ?p0, ?s0)] =>
    match goal with |- context [seekg_cur _ ?pad] =>
      destruct (read_pixels_dims img0 H W p0 (header_field file 28 2) pad s0)
        as (img & pos & stream & Hrun & Hd)
    end
  end.
  - unfold Int.in_range, Int.max_int in *. lia.
  - exact HW.
  - apply replicate_grid_dims; lia.
  - cbv zeta in Hrun. cbv zeta. run_with Hrun. simpl. intros [= <-] Hne.
    split; [exact Hd |]. split; [| exact HW].
    destruct Hd as [Hlen _]. destruct img; [contradiction | simpl in Hlen; lia].
Qed.

Lemma read_image_dimensions_witness :
  read_image (Some sample_file) = Ok sample_image /\ sample_image <> [] /\
  grid_dims sample_image (header_field (Some sample_file) 22 4)
    (header_field (Some sample_file) 18 4) /\
  1 <= header_field (Some sample_file) 22 4 /\
  0 <= header_field (Some sample_file) 18 4.
Proof.
  split; [vm_compute; reflexivity |]. split; [discriminate |].
  apply (read_image_dimensions (Some sample_file) sample_image);
    [vm_compute; reflexivity | discriminate].
Defined.

(** C9, as stated, fails on a file whose header declares a width of
    zero: the image returned is not empty and its row has no pixel. *)
Lemma read_image_zero_width :
  exists image,
    read_image (Some zero_width_file) = Ok image /\ image <> [] /\
    ~ (1 <= Z.of_nat (length image) /\
       Forall (fun row => 1 <= Z.of_nat (length row)) image).
Proof.
  exists [[]]. split; [vm_compute; reflexivity |]. split; [discriminate |].
  intros [_ Hrows]. inversion Hrows as [| row rows Hrow _]. simpl in Hrow. lia.
Qed.

(** C10: in the file [write_image] produces, the three bytes of the pixel
    ([h], [w]) are its blue, green and red channels modulo 256, whatever
    the values of the channels. *)
Theorem write_image_wraps_channels (image : Image) (R C h w : Z) (p : Pixel) :
  rect_image image R C -> 54 + stride_of C * R <= Int.max_int ->
  pixel_at image h w = Some p ->
  exists file,
    write_image true image = Ok (true, file) /\
    (let offset := 54 + (R - 1 - h) * stride_of C + 3 * w in
     byte_at file offset = Some (blue p mod 256) /\
     byte_at file (offset + 1) = Some (green p mod 256) /\
     byte_at file (offset + 2) = Some (red p mod 256)).
Proof.
  intros Hrect Hsize Hp. exists (encoding image R C).
  split; [exact (write_image_encoding image R C Hrect Hsize) |].
  destruct Hrect as (Hd & _). unfold pixel_at in Hp. cbv zeta.
  pose proof (encoding_pixel_byte image R C h w 0 p Hd Hp ltac:(lia)) as H0.
  pose proof (encoding_pixel_byte image R C h w 1 p Hd Hp ltac:(lia)) as H1.
  pose proof (encoding_pixel_byte image R C h w 2 p Hd Hp ltac:(lia)) as H2.
  rewrite Z.add_0_r in H0. unfold byte_at. rewrite H0, H1, H2.
  unfold pixel_bytes, zlookup. simpl.
  rewrite !uchar_value_to_uchar. auto.
Qed.

Lemma write_image_wraps_channels_witness :
  rect_image overflowing_image 1 1 /\
  54 + stride_of 1 * 1 <= Int.max_int /\
  pixel_at overflowing_image 0 0 = Some (mkPixel 300 (-1) 256) /\
  exists file,
    write_image true overflowing_image = Ok (true, file) /\
    (let offset := 54 + (1 - 1 - 0) * stride_of 1 + 3 * 0 in
     byte_at file offset = Some (256 mod 256) /\
     byte_at file (offset + 1) = Some (-1 mod 256) /\
     byte_at file (offset + 2) = Some (300 mod 256)).
Proof.
  split; [concrete_rect |]. split; [vm_compute; discriminate |].
  split; [reflexivity |].
  apply (write_image_wraps_channels overflowing_image 1 1 0 0
           (mkPixel 300 (-1) 256));
    [concrete_rect | vm_compute; discriminate | reflexivity].
Defined.

(** C1: [read_image] applied to the file [write_image] produces for a
    non-empty rectangular image with channels in 0..255 returns that
    image. *)
Theorem read_write_roundtrip (image : Image) (R C : Z) :
  rect_image image R C -> byte_image image ->
  54 + stride_of C * R <= Int.max_int ->
  exists file,
    write_image true image = Ok (true, file) /\
    read_image (Some file) = Ok image.
Proof.
  intros Hrect Hbytes Hsize. exists (encoding image R C).
  split; [exact (write_image_encoding image R C Hrect Hsize) |].
  pose proof Hrect as (Hd & HR & HC).
  pose proof (padding_of_range C ltac:(lia)) as Hpad.
  assert (Hstride0 : stride_of C = C * 3 + padding_of C) by reflexivity.
  assert (Hstride : stride_of C <= stride_of C * R) by nia.
  destruct (encoding_header image R C Hrect Hsize) as (F1 & F2 & F3 & F4 & F5).
  unfold read_image. read_header (Some (encoding image R C)) Hreads Hconsumed.
  rewrite F1, F2, F3, F4, F5. cbv zeta.
  rewrite read_padding by int_range.
  change (Z.quot 24 8) with 3.
  rewrite (IntFacts.mul_small C 3) by int_range.
  rewrite (IntFacts.add_small (C * 3)) by int_range.
  rewrite <- Hstride0.
  rewrite (IntFacts.mul_small (stride_of C) R) by int_range.
  rewrite (IntFacts.add_small 54) by int_range.
  rewrite Z.eqb_refl. cbn [negb].
  rewrite (vector_n_nonneg C) by lia. cbn [mbind result_bind].
  rewrite (vector_n_nonneg R) by lia. cbn [mbind result_bind].
  destruct Hreads as (Hcontents & _ & Hfail).
  unfold file_bytes in Hcontents, Hfail.
  assert (Hnofail : failbit s5 = false).
  { destruct (failbit s5); [| reflexivity].
    specialize (Hfail eq_refl).
    rewrite (encoding_length image R C Hd ltac:(lia)) in Hfail. nia. }
  destruct (read_pixels_exact image
              (replicate (Z.to_nat R) (replicate (Z.to_nat C) zero_pixel))
              R C s5 Hrect Hbytes Hsize) as (pos & stream & Hrun);
    [apply replicate_grid_dims; lia | exact Hcontents | exact Hnofail |].
  cbv zeta in Hrun. change (Z.quot 24 8) with 3 in Hrun.
  run_with Hrun. reflexivity.
Qed.

Lemma read_write_roundtrip_witness :
  rect_image sample_image 2 2 /\ byte_image sample_image /\
  54 + stride_of 2 * 2 <= Int.max_int /\
  exists file,
    write_image true sample_image = Ok (true, file) /\
    read_image (Some file) = Ok sample_image.
Proof.
  split; [concrete_rect |]. split; [concrete_bytes |].
  split; [vm_compute; discriminate |].
  apply (read_write_roundtrip sample_image 2 2);
    [concrete_rect | concrete_bytes | vm_compute; discriminate].
Defined.

(** * Further results *)

(** ** The bitmap codec *)

(** X1: [get_int] reads back what [set_bytes] stored: after
    [set_bytes] has written [bytes] bytes of [value] at [offset] of an
    array that holds them, the array keeps its length and its other
    bytes, and [get_int] on these bytes returns [value] modulo
    [256 ^ bytes], which is [value] when [value] fits the bytes, and for
    every [int] when four bytes are written. *)
Theorem set_bytes_get_int (arr : list byte) (offset bytes value : Z) :
  0 <= offset -> 1 <= bytes <= 4 ->
  offset + bytes <= Z.of_nat (length arr) <= Int.max_int ->
  exists arr',
    set_bytes arr offset bytes value = Ok arr' /\
    length arr' = length arr /\
    (forall q, ~ (offset <= q < offset + bytes) ->
       zlookup arr' q = zlookup arr q) /\
    fst (get_int (open_in (Some arr')) offset bytes)
    = Int.wrap (value mod 256 ^ bytes) /\
    (0 <= value < 256 ^ bytes /\ value <= Int.max_int \/
     bytes = 4 /\ Int.in_range value ->
     fst (get_int (open_in (Some arr')) offset bytes) = value).
Proof.
  intros Hoff Hbytes Hlen.
  destruct (set_bytes_run arr offset bytes value Hoff ltac:(lia) Hlen)
    as (arr' & Hrun & Hl & Hset & Hkeep).
  exists arr'. split; [exact Hrun |]. split; [exact Hl |].
  split; [exact Hkeep |].
  assert (Hget : fst (get_int (open_in (Some arr')) offset bytes)
                 = Int.wrap (value mod 256 ^ bytes)).
  { destruct (get_int_value (open_in (Some arr')) arr' 0 offset bytes
                (open_in_reads (Some arr') 0 ltac:(lia)) Hoff Hoff) as (Hv & _).
    rewrite Hv, le_sum_inside by lia.
    rewrite (le_sum_digits arr' value (Z.to_nat bytes) offset 0); [| lia |].
    - rewrite Z.pow_0_r, Z.div_1_r, Z2Nat.id by lia. reflexivity.
    - intros j Hj. unfold byte_or. rewrite Hset by lia.
      rewrite le_byte_value by lia.
      rewrite Z.add_0_l, (Z.mul_comm j 8), Z.pow_mul_r by lia.
      reflexivity. }
  split; [exact Hget |].
  intros [[Hv Hmax] | [-> Hv]]; rewrite Hget.
  - rewrite Z.mod_small by lia. apply IntFacts.wrap_small.
    unfold Int.in_range, Int.min_int, Int.max_int in *. lia.
  - rewrite <- (IntFacts.wrap_small value Hv) at 2.
    apply IntFacts.wrap_eq_mod. change (256 ^ 4) with 4294967296.
    apply Z.mod_mod. lia.
Qed.

Lemma set_bytes_get_int_witness :
  0 <= 2 /\ 1 <= 4 <= 4 /\
  2 + 4 <= Z.of_nat (length (replicate 14 x00)) <= Int.max_int /\
  exists arr',
    set_bytes (replicate 14 x00) 2 4 70 = Ok arr' /\
    length arr' = length (replicate 14 x00) /\
    (forall q, ~ (2 <= q < 2 + 4) ->
       zlookup arr' q = zlookup (replicate 14 x00) q) /\
    fst (get_int (open_in (Some arr')) 2 4) = Int.wrap (70 mod 256 ^ 4) /\
    (0 <= 70 < 256 ^ 4 /\ 70 <= Int.max_int \/ 4 = 4 /\ Int.in_range 70 ->
     fst (get_int (open_in (Some arr')) 2 4) = 70).
Proof.
  split; [lia |]. split; [lia |].
  split; [simpl; unfold Int.max_int; lia |].
  apply (set_bytes_get_int (replicate 14 x00) 2 4 70);
    [lia | lia | simpl; unfold Int.max_int; lia].
Defined.

(** X2: whatever the file holds, and also when it cannot be
    opened, [read_image] indexes no vector outside its bounds. *)
Theorem read_image_never_faults (file : option (list byte)) :
  read_image file <> Fault.
Proof.
  destruct (read_image_cases file)
    as [[_ Hrun] | [(_ & _ & Hrun) | (_ & _ & _ & image & Hrun & _)]];
    rewrite Hrun; discriminate.
Qed.



(** X4: when the header passes the test of [read_image]
    and declares a negative width or height, the constructor of the image
    vector throws and the exception leaves [read_image]. *)
Theorem read_image_negative_size (file : option (list byte)) :
  header_consistent file = true ->
  header_field file 18 4 < 0 \/ header_field file 22 4 < 0 ->
  read_image file = Throws.
Proof.
  intros Hok Hneg.
  destruct (read_image_cases file)
    as [[Hbad _] | [(_ & _ & Hrun) | (_ & HW & HH & _)]].
  - congruence.
  - exact Hrun.
  - lia.
Qed.

Lemma read_image_negative_size_witness :
  header_consistent (Some short_header_file) = true /\
  (header_field (Some short_header_file) 18 4 < 0 \/
   header_field (Some short_header_file) 22 4 < 0) /\
  read_image (Some short_header_file) = Throws.
Proof.
  split; [vm_compute; reflexivity |].
  split; [right; vm_compute; reflexivity |].
  apply (read_image_negative_size (Some short_header_file));
    [vm_compute; reflexivity | right; vm_compute; reflexivity].
Defined.

(** X5: every channel of an image [read_image] returns is
    the value of a byte or the -1 that [get] returns at the end of the
    file. *)
Theorem read_image_channel_range (file : option (list byte)) (image : Image)
    (row col : Z) (p : Pixel) :
  read_image file = Ok image -> pixel_at image row col = Some p ->
  -1 <= red p <= 255 /\ -1 <= green p <= 255 /\ -1 <= blue p <= 255.
Proof.
  intros Hrun Hp.
  destruct (read_image_cases file)
    as [[_ Hrun'] | [(_ & _ & Hrun') | (_ & _ & _ & image' & Hrun' & _ & Hr)]];
    rewrite Hrun in Hrun'.
  - injection Hrun' as ->. unfold pixel_at, cell, zlookup in Hp.
    destruct (row <? 0); discriminate Hp.
  - discriminate Hrun'.
  - injection Hrun' as <-. unfold pixel_at, cell in Hp.
    destruct (zlookup image row) as [r |] eqn:Hrow; [| discriminate].
    rewrite Forall_lookup in Hr.
    pose proof (Hr _ _ (zlookup_nat _ _ _ Hrow)) as Hrow'.
    rewrite Forall_lookup in Hrow'.
    exact (Hrow' _ _ (zlookup_nat _ _ _ Hp)).
Qed.

Lemma read_image_channel_range_witness :
  read_image (Some truncated_file)
  = Ok [[mkPixel (-1) (-1) (-1); mkPixel (-1) (-1) (-1)];
        [mkPixel 0 0 255; mkPixel (-1) (-1) 255]] /\
  pixel_at [[mkPixel (-1) (-1) (-1); mkPixel (-1) (-1) (-1)];
            [mkPixel 0 0 255; mkPixel (-1) (-1) 255]] 1 1
  = Some (mkPixel (-1) (-1) 255) /\
  -1 <= red (mkPixel (-1) (-1) 255) <= 255 /\
  -1 <= green (mkPixel (-1) (-1) 255) <= 255 /\
  -1 <= blue (mkPixel (-1) (-1) 255) <= 255.
Proof.
  split; [vm_compute; reflexivity |]. split; [reflexivity |].
  apply (read_image_channel_range (Some truncated_file)
           [[mkPixel (-1) (-1) (-1); mkPixel (-1) (-1) (-1)];
            [mkPixel 0 0 255; mkPixel (-1) (-1) 255]] 1 1);
    [vm_compute; reflexivity | reflexivity].
Defined.

(** X6: on a file that passes the test of [read_image], whose
    pixel array starts after the header fields, with at least three bytes
    per pixel and every row present, the pixel ([i], [j]) of the image
    [read_image] returns holds the bytes at
    [start + (H - 1 - i) * stride + j * step] as blue, green and red, the
    rows being stored bottom to top, [step] being the bytes per pixel and
    [stride] the row length rounded up to a multiple of four. *)
Theorem read_image_pixels (file : option (list byte)) :
  let start := header_field file 10 4 in
  let W := header_field file 18 4 in
  let H := header_field file 22 4 in
  let step := header_field file 28 2 / 8 in
  let stride := 4 * ((W * step + 3) / 4) in
  header_consistent file = true ->
  30 <= start -> 1 <= W -> 1 <= H -> 3 <= step ->
  start + stride * H <= Z.of_nat (length (file_bytes file)) <= Int.max_int ->
  exists image,
    read_image file = Ok image /\ grid_dims image H W /\
    forall i j, 0 <= i < H -> 0 <= j < W ->
      exists p,
        pixel_at image i j = Some p /\
        (let offset := start + (H - 1 - i) * stride + j * step in
         byte_at (file_bytes file) offset = Some (blue p) /\
         byte_at (file_bytes file) (offset + 1) = Some (green p) /\
         byte_at (file_bytes file) (offset + 2) = Some (red p)).
Proof.
  intros start W H step stride Hok Hstart HW HH Hstep Hlen.
  assert (Hbpp : 0 <= header_field file 28 2).
  { unfold step in Hstep. Z.to_euclidean_division_equations. lia. }
  assert (Hquot : Z.quot (header_field file 28 2) 8 = step)
    by (apply Z.quot_div_nonneg; lia).
  assert (Hscan : 0 <= W * step <= Int.max_int - 3).
  { assert (H0 : 0 <= W * step) by nia.
    pose proof (Z.div_mod (W * step + 3) 4 ltac:(lia)) as Hdm.
    pose proof (Z.mod_pos_bound (W * step + 3) 4 ltac:(lia)) as Hmb.
    fold stride in Hdm.
    assert (stride <= stride * H) by nia.
    unfold Int.max_int in *. lia. }
  assert (Htest : header_consistent file =
     (header_field file 2 4 =?
      int_add start
        (int_mul
           (int_add (int_mul W (Z.quot (header_field file 28 2) 8))
              (if negb (Z.rem (int_mul W (Z.quot (header_field file 28 2) 8)) 4 =? 0)
               then int_sub 4 (Z.rem (int_mul W (Z.quot (header_field file 28 2) 8)) 4)
               else 0))
           H))) by reflexivity.
  pose proof (header_field_in_range file 22 4 ltac:(lia)) as HHr.
  fold H in HHr.
  unfold read_image. read_header file Hcontents Hconsumed.
  fold start W H. cbv zeta. rewrite <- Htest, Hok. cbn [negb].
  rewrite Hquot in *. rewrite (IntFacts.mul_small W step) by int_range.
  destruct (read_padding_value (W * step) Hscan) as [Hpad Hsum].
  cbv zeta in Hpad, Hsum.
  set (padding := if negb (Z.rem (W * step) 4 =? 0)
                  then int_sub 4 (Z.rem (W * step) 4) else 0) in *.
  fold stride in Hsum.
  rewrite (vector_n_nonneg W) by lia. cbn [mbind result_bind].
  rewrite (vector_n_nonneg H) by lia. cbn [mbind result_bind].
  destruct Hcontents as (Hdata & Hgpos & Hfail).
  assert (Hnofail : failbit s5 = false).
  { destruct (failbit s5); [| reflexivity].
    specialize (Hfail eq_refl). nia. }
  destruct (read_pixels_located (file_bytes file)
              (replicate (Z.to_nat H) (replicate (Z.to_nat W) zero_pixel))
              H W start (header_field file 28 2) padding s5)
    as (image & pos & stream & Hrun & Hd & Hcells);
    try rewrite Hquot; try rewrite Hsum; try lia; try assumption;
    try (unfold Int.in_range in HHr; lia).
  { apply replicate_grid_dims; lia. }
  cbv zeta in Hrun. rewrite Hquot in Hrun. run_with Hrun.
  exists image. split; [reflexivity |]. split; [exact Hd |].
  intros i j Hi Hj. eexists. unfold pixel_at.
  split; [apply Hcells; assumption |].
  rewrite Hquot, Hsum. cbv zeta.
  set (offset := start + (H - 1 - i) * stride + j * step).
  assert (Hrow : 0 <= (H - 1 - i) * stride
                 /\ (H - 1 - i) * stride + stride <= stride * H) by nia.
  assert (Hcol : 0 <= j * step /\ j * step + step <= W * step) by nia.
  assert (Hoff : 0 <= offset /\ offset + 2 < Z.of_nat (length (file_bytes file)))
    by (unfold offset; lia).
  unfold pixel_from, byte_at, byte_or. simpl.
  destruct (zlookup_in_range (file_bytes file) offset ltac:(lia)) as [b0 ->].
  destruct (zlookup_in_range (file_bytes file) (offset + 1) ltac:(lia)) as [b1 ->].
  destruct (zlookup_in_range (file_bytes file) (offset + 2) ltac:(lia)) as [b2 ->].
  auto.
Qed.

Lemma read_image_pixels_witness :
  header_consistent (Some sample_file) = true /\
  30 <= header_field (Some sample_file) 10 4 /\
  1 <= header_field (Some sample_file) 18 4 /\
  1 <= header_field (Some sample_file) 22 4 /\
  3 <= header_field (Some sample_file) 28 2 / 8 /\
  header_field (Some sample_file) 10 4
  + 4 * ((header_field (Some sample_file) 18 4
          * (header_field (Some sample_file) 28 2 / 8) + 3) / 4)
    * header_field (Some sample_file) 22 4
  <= Z.of_nat (length (file_bytes (Some sample_file))) <= Int.max_int /\
  exists image,
    read_image (Some sample_file) = Ok image /\
    grid_dims image (header_field (Some sample_file) 22 4)
      (header_field (Some sample_file) 18 4) /\
    forall i j,
      0 <= i < header_field (Some sample_file) 22 4 ->
      0 <= j < header_field (Some sample_file) 18 4 ->
      exists p,
        pixel_at image i j = Some p /\
        (let offset :=
           header_field (Some sample_file) 10 4
           + (header_field (Some sample_file) 22 4 - 1 - i)
             * (4 * ((header_field (Some sample_file) 18 4
                      * (header_field (Some sample_file) 28 2 / 8) + 3) / 4))
           + j * (header_field (Some sample_file) 28 2 / 8) in
         byte_at (file_bytes (Some sample_file)) offset = Some (blue p) /\
         byte_at (file_bytes (Some sample_file)) (offset + 1) = Some (green p) /\
         byte_at (file_bytes (Some sample_file)) (offset + 2) = Some (red p)).
Proof.
  split; [vm_compute; reflexivity |].
  split; [vm_compute; discriminate |]. split; [vm_compute; discriminate |].
  split; [vm_compute; discriminate |]. split; [vm_compute; discriminate |].
  split; [vm_compute; split; discriminate |].
  apply (read_image_pixels (Some sample_file));
    try (vm_compute; reflexivity); try (vm_compute; discriminate).
  vm_compute; split; discriminate.
Defined.

(** X7: the file [write_image] produces has the length its
    header declares, [54 + stride * R], rows padded to the next multiple
    of four bytes, a header that gives the offset 54, the width, the
    height and 24 bits per pixel, and it passes the test of
    [read_image]. *)
Theorem write_image_well_formed (image : Image) (R C : Z) :
  rect_image image R C -> 54 + stride_of C * R <= Int.max_int ->
  exists file,
    write_image true image = Ok (true, file) /\
    well_formed_bmp file R C /\
    3 * C <= stride_of C < 3 * C + 4 /\ stride_of C mod 4 = 0.
Proof.
  intros Hrect Hsize. pose proof Hrect as (Hd & HR & HC).
  exists (encoding image R C).
  split; [exact (write_image_encoding image R C Hrect Hsize) |].
  split; [exact (encoding_well_formed image R C Hrect Hsize) |].
  pose proof (padding_of_range C ltac:(lia)) as Hpad.
  split; [unfold stride_of; lia | apply stride_of_rows; lia].
Qed.

Lemma write_image_well_formed_witness :
  rect_image sample_image 2 2 /\ 54 + stride_of 2 * 2 <= Int.max_int /\
  exists file,
    write_image true sample_image = Ok (true, file) /\
    well_formed_bmp file 2 2 /\
    3 * 2 <= stride_of 2 < 3 * 2 + 4 /\ stride_of 2 mod 4 = 0.
Proof.
  split; [concrete_rect |]. split; [vm_compute; discriminate |].
  apply (write_image_well_formed sample_image 2 2);
    [concrete_rect | vm_compute; discriminate].
Defined.

(** X8: whatever the channel values, [read_image] on the file
    [write_image] produces returns the image with every channel reduced
    modulo 256. *)
Theorem read_write_wraps (image : Image) (R C : Z) :
  rect_image image R C -> 54 + stride_of C * R <= Int.max_int ->
  exists file,
    write_image true image = Ok (true, file) /\
    read_image (Some file) = Ok (wrap_image image).
Proof.
  intros Hrect Hsize. exists (encoding image R C).
  split; [exact (write_image_encoding image R C Hrect Hsize) |].
  rewrite <- encoding_wrap.
  exact (read_image_encoding (wrap_image image) R C
           (wrap_image_rect image R C Hrect) (wrap_image_bytes image) Hsize).
Qed.

Lemma read_write_wraps_witness :
  rect_image overflowing_image 1 1 /\ 54 + stride_of 1 * 1 <= Int.max_int /\
  exists file,
    write_image true overflowing_image = Ok (true, file) /\
    read_image (Some file) = Ok (wrap_image overflowing_image).
Proof.
  split; [concrete_rect |]. split; [vm_compute; discriminate |].
  apply (read_write_wraps overflowing_image 1 1);
    [concrete_rect | vm_compute; discriminate].
Defined.

(** X9: a file [write_image] has produced is a fixed point of
    reading and writing: [write_image] on the image [read_image] returns
    for it produces the same bytes, whatever the channel values of the
    image it was first written from. *)
Theorem write_read_write (image : Image) (R C : Z) :
  rect_image image R C -> 54 + stride_of C * R <= Int.max_int ->
  exists file image',
    write_image true image = Ok (true, file) /\
    read_image (Some file) = Ok image' /\
    write_image true image' = Ok (true, file).
Proof.
  intros Hrect Hsize. exists (encoding image R C), (wrap_image image).
  split; [exact (write_image_encoding image R C Hrect Hsize) |].
  split.
  - rewrite <- encoding_wrap.
    exact (read_image_encoding (wrap_image image) R C
             (wrap_image_rect image R C Hrect) (wrap_image_bytes image) Hsize).
  - rewrite <- encoding_wrap.
    exact (write_image_encoding (wrap_image image) R C
             (wrap_image_rect image R C Hrect) Hsize).
Qed.

Lemma write_read_write_witness :
  rect_image overflowing_image 1 1 /\ 54 + stride_of 1 * 1 <= Int.max_int /\
  exists file image',
    write_image true overflowing_image = Ok (true, file) /\
    read_image (Some file) = Ok image' /\
    write_image true image' = Ok (true, file).
Proof.
  split; [concrete_rect |]. split; [vm_compute; discriminate |].
  apply (write_read_write overflowing_image 1 1);
    [concrete_rect | vm_compute; discriminate].
Defined.

(** ** Rotation *)

(** X10: a count that leaves 2 modulo four gives the half
    turn, an image of the same dimensions with the pixel ([row], [col]) at
    ([R - 1 - row], [C - 1 - col]). *)
Theorem rotate_90_half_turn (image : Image) (R C N : Z) :
  rect_image image R C -> Z.rem N 4 = 2 ->
  exists out,
    rotate_90 image N = Ok out /\ grid_dims out R C /\
    forall row col p,
      pixel_at image row col = Some p ->
      pixel_at out (R - 1 - row) (C - 1 - col) = Some p.
Proof.
  intros Hrect HN.
  destruct (rotate_90_turns image R C Hrect)
    as (o1 & o2 & _ & [D1 T1] & [D2 T2] & _ & _ & H2 & _).
  exists o2. rewrite rotate_90_rem, HN. split; [exact H2 |].
  split; [exact D2 |].
  intros row col p Hp. unfold pixel_at in *.
  destruct Hrect as (Hd & _).
  destruct (cell_Some_range _ _ _ _ _ _ Hd Hp) as [Hrow Hcol].
  rewrite (T2 (C - 1 - col) row), T1 by lia. exact Hp.
Qed.

Lemma rotate_90_half_turn_witness :
  rect_image sample_image 2 2 /\ Z.rem 6 4 = 2 /\
  exists out,
    rotate_90 sample_image 6 = Ok out /\ grid_dims out 2 2 /\
    forall row col p,
      pixel_at sample_image row col = Some p ->
      pixel_at out (2 - 1 - row) (2 - 1 - col) = Some p.
Proof.
  split; [concrete_rect |]. split; [reflexivity |].
  apply (rotate_90_half_turn sample_image 2 2 6); [concrete_rect | reflexivity].
Defined.

(** X11: a count that leaves 3 modulo four gives the
    clockwise quarter turn, a [C] by [R] image with the pixel ([row],
    [col]) at ([col], [R - 1 - row]). *)
Theorem rotate_90_clockwise (image : Image) (R C N : Z) :
  rect_image image R C -> Z.rem N 4 = 3 ->
  exists out,
    rotate_90 image N = Ok out /\ grid_dims out C R /\
    forall row col p,
      pixel_at image row col = Some p ->
      pixel_at out col (R - 1 - row) = Some p.
Proof.
  intros Hrect HN.
  destruct (rotate_90_turns image R C Hrect)
    as (o1 & o2 & o3 & [D1 T1] & [D2 T2] & [D3 T3] & _ & _ & H3).
  exists o3. rewrite rotate_90_rem, HN. split; [exact H3 |].
  split; [exact D3 |].
  intros row col p Hp. unfold pixel_at in *.
  destruct Hrect as (Hd & _).
  destruct (cell_Some_range _ _ _ _ _ _ Hd Hp) as [Hrow Hcol].
  specialize (T3 (R - 1 - row) (C - 1 - col)).
  replace (C - 1 - (C - 1 - col)) with col in T3 by lia.
  rewrite T3, (T2 (C - 1 - col) row), T1 by lia. exact Hp.
Qed.

Lemma rotate_90_clockwise_witness :
  rect_image [[pure_red; pure_green; pure_blue]] 1 3 /\ Z.rem 3 4 = 3 /\
  exists out,
    rotate_90 [[pure_red; pure_green; pure_blue]] 3 = Ok out /\
    grid_dims out 3 1 /\
    forall row col p,
      pixel_at [[pure_red; pure_green; pure_blue]] row col = Some p ->
      pixel_at out col (1 - 1 - row) = Some p.
Proof.
  split; [concrete_rect |]. split; [reflexivity |].
  apply (rotate_90_clockwise [[pure_red; pure_green; pure_blue]] 1 3 3);
    [concrete_rect | reflexivity].
Defined.

(** X12: rotating by [a] and then by [b] is rotating by [a + b], when
    the sum is a count [rotate_90] can be given, an [int]. *)
Theorem rotate_90_compose (image : Image) (R C a b : Z) :
  rect_image image R C -> 0 <= a -> 0 <= b -> a + b <= Int.max_int ->
  (out ← rotate_90 image a; rotate_90 out b) = rotate_90 image (a + b).
Proof.
  intros Hrect Ha Hb _.
  assert (Hma : 0 <= a mod 4 < 4) by (apply Z.mod_pos_bound; lia).
  assert (Hmb : 0 <= b mod 4 < 4) by (apply Z.mod_pos_bound; lia).
  assert (Hmab : 0 <= (a + b) mod 4 < 4) by (apply Z.mod_pos_bound; lia).
  rewrite (rotate_90_times image R C a Hrect Ha).
  rewrite (rotate_90_times image R C (a + b) Hrect) by lia.
  destruct (rotate_times_rect (Z.to_nat (a mod 4)) image R C Hrect)
    as (out & R' & C' & Hrun & Hout).
  run_with Hrun. rewrite (rotate_90_times out R' C' b Hout Hb).
  pose proof (rotate_times_add (Z.to_nat (a mod 4)) (Z.to_nat (b mod 4)) image)
    as Hadd.
  rewrite Hrun in Hadd. cbn [mbind result_bind] in Hadd. rewrite <- Hadd.
  assert (Hsum : a mod 4 + b mod 4 = (a + b) mod 4
                 \/ a mod 4 + b mod 4 = 4 + (a + b) mod 4).
  { rewrite (Zplus_mod a b 4).
    clear Hmab. set (x := a mod 4) in *. set (y := b mod 4) in *.
    clearbody x y. Z.to_euclidean_division_equations. lia. }
  destruct Hsum as [E | E].
  - f_equal. lia.
  - replace (Z.to_nat (a mod 4) + Z.to_nat (b mod 4))%nat
      with (4 * 1 + Z.to_nat ((a + b) mod 4))%nat by lia.
    exact (rotate_times_period 1 _ image R C Hrect).
Qed.

Lemma rotate_90_compose_witness :
  rect_image sample_image 2 2 /\ 0 <= 3 /\ 0 <= 2 /\ 3 + 2 <= Int.max_int /\
  (out ← rotate_90 sample_image 3; rotate_90 out 2)
  = rotate_90 sample_image (3 + 2).
Proof.
  split; [concrete_rect |]. split; [lia |]. split; [lia |].
  split; [vm_compute; discriminate |].
  apply (rotate_90_compose sample_image 2 2 3 2);
    [concrete_rect | lia | lia | vm_compute; discriminate].
Defined.

(** X13: for a negative count the remainder [%] gives is
    negative and the loop over the later turns does not run: an odd count
    gives one counter-clockwise quarter turn whatever its value, and a
    count that leaves -2 gives the mirror image as it was allocated, every
    pixel zero. *)
Theorem rotate_90_negative_count (image : Image) (R C N : Z) :
  rect_image image R C -> N < 0 ->
  (Z.rem N 4 = 0 -> rotate_90 image N = Ok image) /\
  (Z.rem N 2 <> 0 -> rotate_90 image N = process_4 image) /\
  (Z.rem N 4 = -2 ->
   rotate_90 image N
   = Ok (replicate (Z.to_nat R) (replicate (Z.to_nat C) zero_pixel))).
Proof.
  intros Hrect HN. pose proof Hrect as (Hd & HR & HC).
  destruct (first_turn_loops image
              (replicate (Z.to_nat C) (replicate (Z.to_nat R) zero_pixel))
              R C Hrect) as (o1 & Hrun1 & T1).
  { apply replicate_grid_dims; lia. }
  assert (Hone : rotate_90 image 1 = Ok o1).
  { unfold rotate_90. change (Z.rem 1 4) with 1. cbn [Z.eqb].
    run_with (size_image_rect _ _ _ Hrect).
    run_with (vector_n_nonneg R zero_pixel (ltac:(lia))).
    rewrite (vector_n_nonneg C (replicate (Z.to_nat R) zero_pixel)) by lia.
    cbn [mbind result_bind].
    run_with (vector_n_nonneg C zero_pixel (ltac:(lia))).
    rewrite (vector_n_nonneg R (replicate (Z.to_nat C) zero_pixel)) by lia.
    cbn [mbind result_bind].
    run_with Hrun1. rewrite for_up_empty by lia. reflexivity. }
  assert (Hneg : forall k, -3 <= k <= -1 -> rotate_90 image N = rotate_90 image k ->
            rotate_90 image N =
            if Z.rem k 2 =? 0
            then Ok (replicate (Z.to_nat R) (replicate (Z.to_nat C) zero_pixel))
            else Ok o1).
  { intros k Hk ->. unfold rotate_90.
    replace (Z.rem k 4) with k by (symmetry; apply Z.rem_small_iff; lia).
    destruct (Z.eqb_spec k 0); [lia |].
    run_with (size_image_rect _ _ _ Hrect).
    run_with (vector_n_nonneg R zero_pixel (ltac:(lia))).
    rewrite (vector_n_nonneg C (replicate (Z.to_nat R) zero_pixel)) by lia.
    cbn [mbind result_bind].
    run_with (vector_n_nonneg C zero_pixel (ltac:(lia))).
    rewrite (vector_n_nonneg R (replicate (Z.to_nat C) zero_pixel)) by lia.
    cbn [mbind result_bind].
    run_with Hrun1. rewrite for_up_empty by lia. reflexivity. }
  assert (Hb : -4 < Z.rem N 4 <= 0)
    by (Z.to_euclidean_division_equations; lia).
  split; [| split].
  - intros H0. unfold rotate_90. rewrite H0. reflexivity.
  - intros Hodd. unfold process_4. rewrite Hone.
    assert (Hc : Z.rem N 4 = -1 \/ Z.rem N 4 = -3).
    { Z.to_euclidean_division_equations. lia. }
    destruct Hc as [E | E]; rewrite (Hneg (Z.rem N 4)); rewrite ?E;
      try reflexivity; try lia; rewrite <- E; apply rotate_90_rem.
  - intros E. rewrite (Hneg (-2)); [reflexivity | lia |].
    rewrite <- E. apply rotate_90_rem.
Qed.

Lemma rotate_90_negative_count_witness :
  rect_image sample_image 2 2 /\ -1 < 0 /\
  (Z.rem (-1) 4 = 0 -> rotate_90 sample_image (-1) = Ok sample_image) /\
  (Z.rem (-1) 2 <> 0 -> rotate_90 sample_image (-1) = process_4 sample_image) /\
  (Z.rem (-1) 4 = -2 ->
   rotate_90 sample_image (-1)
   = Ok (replicate (Z.to_nat 2) (replicate (Z.to_nat 2) zero_pixel))).
Proof.
  split; [concrete_rect |]. split; [lia |].
  apply (rotate_90_negative_count sample_image 2 2 (-1)); [concrete_rect | lia].
Defined.

(** ** Pixel-wise transforms *)

(** X14: whatever the factor, [process_2] keeps the dimensions
    and leaves unchanged every pixel whose channels sum to 270..509, the
    pixels whose integer average is in 90..169. *)
Theorem process_2_midtones (scale_factor : float) (image : Image) (R C : Z) :
  rect_image image R C ->
  exists out,
    process_2 scale_factor image = Ok out /\ grid_dims out R C /\
    forall row col p,
      pixel_at image row col = Some p ->
      270 <= channel_sum p <= 509 ->
      pixel_at out row col = Some p.
Proof.
  intros Hrect.
  destruct (process_2_pixelwise scale_factor image R C Hrect)
    as (out & Hrun & Hd & Hcells).
  exists out. split; [exact Hrun |]. split; [exact Hd |].
  intros row col p Hp Hsum. unfold pixel_at in *.
  rewrite (Hcells row col p Hp). f_equal.
  unfold clarendon_pixel. cbv zeta.
  assert (E : int_add (int_add (red p) (blue p)) (green p) = channel_sum p).
  { unfold channel_sum, Int.add. rewrite IntFacts.wrap_add_l. f_equal. lia. }
  rewrite E.
  assert (Havg : 90 <= Z.quot (channel_sum p) 3 < 170).
  { rewrite Z.quot_div_nonneg by lia.
    split; [apply Z.div_le_lower_bound; lia
           | apply Z.div_lt_upper_bound; lia]. }
  destruct (Z.leb_spec 170 (Z.quot (channel_sum p) 3)); [lia |].
  destruct (Z.ltb_spec (Z.quot (channel_sum p) 3) 90); [lia |].
  destruct p; reflexivity.
Qed.

Lemma process_2_midtones_witness :
  rect_image [[mkPixel 100 120 140]] 1 1 /\
  exists out,
    process_2 0.5%float [[mkPixel 100 120 140]] = Ok out /\
    grid_dims out 1 1 /\
    forall row col p,
      pixel_at [[mkPixel 100 120 140]] row col = Some p ->
      270 <= channel_sum p <= 509 ->
      pixel_at out row col = Some p.
Proof.
  split; [concrete_rect |].
  apply (process_2_midtones 0.5%float [[mkPixel 100 120 140]] 1 1).
  concrete_rect.
Defined.

(** X15: on an image with channels in 0..255, [process_7]
    keeps the dimensions and makes a pixel white when the sum of its
    channels is at least 383, that is when their average computed in
    [double] is at least 127.5, and black otherwise. *)
Theorem process_7_high_contrast (image : Image) (R C : Z) :
  rect_image image R C -> byte_image image ->
  exists out,
    process_7 image = Ok out /\ grid_dims out R C /\
    forall row col p,
      pixel_at image row col = Some p ->
      pixel_at out row col
      = Some (if 383 <=? red p + green p + blue p then white else black).
Proof.
  intros Hrect Hbytes.
  destruct (process_7_pointwise image R C Hrect) as (out & Hrun & Hd & Hcells).
  exists out. split; [exact Hrun |]. split; [exact Hd |].
  intros row col p Hp. unfold pixel_at in *.
  rewrite (Hcells row col p Hp). f_equal.
  destruct (byte_image_cell image row col p Hbytes Hp) as (Hr & Hg & Hb).
  unfold byte_channel in *. unfold contrast_pixel. int_small.
  fold (contrast_test (red p + blue p + green p)).
  rewrite contrast_test_threshold by lia.
  replace (red p + blue p + green p) with (red p + green p + blue p) by lia.
  destruct (383 <=? red p + green p + blue p); reflexivity.
Qed.

Lemma process_7_high_contrast_witness :
  rect_image sample_image 2 2 /\ byte_image sample_image /\
  exists out,
    process_7 sample_image = Ok out /\ grid_dims out 2 2 /\
    forall row col p,
      pixel_at sample_image row col = Some p ->
      pixel_at out row col
      = Some (if 383 <=? red p + green p + blue p then white else black).
Proof.
  split; [concrete_rect |]. split; [concrete_bytes |].
  apply (process_7_high_contrast sample_image 2 2);
    [concrete_rect | concrete_bytes].
Defined.

(** X16: with the factor 1, the largest [get_scale] accepts,
    [process_2], [process_8] and [process_9] return an image with channels
    in 0..255 as it is. *)
Theorem scale_one_identity (T : Image -> result Image) (image : Image)
    (R C : Z) :
  In T [process_2 1%float; process_8 1%float; process_9 1%float] ->
  rect_image image R C -> byte_image image ->
  T image = Ok image.
Proof.
  intros HT Hrect Hbytes. simpl in HT.
  destruct HT as [<- | [<- | [<- | []]]].
  - apply (pixelwise_identity _ _ image R C (process_2_pixelwise 1%float) Hrect).
    intros row col p Hp.
    apply (scale_one_pixel p (byte_image_cell image row col p Hbytes Hp)).
  - apply (pixelwise_identity _ _ image R C (process_8_pixelwise 1%float) Hrect).
    intros row col p Hp.
    apply (scale_one_pixel p (byte_image_cell image row col p Hbytes Hp)).
  - apply (pixelwise_identity _ _ image R C (process_9_pixelwise 1%float) Hrect).
    intros row col p Hp.
    apply (scale_one_pixel p (byte_image_cell image row col p Hbytes Hp)).
Qed.

Lemma scale_one_identity_witness :
  In (process_8 1%float)
    [process_2 1%float; process_8 1%float; process_9 1%float] /\
  rect_image sample_image 2 2 /\ byte_image sample_image /\
  process_8 1%float sample_image = Ok sample_image.
Proof.
  split; [simpl; auto |]. split; [concrete_rect |].
  split; [concrete_bytes |].
  apply (scale_one_identity (process_8 1%float) sample_image 2 2);
    [simpl; auto | concrete_rect | concrete_bytes].
Defined.

(** X17: applying [process_3], [process_7] or
    [process_10] to its own result changes nothing. *)
Theorem pixel_transforms_idempotent (T : Image -> result Image)
    (image : Image) (R C : Z) :
  In T [process_3; process_7; process_10] -> rect_image image R C ->
  exists out, T image = Ok out /\ T out = Ok out.
Proof.
  intros HT Hrect. simpl in HT.
  destruct HT as [<- | [<- | [<- | []]]].
  - exact (pixelwise_idempotent _ _ process_3_pixelwise image R C
             gray_pixel_idempotent Hrect).
  - exact (pixelwise_idempotent _ _ process_7_pixelwise image R C
             contrast_pixel_idempotent Hrect).
  - exact (pixelwise_idempotent _ _ process_10_pixelwise image R C
             threshold_pixel_idempotent Hrect).
Qed.

Lemma pixel_transforms_idempotent_witness :
  In process_3 [process_3; process_7; process_10] /\
  rect_image sample_image 2 2 /\
  exists out, process_3 sample_image = Ok out /\ process_3 out = Ok out.
Proof.
  split; [left; reflexivity |]. split; [concrete_rect |].
  apply (pixel_transforms_idempotent process_3 sample_image 2 2);
    [left; reflexivity | concrete_rect].
Defined.

(** X18: the transforms that work pixel by
    pixel ([process_2], [process_3], [process_7], [process_8], [process_9],
    [process_10]) commute with [rotate_90]. *)
Theorem pixel_transforms_commute_with_rotation (scale : float)
    (T : Image -> result Image) (image : Image) (R C N : Z) :
  In T [process_2 scale; process_3; process_7; process_8 scale;
        process_9 scale; process_10] ->
  rect_image image R C -> 0 <= N ->
  (g ← T image; rotate_90 g N) = (o ← rotate_90 image N; T o).
Proof.
  intros HT Hrect HN.
  destruct (pixel_transforms_pixelwise scale T HT) as [f Hf].
  exact (pixelwise_rotate_90_commute T f Hf image R C N Hrect HN).
Qed.

Lemma pixel_transforms_commute_with_rotation_witness :
  In process_10 [process_2 0.5%float; process_3; process_7;
                 process_8 0.5%float; process_9 0.5%float; process_10] /\
  rect_image sample_image 2 2 /\ 0 <= 3 /\
  (g ← process_10 sample_image; rotate_90 g 3)
  = (o ← rotate_90 sample_image 3; process_10 o).
Proof.
  split; [simpl; auto 10 |]. split; [concrete_rect |]. split; [lia |].
  apply (pixel_transforms_commute_with_rotation 0.5%float process_10
           sample_image 2 2 3);
    [simpl; auto 10 | concrete_rect | lia].
Defined.

(** ** Enlargement *)

(** X19: [process_6] with the scales [x] and [y] returns an
    image of [R * y] rows and [C * x] columns in which every source pixel
    fills a block of [y] rows and [x] columns. *)
Theorem process_6_enlarge (x y : Z) (image : Image) (R C : Z) :
  rect_image image R C -> 1 <= x -> 1 <= y ->
  R * y <= Int.max_int -> C * x <= Int.max_int ->
  exists out,
    process_6 x y image = Ok out /\ grid_dims out (R * y) (C * x) /\
    forall row col p,
      pixel_at image row col = Some p ->
      forall i j, 0 <= i < y -> 0 <= j < x ->
        pixel_at out (row * y + i) (col * x + j) = Some p.
Proof.
  intros Hrect Hx Hy HRy HCx.
  destruct (process_6_cells x y image R C Hrect Hx Hy HRy HCx)
    as (out & Hrun & Hd & Hcells).
  exists out. split; [exact Hrun |]. split; [exact Hd |].
  intros row col p Hp i j Hi Hj. unfold pixel_at in *.
  destruct Hrect as (Hdi & _).
  destruct (cell_Some_range _ _ _ _ _ _ Hdi Hp) as [Hrow Hcol].
  rewrite Hcells by nia.
  replace ((row * y + i) / y) with row
    by (apply (Z.div_unique_pos _ _ row i); lia).
  replace ((col * x + j) / x) with col
    by (apply (Z.div_unique_pos _ _ col j); lia).
  exact Hp.
Qed.

Lemma process_6_enlarge_witness :
  rect_image sample_image 2 2 /\ 1 <= 3 /\ 1 <= 2 /\
  2 * 2 <= Int.max_int /\ 2 * 3 <= Int.max_int /\
  exists out,
    process_6 3 2 sample_image = Ok out /\ grid_dims out (2 * 2) (2 * 3) /\
    forall row col p,
      pixel_at sample_image row col = Some p ->
      forall i j, 0 <= i < 2 -> 0 <= j < 3 ->
        pixel_at out (row * 2 + i) (col * 3 + j) = Some p.
Proof.
  split; [concrete_rect |]. split; [lia |]. split; [lia |].
  split; [vm_compute; discriminate |]. split; [vm_compute; discriminate |].
  apply (process_6_enlarge 3 2 sample_image 2 2);
    [concrete_rect | lia | lia | vm_compute; discriminate
    | vm_compute; discriminate].
Defined.

(** X20: with both scales 1, [process_6] returns the image
    it was given. *)
Theorem process_6_identity (image : Image) (R C : Z) :
  rect_image image R C -> process_6 1 1 image = Ok image.
Proof.
  intros Hrect. pose proof Hrect as (Hd & HR & HC).
  destruct (process_6_cells 1 1 image R C Hrect) as (out & Hrun & Hdo & Hcells);
    try lia.
  rewrite Hrun. f_equal. rewrite !Z.mul_1_r in Hdo, Hcells.
  apply (grid_ext out image R C Hdo Hd). intros i j Hi Hj.
  rewrite Hcells, !Z.div_1_r by lia. reflexivity.
Qed.

Lemma process_6_identity_witness :
  rect_image sample_image 2 2 /\ process_6 1 1 sample_image = Ok sample_image.
Proof.
  split; [concrete_rect |].
  apply (process_6_identity sample_image 2 2). concrete_rect.
Defined.

(** X21: enlarging twice is enlarging once by the products
    of the scales. *)
Theorem process_6_compose (x1 y1 x2 y2 : Z) (image : Image) (R C : Z) :
  rect_image image R C -> 1 <= x1 -> 1 <= y1 -> 1 <= x2 -> 1 <= y2 ->
  R * (y1 * y2) <= Int.max_int -> C * (x1 * x2) <= Int.max_int ->
  (out ← process_6 x1 y1 image; process_6 x2 y2 out)
  = process_6 (x1 * x2) (y1 * y2) image.
Proof.
  intros Hrect Hx1 Hy1 Hx2 Hy2 HR2 HC2. pose proof Hrect as (Hd & HR & HC).
  destruct (process_6_cells x1 y1 image R C Hrect) as (o1 & Hrun1 & Hd1 & Hc1);
    try nia.
  assert (Hrect1 : rect_image o1 (R * y1) (C * x1)).
  { split; [exact Hd1 |]. split; nia. }
  destruct (process_6_cells x2 y2 o1 _ _ Hrect1) as (o2 & Hrun2 & Hd2 & Hc2);
    try nia.
  destruct (process_6_cells (x1 * x2) (y1 * y2) image R C Hrect)
    as (o & Hrun & Hdo & Hc); try nia.
  run_with Hrun1. rewrite Hrun2, Hrun. f_equal.
  replace (R * (y1 * y2)) with (R * y1 * y2) in * by lia.
  replace (C * (x1 * x2)) with (C * x1 * x2) in * by lia.
  apply (grid_ext o2 o _ _ Hd2 Hdo). intros i j Hi Hj.
  rewrite Hc2, Hc, Hc1, !Z.div_div; try lia.
  - replace (y2 * y1) with (y1 * y2) by lia.
    replace (x2 * x1) with (x1 * x2) by lia. reflexivity.
  - split; [apply Z.div_pos; lia | apply Z.div_lt_upper_bound; lia].
  - split; [apply Z.div_pos; lia | apply Z.div_lt_upper_bound; lia].
Qed.

Lemma process_6_compose_witness :
  rect_image sample_image 2 2 /\ 1 <= 2 /\ 1 <= 1 /\ 1 <= 3 /\ 1 <= 2 /\
  2 * (1 * 2) <= Int.max_int /\ 2 * (2 * 3) <= Int.max_int /\
  (out ← process_6 2 1 sample_image; process_6 3 2 out)
  = process_6 (2 * 3) (1 * 2) sample_image.
Proof.
  split; [concrete_rect |]. do 4 (split; [lia |]).
  split; [vm_compute; discriminate |]. split; [vm_compute; discriminate |].
  apply (process_6_compose 2 1 3 2 sample_image 2 2);
    try lia; try concrete_rect; vm_compute; discriminate.
Defined.

(** X22: the transforms that work pixel by
    pixel commute with [process_6]. *)
Theorem pixel_transforms_commute_with_enlarge (scale : float)
    (T : Image -> result Image) (x y : Z) (image : Image) (R C : Z) :
  In T [process_2 scale; process_3; process_7; process_8 scale;
        process_9 scale; process_10] ->
  rect_image image R C -> 1 <= x -> 1 <= y ->
  R * y <= Int.max_int -> C * x <= Int.max_int ->
  (g ← T image; process_6 x y g) = (o ← process_6 x y image; T o).
Proof.
  intros HT.
  destruct (pixel_transforms_pixelwise scale T HT) as [f Hf].
  exact (pixelwise_enlarge_commute T f Hf x y image R C).
Qed.

Lemma pixel_transforms_commute_with_enlarge_witness :
  In (process_9 0.5%float)
    [process_2 0.5%float; process_3; process_7; process_8 0.5%float;
     process_9 0.5%float; process_10] /\
  rect_image sample_image 2 2 /\ 1 <= 3 /\ 1 <= 2 /\
  2 * 2 <= Int.max_int /\ 2 * 3 <= Int.max_int /\
  (g ← process_9 0.5%float sample_image; process_6 3 2 g)
  = (o ← process_6 3 2 sample_image; process_9 0.5%float o).
Proof.
  split; [simpl; auto 10 |]. split; [concrete_rect |].
  split; [lia |]. split; [lia |].
  split; [vm_compute; discriminate |]. split; [vm_compute; discriminate |].
  apply (pixel_transforms_commute_with_enlarge 0.5%float (process_9 0.5%float)
           3 2 sample_image 2 2);
    [simpl; auto 10 | concrete_rect | lia | lia
    | vm_compute; discriminate | vm_compute; discriminate].
Defined.

(** X23: a quarter turn of the enlarged image is the
    enlargement of the turned image with the two scales exchanged. *)
Theorem enlarge_then_turn (x y : Z) (image : Image) (R C : Z) :
  rect_image image R C -> 1 <= x -> 1 <= y ->
  R * y <= Int.max_int -> C * x <= Int.max_int ->
  (e ← process_6 x y image; process_4 e)
  = (t ← process_4 image; process_6 y x t).
Proof.
  intros Hrect Hx Hy HRy HCx. pose proof Hrect as (Hd & HR & HC).
  destruct (process_6_cells x y image R C Hrect Hx Hy HRy HCx)
    as (e & He & De & Ce).
  assert (Hrecte : rect_image e (R * y) (C * x)).
  { split; [exact De |]. split; nia. }
  destruct (rotate_90_turns e _ _ Hrecte)
    as (te & _ & _ & [Dte Tte] & _ & _ & Hte & _).
  destruct (rotate_90_turns image R C Hrect)
    as (t & _ & _ & Tt & _ & _ & Ht & _).
  pose proof (quarter_turn_rect _ _ _ _ Hrect Tt) as Hrectt.
  destruct Tt as [Dt Tt].
  destruct (process_6_cells y x t C R Hrectt Hy Hx HCx HRy)
    as (et & Het & Det & Cet).
  unfold process_4. run_with He. run_with Ht. rewrite Hte, Het. f_equal.
  apply (grid_ext te et _ _ Dte Det). intros i j Hi Hj.
  specialize (Tte j (C * x - 1 - i)).
  replace (C * x - 1 - (C * x - 1 - i)) with i in Tte by lia.
  rewrite Tte, Ce, Cet by lia.
  assert (Hr : 0 <= j / y < R)
    by (split; [apply Z.div_pos; lia | apply Z.div_lt_upper_bound; lia]).
  assert (Hc : 0 <= i / x < C)
    by (split; [apply Z.div_pos; lia | apply Z.div_lt_upper_bound; lia]).
  rewrite (div_mirror C x i) by lia.
  specialize (Tt (j / y) (C - 1 - i / x)).
  replace (C - 1 - (C - 1 - i / x)) with (i / x) in Tt by lia.
  rewrite Tt by lia. reflexivity.
Qed.

Lemma enlarge_then_turn_witness :
  rect_image sample_image 2 2 /\ 1 <= 3 /\ 1 <= 2 /\
  2 * 2 <= Int.max_int /\ 2 * 3 <= Int.max_int /\
  (e ← process_6 3 2 sample_image; process_4 e)
  = (t ← process_4 sample_image; process_6 2 3 t).
Proof.
  split; [concrete_rect |]. split; [lia |]. split; [lia |].
  split; [vm_compute; discriminate |]. split; [vm_compute; discriminate |].
  apply (enlarge_then_turn 3 2 sample_image 2 2);
    [concrete_rect | lia | lia | vm_compute; discriminate
    | vm_compute; discriminate].
Defined.

(** ** The handler *)

(** X24: [execute] does not test the image [read_image]
    returns: on a file whose header fails the test of [read_image], a
    file that cannot be opened among them, the transform or [write_image]
    indexes row 0 of the empty image. *)
Theorem execute_rejected_file (file : option (list byte)) (is_open : bool)
    (scale : float) (num x y : Z) (process : Image -> result Image) :
  header_consistent file = false ->
  In process [process_2 scale; process_3; process_4; process_5 num;
              process_6 x y; process_7; process_8 scale; process_9 scale;
              process_10] ->
  execute file is_open process = Fault.
Proof.
  intros Hbad Hin. unfold execute, get_image.
  destruct (read_image_cases file)
    as [[_ Hrun] | [(Hok & _) | (Hok & _)]]; try congruence.
  run_with Hrun.
  destruct (empty_image_faults scale num x y process Hin) as [-> | ->];
    reflexivity.
Qed.

Lemma execute_rejected_file_witness :
  header_consistent None = false /\
  In process_3 [process_2 1%float; process_3; process_4; process_5 1;
                process_6 1 1; process_7; process_8 1%float;
                process_9 1%float; process_10] /\
  execute None true process_3 = Fault.
Proof.
  split; [vm_compute; reflexivity |]. split; [simpl; auto |].
  apply (execute_rejected_file None true 1%float 1 1 1 process_3);
    [vm_compute; reflexivity | simpl; auto].
Defined.

(** X25: on a file [read_image] accepts, with at least
    one row and one column, [execute] with a transform that works pixel by
    pixel writes a well-formed 24-bit bitmap of the dimensions the header
    of the input declares. *)
Theorem execute_pixel_transform (file : option (list byte)) (scale : float)
    (process : Image -> result Image) :
  let W := header_field file 18 4 in
  let H := header_field file 22 4 in
  header_consistent file = true -> 1 <= W -> 1 <= H ->
  54 + stride_of W * H <= Int.max_int ->
  In process [process_2 scale; process_3; process_7; process_8 scale;
              process_9 scale; process_10] ->
  exists image new_image,
    read_image file = Ok image /\ process image = Ok new_image /\
    execute file true process = Ok (encoding new_image H W) /\
    well_formed_bmp (encoding new_image H W) H W.
Proof.
  intros W H Hok HW HH Hsize Hin.
  destruct (read_image_cases file)
    as [[Hbad _] | [(_ & Hneg & _) | (_ & _ & _ & image & Hrun & Hd & _)]];
    [congruence | fold W H in Hneg; lia |].
  fold W H in Hd.
  pose proof (header_field_in_range file 18 4 ltac:(lia)) as HWr.
  pose proof (header_field_in_range file 22 4 ltac:(lia)) as HHr.
  fold W in HWr. fold H in HHr.
  assert (Hrect : rect_image image H W).
  { split; [exact Hd |]. unfold Int.in_range in *. lia. }
  destruct (pixel_transforms_pixelwise scale process Hin) as [f Hf].
  destruct (Hf image H W Hrect) as (new_image & Hp & Hdo & _).
  pose proof (pixelwise_rect process f Hf image new_image H W Hrect Hp)
    as Hrect'.
  exists image, new_image. split; [exact Hrun |]. split; [exact Hp |].
  split; [| exact (encoding_well_formed new_image H W Hrect' Hsize)].
  unfold execute, get_image, respond. run_with Hrun. run_with Hp.
  rewrite (write_image_encoding new_image H W Hrect' Hsize). reflexivity.
Qed.

Lemma execute_pixel_transform_witness :
  header_consistent (Some sample_file) = true /\
  1 <= header_field (Some sample_file) 18 4 /\
  1 <= header_field (Some sample_file) 22 4 /\
  54 + stride_of (header_field (Some sample_file) 18 4)
       * header_field (Some sample_file) 22 4 <= Int.max_int /\
  In process_3 [process_2 1%float; process_3; process_7; process_8 1%float;
                process_9 1%float; process_10] /\
  exists image new_image,
    read_image (Some sample_file) = Ok image /\
    process_3 image = Ok new_image /\
    execute (Some sample_file) true process_3
    = Ok (encoding new_image (header_field (Some sample_file) 22 4)
            (header_field (Some sample_file) 18 4)) /\
    well_formed_bmp
      (encoding new_image (header_field (Some sample_file) 22 4)
         (header_field (Some sample_file) 18 4))
      (header_field (Some sample_file) 22 4)
      (header_field (Some sample_file) 18 4).
Proof.
  split; [vm_compute; reflexivity |].
  split; [vm_compute; discriminate |]. split; [vm_compute; discriminate |].
  split; [vm_compute; discriminate |]. split; [simpl; auto |].
  apply (execute_pixel_transform (Some sample_file) 1%float process_3);
    [vm_compute; reflexivity | vm_compute; discriminate
    | vm_compute; discriminate | vm_compute; discriminate
    | simpl; auto].
Defined.
